(** * The distributed aggregator of GraphLab (PowerGraph)

    A shallow embedding of
    [src/graphlab/aggregation/distributed_aggregator.hpp]: the type-erased
    registry of map-reduce descriptors, the on-demand collective
    [aggregate_now], the periodic schedule with its synchronous and
    asynchronous tick drivers, and [start]/[stop].

    Every method of the C++ class is a function on the record
    [distributed_aggregator], which holds the members of one machine's
    object.  What a method reads from its surroundings (the clock, the
    result of a [try_lock], what a gather or a broadcast delivers) is an
    explicit argument; what it sends through [rmi.remote_call] is returned
    as a list of calls.  A fatal assertion is the outcome [Fatal]. *)

From stdpp Require Import gmap strings list fin_maps.

Local Open Scope Z_scope.

(** ** Outcomes of a method call *)

(** [Done a]: the call returns [a].  [Fatal]: a fatal assertion stopped
    the process.  [NoReturn]: the call did not return (a loop that never
    ends, or one that was given too little fuel). *)
Inductive outcome (A : Type) : Type :=
  | Done (a : A)
  | Fatal
  | NoReturn.
Arguments Done {A} a.
Arguments Fatal {A}.
Arguments NoReturn {A}.

Definition outcome_bind {A B} (f : A -> outcome B) (m : outcome A) : outcome B :=
  match m with
  | Done a => f a
  | Fatal => Fatal
  | NoReturn => NoReturn
  end.

#[global] Instance outcome_ret : MRet outcome := @Done.
#[global] Instance outcome_mbind : MBind outcome := @outcome_bind.

(** Modelled from the spec: the macros [ASSERT_MSG], [ASSERT_EQ],
    [ASSERT_NE], [ASSERT_LT], [ASSERT_LE], [ASSERT_GT] and [ASSERT_GE]
    (graphlab/logger/assertions.hpp is not among the sources).  A failed
    assertion is fatal: the process stops and the call does not return.
    [assertion cond k] goes on with [k] when the condition holds. *)
Definition assertion {A : Type} (cond : bool) (k : outcome A) : outcome A :=
  if cond then k else Fatal.

(** ** Integers of the machine *)

(** The two countdowns are [atomic<int>]; [to_int] is the conversion to a
    32-bit [int], [atomic_dec] is [atomic<int>::dec], which returns the
    new value. *)
Definition INT_MAX : Z := 2147483647.

Definition to_int (z : Z) : Z := (z + 2147483648) mod 4294967296 - 2147483648.

Definition atomic_dec (z : Z) : Z := to_int (z - 1).

(** ** Reduction types *)

(** [ReductionType] "must be summable": [sum_add] is its [operator+=],
    [sum_default] its default constructor [T()]. *)
Class Summable (T : Type) : Type := {
  sum_add : T -> T -> T;
  sum_default : T
}.

(** What the property tests ask of the combine operation. *)
Class SummableLaws (T : Type) `{Summable T} : Prop := {
  sum_add_assoc : forall a b c : T, sum_add a (sum_add b c) = sum_add (sum_add a b) c;
  sum_add_comm : forall a b : T, sum_add a b = sum_add b a
}.

Section Model.

Context {T : Type} `{Summable T}.
Context {vertex_type edge_type icontext_type : Type}.

(** *** conditional_addition_wrapper *)

(** Modelled from the spec: [conditional_addition_wrapper<T>]
    (graphlab/util/generics/conditional_addition_wrapper.hpp is not among
    the sources).  The spec gives it as the tagged sum { Empty | Value(T) }
    with Empty + x = x, x + Empty = x and Value(a) + Value(b) = Value(a+b);
    [None] is Empty.  [wrapper_value] is the member [value], which reads as
    the default-constructed [T] when the sum is empty. *)
Definition conditional_addition_wrapper : Type := option T.

(** [acc += t] for a raw [T]. *)
Definition wrapper_add_value (a : conditional_addition_wrapper) (t : T)
  : conditional_addition_wrapper :=
  match a with
  | None => Some t
  | Some v => Some (sum_add v t)
  end.

(** [acc += other] for another wrapper. *)
Definition wrapper_add (a b : conditional_addition_wrapper)
  : conditional_addition_wrapper :=
  match a, b with
  | Some v, Some w => Some (sum_add v w)
  | None, Some w => Some w
  | _, None => a
  end.

Definition wrapper_value (a : conditional_addition_wrapper) : T :=
  match a with
  | Some v => v
  | None => sum_default
  end.

(** The sum of a list of mapped values, added one by one to an empty
    wrapper. *)
Definition wrapper_sum (l : list T) : conditional_addition_wrapper :=
  foldl wrapper_add_value None l.

(** [any] carries a wrapper between machines. *)
Definition any : Type := conditional_addition_wrapper.

(** *** map_reduce_type *)

(** The two constructors of [map_reduce_type] set exactly one of
    [map_vtx_function] and [map_edge_function] and the tag [vertex_map]
    with it; the pair is one value of [map_function]. *)
Inductive map_function : Type :=
  | map_vtx_function (f : icontext_type -> vertex_type -> T)
  | map_edge_function (f : icontext_type -> edge_type -> T).

Record map_reduce_type : Type := {
  acc : conditional_addition_wrapper;
  map_fn : map_function;
  finalize_function : icontext_type -> T -> icontext_type
}.

Definition set_acc (a : conditional_addition_wrapper) (mr : map_reduce_type)
  : map_reduce_type :=
  {| acc := a; map_fn := map_fn mr; finalize_function := finalize_function mr |}.

(** The vertex constructor and the edge constructor. *)
Definition new_vertex_map_reduce (f : icontext_type -> vertex_type -> T)
    (fin : icontext_type -> T -> icontext_type) : map_reduce_type :=
  {| acc := None; map_fn := map_vtx_function f; finalize_function := fin |}.

Definition new_edge_map_reduce (f : icontext_type -> edge_type -> T)
    (fin : icontext_type -> T -> icontext_type) : map_reduce_type :=
  {| acc := None; map_fn := map_edge_function f; finalize_function := fin |}.

Definition is_vertex_map (mr : map_reduce_type) : bool :=
  match map_fn mr with
  | map_vtx_function _ => true
  | map_edge_function _ => false
  end.

(** Called only when [is_vertex_map] holds; on an edge reduction the
    function object is empty and nothing can be mapped. *)
Definition perform_map_vertex (ctx : icontext_type) (v : vertex_type)
    (mr : map_reduce_type) : map_reduce_type :=
  match map_fn mr with
  | map_vtx_function f => set_acc (wrapper_add_value (acc mr) (f ctx v)) mr
  | map_edge_function _ => mr
  end.

Definition perform_map_edge (ctx : icontext_type) (e : edge_type)
    (mr : map_reduce_type) : map_reduce_type :=
  match map_fn mr with
  | map_edge_function f => set_acc (wrapper_add_value (acc mr) (f ctx e)) mr
  | map_vtx_function _ => mr
  end.

Definition get_accumulator (mr : map_reduce_type) : any := acc mr.

Definition add_accumulator_any (other : any) (mr : map_reduce_type)
  : map_reduce_type :=
  set_acc (wrapper_add (acc mr) other) mr.

Definition set_accumulator_any (other : any) (mr : map_reduce_type)
  : map_reduce_type :=
  set_acc other mr.

Definition add_accumulator (other : map_reduce_type) (mr : map_reduce_type)
  : map_reduce_type :=
  set_acc (wrapper_add (acc mr) (acc other)) mr.

Definition clear_accumulator (mr : map_reduce_type) : map_reduce_type :=
  set_acc None mr.

(** [finalize_function(context, acc.value)]: the finalizer acts on the
    context. *)
Definition finalize (ctx : icontext_type) (mr : map_reduce_type) : icontext_type :=
  finalize_function mr ctx (wrapper_value (acc mr)).

Definition clone_empty (mr : map_reduce_type) : map_reduce_type :=
  {| acc := None; map_fn := map_fn mr; finalize_function := finalize_function mr |}.

(** *** The graph collaborator *)

(** A local vertex: the machine that owns it, the vertex handle that
    [vertex_type vertex(lvertex)] builds, and its in-edges. *)
Record local_vertex_type : Type := {
  owner : nat;
  lv_vertex : vertex_type;
  in_edges : list edge_type
}.

(** One machine's shard: [l_vertex(i)] is the [i]-th entry,
    [num_local_vertices()] the length. *)
Definition graph_type : Type := list local_vertex_type.

(** *** mutable_queue *)

(** Modelled from the spec: [mutable_queue<std::string, float>]
    (graphlab/util/mutable_queue.hpp is not among the sources), a priority
    structure with push, top, pop and clear that extracts the greatest
    priority first.  The aggregator stores negated times in it.  Times and
    periods are integers of an arbitrary clock unit. *)
Definition mutable_queue : Type := list (string * Z).

Definition mq_push (key : string) (priority : Z) (q : mutable_queue)
  : mutable_queue :=
  (key, priority) :: q.

Fixpoint mq_top (q : mutable_queue) : option (string * Z) :=
  match q with
  | [] => None
  | x :: q' =>
      match mq_top q' with
      | Some y => if snd x <? snd y then Some y else Some x
      | None => Some x
      end
  end.

Fixpoint mq_pop (q : mutable_queue) : mutable_queue :=
  match q with
  | [] => []
  | x :: q' =>
      match mq_top q' with
      | Some y => if snd x <? snd y then x :: mq_pop q' else q'
      | None => q'
      end
  end.

Definition mq_empty (q : mutable_queue) : bool :=
  match q with
  | [] => true
  | _ => false
  end.

(** *** async_aggregator_state *)

Record async_aggregator_state : Type := {
  root_reducer : map_reduce_type;
  per_thread_aggregation : list map_reduce_type;
  local_count_down : Z;
  distributed_count_down : Z
}.

(** *** The members of the class *)

(** [procid] and [numprocs] are what [rmi.procid()] and [rmi.numprocs()]
    return. *)
Record distributed_aggregator : Type := {
  procid : nat;
  numprocs : nat;
  graph : graph_type;
  context : icontext_type;
  aggregators : gmap string map_reduce_type;
  aggregate_period : gmap string Z;
  async_state : gmap string async_aggregator_state;
  start_time : Z;
  schedule : mutable_queue;
  ncpus : nat
}.

Definition set_context (c : icontext_type) (st : distributed_aggregator) :=
  {| procid := procid st; numprocs := numprocs st; graph := graph st;
     context := c; aggregators := aggregators st;
     aggregate_period := aggregate_period st; async_state := async_state st;
     start_time := start_time st; schedule := schedule st; ncpus := ncpus st |}.

Definition set_aggregators (m : gmap string map_reduce_type)
    (st : distributed_aggregator) :=
  {| procid := procid st; numprocs := numprocs st; graph := graph st;
     context := context st; aggregators := m;
     aggregate_period := aggregate_period st; async_state := async_state st;
     start_time := start_time st; schedule := schedule st; ncpus := ncpus st |}.

Definition set_aggregate_period (m : gmap string Z)
    (st : distributed_aggregator) :=
  {| procid := procid st; numprocs := numprocs st; graph := graph st;
     context := context st; aggregators := aggregators st;
     aggregate_period := m; async_state := async_state st;
     start_time := start_time st; schedule := schedule st; ncpus := ncpus st |}.

Definition set_async_state (m : gmap string async_aggregator_state)
    (st : distributed_aggregator) :=
  {| procid := procid st; numprocs := numprocs st; graph := graph st;
     context := context st; aggregators := aggregators st;
     aggregate_period := aggregate_period st; async_state := m;
     start_time := start_time st; schedule := schedule st; ncpus := ncpus st |}.

Definition set_start_time (t : Z) (st : distributed_aggregator) :=
  {| procid := procid st; numprocs := numprocs st; graph := graph st;
     context := context st; aggregators := aggregators st;
     aggregate_period := aggregate_period st; async_state := async_state st;
     start_time := t; schedule := schedule st; ncpus := ncpus st |}.

Definition set_schedule (q : mutable_queue) (st : distributed_aggregator) :=
  {| procid := procid st; numprocs := numprocs st; graph := graph st;
     context := context st; aggregators := aggregators st;
     aggregate_period := aggregate_period st; async_state := async_state st;
     start_time := start_time st; schedule := q; ncpus := ncpus st |}.

Definition set_ncpus (n : nat) (st : distributed_aggregator) :=
  {| procid := procid st; numprocs := numprocs st; graph := graph st;
     context := context st; aggregators := aggregators st;
     aggregate_period := aggregate_period st; async_state := async_state st;
     start_time := start_time st; schedule := schedule st; ncpus := n |}.

(** The constructor: empty registry, period table, async state and
    schedule, [ncpus(0)]; [start_time] is not initialised and reads as
    whatever [t] the memory holds. *)
Definition new_distributed_aggregator (p n : nat) (g : graph_type)
    (c : icontext_type) (t : Z) : distributed_aggregator :=
  {| procid := p; numprocs := n; graph := g; context := c;
     aggregators := ∅; aggregate_period := ∅; async_state := ∅;
     start_time := t; schedule := []; ncpus := 0 |}.

(** *** Registration *)

Definition add_vertex_aggregator (key : string)
    (map_function : icontext_type -> vertex_type -> T)
    (finalize_fn : icontext_type -> T -> icontext_type)
    (st : distributed_aggregator) : distributed_aggregator * bool :=
  if (String.length key =? 0)%nat then (st, false)
  else
    match aggregators st !! key with
    | None =>
        (set_aggregators
           (<[key := new_vertex_map_reduce map_function finalize_fn]>
              (aggregators st)) st, true)
    | Some _ => (st, false)
    end.

Definition add_edge_aggregator (key : string)
    (map_function : icontext_type -> edge_type -> T)
    (finalize_fn : icontext_type -> T -> icontext_type)
    (st : distributed_aggregator) : distributed_aggregator * bool :=
  if (String.length key =? 0)%nat then (st, false)
  else
    match aggregators st !! key with
    | None =>
        (set_aggregators
           (<[key := new_edge_map_reduce map_function finalize_fn]>
              (aggregators st)) st, true)
    | Some _ => (st, false)
    end.

(** [rmi.barrier()] has no effect on the members. *)
Definition aggregate_periodic (key : string) (seconds : Z)
    (st : distributed_aggregator) : distributed_aggregator * bool :=
  if seconds <? 0 then (st, false)
  else
    match aggregators st !! key with
    | None => (st, false)
    | Some _ =>
        (set_aggregate_period (<[key := seconds]> (aggregate_period st)) st,
         true)
    end.


(** [aggregate_period[key]]: [operator[]] of [std::map] inserts a
    default-constructed period for a key that is absent. *)
Definition period_at (key : string) (st : distributed_aggregator)
  : Z * distributed_aggregator :=
  match aggregate_period st !! key with
  | Some p => (p, st)
  | None => (0, set_aggregate_period (<[key := 0]> (aggregate_period st)) st)
  end.

(** *** The parallel region of [aggregate_now] *)

(** The team that runs [#pragma omp parallel]: its size, the thread to
    which [#pragma omp for] hands each iteration, and the order in which
    the threads pass the critical section.  Compiled without OpenMP the
    block runs once: [serial_team]. *)
Record omp_team : Type := {
  num_threads : nat;
  omp_for : nat -> nat;
  critical_order : list nat
}.

Definition serial_team : omp_team :=
  {| num_threads := 1; omp_for := fun _ => 0%nat; critical_order := [0%nat] |}.

(** A team is well formed when every iteration goes to one of its
    threads and every thread passes the critical section once. *)
Definition team_ok (team : omp_team) : Prop :=
  (forall i, omp_for team i < num_threads team)%nat /\
  Permutation (critical_order team) (seq 0 (num_threads team)).

(** [for (int i = 0; i < (int)graph.num_local_vertices(); ++i) body]. *)
Fixpoint for_each_local_vertex {S : Type}
    (body : nat -> local_vertex_type -> S -> S)
    (i : nat) (g : graph_type) (s : S) : S :=
  match g with
  | [] => s
  | lv :: g' => for_each_local_vertex body (Datatypes.S i) g' (body i lv s)
  end.

(** The body of the vertex loop, with the owner filter. *)
Definition map_owned_vertex (p : nat) (ctx : icontext_type)
    (lv : local_vertex_type) (mr : map_reduce_type) : map_reduce_type :=
  if (owner lv =? p)%nat then perform_map_vertex ctx (lv_vertex lv) mr else mr.

(** The body of the edge loop: [foreach] over the in-edges. *)
Definition map_in_edges (ctx : icontext_type) (lv : local_vertex_type)
    (mr : map_reduce_type) : map_reduce_type :=
  foldl (fun m e => perform_map_edge ctx e m) mr (in_edges lv).

(** What thread [t] of the team does inside the region: only the vertex
    loop is under [#pragma omp for]; the edge loop is run in full by every
    thread of the team. *)
Definition thread_body (team : omp_team) (t : nat) (mr : map_reduce_type)
    (st : distributed_aggregator) : map_reduce_type :=
  let localmr := clone_empty mr in
  if is_vertex_map localmr then
    for_each_local_vertex
      (fun i lv m =>
         if (omp_for team i =? t)%nat
         then map_owned_vertex (procid st) (context st) lv m
         else m)
      0%nat (graph st) localmr
  else
    for_each_local_vertex
      (fun _ lv m => map_in_edges (context st) lv m)
      0%nat (graph st) localmr.

(** The region: each thread folds its clone into [mr] in the critical
    section. *)
Definition parallel_region (team : omp_team) (mr : map_reduce_type)
    (st : distributed_aggregator) : map_reduce_type :=
  foldl (fun m t => add_accumulator (thread_body team t mr st) m) mr
        (critical_order team).

(** *** aggregate_now *)

(** What the collectives deliver to this machine: at the root, the
    entries of [gathervec] that the other machines filled; elsewhere, the
    value received by [rmi.broadcast]. *)
Record collective_in : Type := {
  gathervec : nat -> any;
  broadcast_val : any
}.

(** The first half of [aggregate_now], up to [gathervec[rmi.procid()]]:
    [ASSERT_MSG(false, ...)] for a key that is not registered, else the
    accumulator is cleared and the parallel region run. *)
Definition local_reduction (team : omp_team) (key : string)
    (st : distributed_aggregator) : outcome map_reduce_type :=
  match aggregators st !! key with
  | None => Fatal
  | Some mr => Done (parallel_region team (clear_accumulator mr) st)
  end.

(** Machine 0 adds the entries 1 .. numprocs-1 of [gathervec]; the others
    take the broadcast value. *)
Definition global_combine (cin : collective_in) (st : distributed_aggregator)
    (mr : map_reduce_type) : map_reduce_type :=
  if (procid st =? 0)%nat then
    foldl (fun m i => add_accumulator_any (gathervec cin i) m) mr
          (seq 1 (numprocs st - 1))
  else set_accumulator_any (broadcast_val cin) mr.

(** The finalizer runs on the combined sum, then the sum is cleared. *)
Definition aggregate_now (team : omp_team) (cin : collective_in)
    (key : string) (st : distributed_aggregator)
  : outcome distributed_aggregator :=
  mr ← local_reduction team key st;
  let mr := global_combine cin st mr in
  let ctx := finalize (context st) mr in
  let mr := clear_accumulator mr in
  Done (set_context ctx (set_aggregators (<[key := mr]> (aggregators st)) st)).

(** Modelled from the spec: the RPC collaborator's gather and broadcast
    (graphlab/rpc is not among the sources).  [rmi.gather(gathervec, 0)]
    hands machine 0 the local sum of every machine, and
    [rmi.broadcast(val, true)] hands every other machine the sum machine 0
    holds after combining.  [aggregate_now_all] is the collective call:
    every machine of the cluster [ms] (machine [p] at index [p]) calls
    [aggregate_now] with the same key. *)
Definition gathered (teams : nat -> omp_team) (key : string)
    (ms : list distributed_aggregator) (p : nat) : any :=
  match ms !! p with
  | Some st =>
      match local_reduction (teams p) key st with
      | Done mr => get_accumulator mr
      | _ => None
      end
  | None => None
  end.

Definition broadcast_from_root (teams : nat -> omp_team) (key : string)
    (ms : list distributed_aggregator) : any :=
  match ms !! 0%nat with
  | Some st =>
      match local_reduction (teams 0%nat) key st with
      | Done mr =>
          get_accumulator
            (global_combine
               {| gathervec := gathered teams key ms; broadcast_val := None |}
               st mr)
      | _ => None
      end
  | None => None
  end.

Definition aggregate_now_all (teams : nat -> omp_team) (key : string)
    (ms : list distributed_aggregator)
  : list (outcome distributed_aggregator) :=
  imap (fun p st =>
          aggregate_now (teams p)
            {| gathervec := gathered teams key ms;
               broadcast_val := broadcast_from_root teams key ms |}
            key st) ms.

(** The single-threaded reference: the fold of the map function over a
    list of elements, and the value a finalizer would be handed. *)
Definition reference_fold {A : Type} (f : A -> T) (l : list A) : T :=
  wrapper_value (wrapper_sum (f <$> l)).

(** The vertices a machine owns and the in-edges it stores. *)
Definition owned_vertices (st : distributed_aggregator) : list vertex_type :=
  lv_vertex <$> filter (fun lv => owner lv = procid st) (graph st).

Definition stored_in_edges (st : distributed_aggregator) : list edge_type :=
  graph st ≫= in_edges.

(** A cluster is a partitioning of the graph with vertices [V] and edges
    [E] when machine [p] sits at index [p], every vertex has one owner and
    every edge is an in-edge of one locally stored vertex. *)
Definition partitions (V : list vertex_type) (E : list edge_type)
    (ms : list distributed_aggregator) : Prop :=
  (forall p st, ms !! p = Some st ->
     procid st = p /\ numprocs st = length ms) /\
  ms ≫= owned_vertices ≡ₚ V /\
  ms ≫= stored_in_edges ≡ₚ E.

(** The owned vertices that [#pragma omp for] hands to thread [t], for
    the iterations from [i] on. *)
Fixpoint thread_vertices (team : omp_team) (t p i : nat) (g : graph_type)
  : list vertex_type :=
  match g with
  | [] => []
  | lv :: g' =>
      (if (omp_for team i =? t)%nat && (owner lv =? p)%nat
       then [lv_vertex lv] else [])
      ++ thread_vertices team t p (Datatypes.S i) g'
  end.

(** What the map function of a descriptor yields on the elements of one
    machine. *)
Definition mapped_elements (mr : map_reduce_type) (st : distributed_aggregator)
  : list T :=
  match map_fn mr with
  | map_vtx_function f => f (context st) <$> owned_vertices st
  | map_edge_function f => f (context st) <$> stored_in_edges st
  end.

(** The value [finalize] hands to the finalizer in [aggregate_now]: the
    member [value] of the sum after the global combine. *)
Definition delivered_value (team : omp_team) (cin : collective_in)
    (key : string) (st : distributed_aggregator) : outcome T :=
  mr ← local_reduction team key st;
  Done (wrapper_value (acc (global_combine cin st mr))).

Definition delivered_all (teams : nat -> omp_team) (key : string)
    (ms : list distributed_aggregator) : list (outcome T) :=
  imap (fun p st =>
          delivered_value (teams p)
            {| gathervec := gathered teams key ms;
               broadcast_val := broadcast_from_root teams key ms |}
            key st) ms.

(** Two machines that differ at most in what the accumulator of [key]
    holds. *)
Definition same_but_residue (key : string)
    (st1 st2 : distributed_aggregator) : Prop :=
  exists a, st2 = set_aggregators (alter (set_acc a) key (aggregators st1)) st1.

(** *** start and stop *)

Definition new_async_aggregator_state (n np : nat) (mr : map_reduce_type)
  : async_aggregator_state :=
  {| root_reducer := clone_empty mr;
     per_thread_aggregation := replicate n (clone_empty mr);
     local_count_down := to_int (Z.of_nat n);
     distributed_count_down := to_int (Z.of_nat np) |}.

(** The first loop of [start]: one push per entry of the period table.
    [std::map] is walked in key order and [map_to_list] in an order of its
    own; the entries pushed are the same. *)
Definition arm_schedule (periods : list (string * Z)) (q : mutable_queue)
  : mutable_queue :=
  foldl (fun q kp => mq_push kp.1 (- kp.2) q) q periods.

(** The second loop of [start]: [aggregators[key]] of a key that was never
    registered is a null pointer, and cloning it stops the process. *)
Definition arm_async_state (n np : nat) (reg : gmap string map_reduce_type)
    (periods : list (string * Z)) (m : gmap string async_aggregator_state)
  : outcome (gmap string async_aggregator_state) :=
  foldl (fun om kp =>
           m ← om;
           match reg !! kp.1 with
           | Some mr => Done (<[kp.1 := new_async_aggregator_state n np mr]> m)
           | None => Fatal
           end)
        (Done m) periods.

(** [now] is the reading of [timer::approx_time_seconds()]. *)
Definition start (n : nat) (now : Z) (st : distributed_aggregator)
  : outcome distributed_aggregator :=
  let periods := map_to_list (aggregate_period st) in
  let st := set_schedule (arm_schedule periods []) st in
  let st := set_start_time now st in
  let st := set_ncpus n st in
  if (0 <? n)%nat then
    m ← arm_async_state n (numprocs st) (aggregators st) periods (async_state st);
    Done (set_async_state m st)
  else Done st.

Definition stop (st : distributed_aggregator) : distributed_aggregator :=
  let st := set_schedule [] st in
  let st := set_aggregators (clear_accumulator <$> aggregators st) st in
  set_async_state ∅ st.

Definition get_all_periodic_keys (st : distributed_aggregator) : gset string :=
  dom (aggregate_period st).

(** *** Remote calls *)

(** [rmi.remote_call(target, &distributed_aggregator::f, args...)]: the
    target machine and the member it is asked to run. *)
Inductive rpc_call : Type :=
  | call_rpc_key_merge (key : string) (a : any)
  | call_rpc_perform_finalize (key : string) (acc_val : any)
  | call_decrement_finalize_counter (key : string)
  | call_rpc_schedule_key (key : string) (next_time : Z).

Definition remote_call : Type := nat * rpc_call.

(** [for (procid_t i = 1; i < rmi.numprocs(); ++i) rmi.remote_call(i, c)]. *)
Definition remote_call_others (st : distributed_aggregator) (c : rpc_call)
  : list remote_call :=
  (fun i => (i, c)) <$> seq 1 (numprocs st - 1).

Definition set_root_reducer (mr : map_reduce_type) (a : async_aggregator_state) :=
  {| root_reducer := mr;
     per_thread_aggregation := per_thread_aggregation a;
     local_count_down := local_count_down a;
     distributed_count_down := distributed_count_down a |}.

Definition set_per_thread_aggregation (l : list map_reduce_type)
    (a : async_aggregator_state) :=
  {| root_reducer := root_reducer a;
     per_thread_aggregation := l;
     local_count_down := local_count_down a;
     distributed_count_down := distributed_count_down a |}.

Definition set_local_count_down (z : Z) (a : async_aggregator_state) :=
  {| root_reducer := root_reducer a;
     per_thread_aggregation := per_thread_aggregation a;
     local_count_down := z;
     distributed_count_down := distributed_count_down a |}.

Definition set_distributed_count_down (z : Z) (a : async_aggregator_state) :=
  {| root_reducer := root_reducer a;
     per_thread_aggregation := per_thread_aggregation a;
     local_count_down := local_count_down a;
     distributed_count_down := z |}.

(** Writes through the iterator [iter->second]. *)
Definition put_async (key : string) (a : async_aggregator_state)
    (st : distributed_aggregator) : distributed_aggregator :=
  set_async_state (<[key := a]> (async_state st)) st.

(** *** The asynchronous driver *)

Definition rpc_schedule_key (key : string) (next_time : Z)
    (st : distributed_aggregator) : distributed_aggregator :=
  set_schedule (mq_push key (- next_time) (schedule st)) st.

(** [locked] is the result of [schedule_lock.try_lock()], [now] the clock
    reading.  The empty string is "no key to run". *)
Definition tick_asynchronous (locked : bool) (now : Z)
    (st : distributed_aggregator) : string * distributed_aggregator :=
  if negb locked then (EmptyString, st)
  else
    let curtime := now - start_time st in
    match mq_top (schedule st) with
    | Some (key, priority) =>
        if - priority <? curtime
        then (key, set_schedule (mq_pop (schedule st)) st)
        else (EmptyString, st)
    | None => (EmptyString, st)
    end.

(** A key without async state fails [ASSERT_MSG(iter != async_state.end())],
    here and in the four members below.  [now] is read from the clock only
    when the countdown reaches zero. *)
Definition decrement_finalize_counter (now : Z) (key : string)
    (st : distributed_aggregator)
  : outcome (distributed_aggregator * list remote_call) :=
  match async_state st !! key with
  | None => Fatal
  | Some a =>
      let countdown_val := atomic_dec (distributed_count_down a) in
      let a := set_distributed_count_down countdown_val a in
      let st := put_async key a st in
      if countdown_val =? 0 then
        let a := set_distributed_count_down (to_int (Z.of_nat (numprocs st))) a in
        let st := put_async key a st in
        let '(period, st) := period_at key st in
        let next_time := now + period - start_time st in
        let st := rpc_schedule_key key next_time st in
        Done (st, remote_call_others st (call_rpc_schedule_key key next_time))
      else Done (st, [])
  end.

(** Runs on machine 0 each time a machine has finished its local
    accumulation; at zero it finalizes and starts the second countdown. *)
Definition decrement_distributed_counter (now : Z) (key : string)
    (st : distributed_aggregator)
  : outcome (distributed_aggregator * list remote_call) :=
  assertion (procid st =? 0)%nat (
    match async_state st !! key with
    | None => Fatal
    | Some a =>
        let countdown_val := atomic_dec (distributed_count_down a) in
        let a := set_distributed_count_down countdown_val a in
        let st := put_async key a st in
        assertion (countdown_val <=? Z.of_nat (numprocs st)) (
        assertion (0 <=? countdown_val) (
        if countdown_val =? 0 then
          let acc_val := get_accumulator (root_reducer a) in
          let a := set_distributed_count_down (to_int (Z.of_nat (numprocs st))) a in
          let st := put_async key a st in
          let calls := remote_call_others st (call_rpc_perform_finalize key acc_val) in
          let st := set_context (finalize (context st) (root_reducer a)) st in
          let a := set_root_reducer (clear_accumulator (root_reducer a)) a in
          let st := put_async key a st in
          '(st, calls') ← decrement_finalize_counter now key st;
          Done (st, calls ++ calls')
        else Done (st, [])))
    end).

(** Called by the other machines with their accumulator for the key. *)
Definition rpc_key_merge (now : Z) (key : string) (a_in : any)
    (st : distributed_aggregator)
  : outcome (distributed_aggregator * list remote_call) :=
  match async_state st !! key with
  | None => Fatal
  | Some a =>
      let a := set_root_reducer (add_accumulator_any a_in (root_reducer a)) a in
      decrement_distributed_counter now key (put_async key a st)
  end.

(** Called from machine 0 on all other machines. *)
Definition rpc_perform_finalize (key : string) (acc_val : any)
    (st : distributed_aggregator)
  : outcome (distributed_aggregator * list remote_call) :=
  assertion (negb (procid st =? 0)%nat) (
    match async_state st !! key with
    | None => Fatal
    | Some a =>
        let root := set_accumulator_any acc_val (root_reducer a) in
        let st := set_context (finalize (context st) root) st in
        let a := set_root_reducer (clear_accumulator root) a in
        Done (put_async key a st, [(0%nat, call_decrement_finalize_counter key)])
    end).

(** [for (int i = cpuid; i < n; i += step) body]: the loop ends within
    [n] rounds unless [step] is zero. *)
Fixpoint stride_loop {S : Type} (fuel i step n : nat)
    (body : nat -> S -> S) (s : S) : outcome S :=
  if (n <=? i)%nat then Done s
  else
    match fuel with
    | O => NoReturn
    | Datatypes.S fuel' => stride_loop fuel' (i + step)%nat step n body (body i s)
    end.

(** [ASSERT_GT(per_thread_aggregation.size(), cpuid)] fails exactly when
    the vector has no entry [cpuid].  The reducer [localmr] is the object
    the vector points to, so what the loop adds stays in the vector until
    the countdown clears it. *)
Definition tick_asynchronous_compute (now : Z) (cpuid : nat) (key : string)
    (st : distributed_aggregator)
  : outcome (distributed_aggregator * list remote_call) :=
  match async_state st !! key with
  | None => Fatal
  | Some a =>
      match per_thread_aggregation a !! cpuid with
      | None => Fatal
      | Some localmr =>
          let n := length (graph st) in
          let body :=
            if is_vertex_map localmr then
              fun i m =>
                match graph st !! i with
                | Some lv => map_owned_vertex (procid st) (context st) lv m
                | None => m
                end
            else
              fun i m =>
                match graph st !! i with
                | Some lv => map_in_edges (context st) lv m
                | None => m
                end in
          localmr ← stride_loop n cpuid (ncpus st) n body localmr;
          let a :=
            set_per_thread_aggregation
              (<[cpuid := localmr]> (per_thread_aggregation a)) a in
          let a := set_root_reducer (add_accumulator localmr (root_reducer a)) a in
          let countdown_val := atomic_dec (local_count_down a) in
          let a := set_local_count_down countdown_val a in
          let st := put_async key a st in
          assertion (countdown_val <? Z.of_nat (ncpus st)) (
          assertion (0 <=? countdown_val) (
          if countdown_val =? 0 then
            let a :=
              set_per_thread_aggregation
                (clear_accumulator <$> per_thread_aggregation a) a in
            let a := set_local_count_down (to_int (Z.of_nat (ncpus st))) a in
            let st := put_async key a st in
            if negb (procid st =? 0)%nat then
              let acc_val := get_accumulator (root_reducer a) in
              let a := set_root_reducer (clear_accumulator (root_reducer a)) a in
              Done (put_async key a st, [(0%nat, call_rpc_key_merge key acc_val)])
            else decrement_distributed_counter now key st
          else Done (st, [])))
      end
  end.

(** *** The synchronous driver *)

(** [rmi.broadcast(x, is_root)]: the root keeps its value, the others
    receive the root's. *)
Definition broadcast {A : Type} (is_root : bool) (mine received : A) : A :=
  if is_root then mine else received.

(** What one round of the loop of [tick_synchronous] takes from its
    surroundings: the team and the collectives of [aggregate_now], the
    clock reading after it, and the [next_time] the root broadcasts. *)
Record tick_round : Type := {
  round_team : omp_team;
  round_collective : collective_in;
  round_now : Z;
  round_next_time : Z
}.

(** The clock reading on entry, the [curtime] the root broadcasts, and
    the rounds. *)
Record tick_env : Type := {
  entry_now : Z;
  entry_curtime : Z;
  rounds : nat -> tick_round
}.

(** The loop, from round [i] on; the keys handed to [aggregate_now] are
    collected in order. *)
Fixpoint tick_synchronous_loop (fuel : nat) (env : tick_env) (curtime : Z)
    (i : nat) (st : distributed_aggregator)
  : outcome (distributed_aggregator * list string) :=
  match mq_top (schedule st) with
  | None => Done (st, [])
  | Some (key, priority) =>
      if - priority <? curtime then
        match fuel with
        | O => NoReturn
        | Datatypes.S fuel' =>
            let r := rounds env i in
            st ← aggregate_now (round_team r) (round_collective r) key st;
            let st := set_schedule (mq_pop (schedule st)) st in
            let '(period, st) := period_at key st in
            let next_time := round_now r + period - start_time st in
            let next_time :=
              broadcast (procid st =? 0)%nat next_time (round_next_time r) in
            let st := set_schedule (mq_push key (- next_time) (schedule st)) st in
            '(st, keys) ← tick_synchronous_loop fuel' env curtime (Datatypes.S i) st;
            Done (st, key :: keys)
        end
      else Done (st, [])
  end.

(** The [curtime] that is frozen for the tick. *)
Definition tick_curtime (env : tick_env) (st : distributed_aggregator) : Z :=
  broadcast (procid st =? 0)%nat (entry_now env - start_time st)
            (entry_curtime env).

Definition tick_synchronous (fuel : nat) (env : tick_env)
    (st : distributed_aggregator)
  : outcome (distributed_aggregator * list string) :=
  tick_synchronous_loop fuel env (tick_curtime env st) 0%nat st.

(** The schedule entries that are due at [curtime], as the loop
    condition [-schedule.top().second < curtime] reads them. *)
Definition due (curtime : Z) (q : mutable_queue) : mutable_queue :=
  filter (fun e => - e.2 < curtime) q.

(** *** Calls during an engine run *)

(** One legal call between [start] and [stop]: a tick of either driver,
    an on-demand aggregation, or a remote call arriving from a peer.  A
    peer asks to schedule only keys that have a period. *)
Inductive engine_step : distributed_aggregator -> distributed_aggregator -> Prop :=
  | step_aggregate_now team cin key st st' :
      aggregate_now team cin key st = Done st' ->
      engine_step st st'
  | step_tick_synchronous fuel env st st' keys :
      tick_synchronous fuel env st = Done (st', keys) ->
      engine_step st st'
  | step_tick_asynchronous locked now st :
      engine_step st (tick_asynchronous locked now st).2
  | step_tick_asynchronous_compute now cpuid key st st' calls :
      tick_asynchronous_compute now cpuid key st = Done (st', calls) ->
      engine_step st st'
  | step_rpc_key_merge now key a st st' calls :
      rpc_key_merge now key a st = Done (st', calls) ->
      engine_step st st'
  | step_decrement_distributed_counter now key st st' calls :
      decrement_distributed_counter now key st = Done (st', calls) ->
      engine_step st st'
  | step_rpc_perform_finalize key a st st' calls :
      rpc_perform_finalize key a st = Done (st', calls) ->
      engine_step st st'
  | step_decrement_finalize_counter now key st st' calls :
      decrement_finalize_counter now key st = Done (st', calls) ->
      engine_step st st'
  | step_rpc_schedule_key key next_time st :
      is_Some (aggregate_period st !! key) ->
      engine_step st (rpc_schedule_key key next_time st).

(** The state of a machine that registered its reductions and periods but
    has not run: no schedule, no async state, every sum empty, and every
    periodic key registered with a period that is not negative
    ([aggregate_periodic] accepts no other). *)
Definition registered_only (st : distributed_aggregator) : Prop :=
  schedule st = [] /\ async_state st = ∅ /\
  (forall k mr, aggregators st !! k = Some mr -> acc mr = None) /\
  (forall k p, aggregate_period st !! k = Some p ->
     0 <= p /\ is_Some (aggregators st !! k)).

(** *** Invariants and derived notions used by the proofs *)

(** The clock does not run backwards during the tick: on the root every
    later reading is at least the one that fixed [curtime]; elsewhere the
    root's [next_time] is at least the root's [curtime]. *)
Definition clock_advances (env : tick_env) (curtime : Z)
    (st : distributed_aggregator) : Prop :=
  (procid st = 0%nat ->
     forall j, curtime + start_time st <= round_now (rounds env j)) /\
  (procid st <> 0%nat ->
     forall j, curtime <= round_next_time (rounds env j)).

(** The registrations of a machine, up to the contents of the sums: the
    descriptors [reg], the period table [per], the members [cfg] that are
    set once, and the fact that only periodic keys are scheduled or have
    async state. *)
Definition setup_inv (cfg : nat * nat * graph_type * nat * Z)
    (reg : gmap string map_reduce_type) (per : gmap string Z)
    (st : distributed_aggregator) : Prop :=
  clear_accumulator <$> aggregators st = reg /\
  aggregate_period st = per /\
  (procid st, numprocs st, graph st, ncpus st, start_time st) = cfg /\
  (forall k, k ∈ (schedule st).*1 -> is_Some (per !! k)) /\
  (forall k, is_Some (async_state st !! k) -> is_Some (per !! k)).

(** Between two calls, both countdowns of an entry are armed and the
    entry has one accumulator per thread. *)
Definition entry_ok (n np : nat) (a : async_aggregator_state) : Prop :=
  1 <= local_count_down a <= Z.of_nat n /\
  1 <= distributed_count_down a <= Z.of_nat np /\
  length (per_thread_aggregation a) = n.

(** [keys] all have async state, and every entry is armed. *)
Definition async_inv (n np : nat) (keys : gmap string Z)
    (st : distributed_aggregator) : Prop :=
  ncpus st = n /\ numprocs st = np /\
  (forall k, is_Some (keys !! k) -> is_Some (async_state st !! k)) /\
  (forall k a, async_state st !! k = Some a -> entry_ok n np a).

(** What a thread holds when it reaches the critical section. *)
Definition thread_elements (team : omp_team) (t : nat)
    (mr : map_reduce_type) (st : distributed_aggregator) : list T :=
  match map_fn mr with
  | map_vtx_function f =>
      f (context st) <$> thread_vertices team t (procid st) 0 (graph st)
  | map_edge_function f => f (context st) <$> stored_in_edges st
  end.

(** What a machine contributes: the mapped elements of its shard. *)
Definition machine_elements (key : string) (st : distributed_aggregator)
  : list T :=
  match aggregators st !! key with
  | Some mr => mapped_elements mr st
  | None => []
  end.

(** Every machine of the cluster holds the key, runs a well-formed team,
    and runs an edge reduction with one thread only. *)
Definition cluster_ready (teams : nat -> omp_team) (key : string)
    (ms : list distributed_aggregator) : Prop :=
  forall p st, ms !! p = Some st ->
    procid st = p /\ numprocs st = length ms /\
    team_ok (teams p) /\
    exists mr, aggregators st !! key = Some mr /\
               (is_vertex_map mr = true \/ num_threads (teams p) = 1%nat).

(** *** aggregate_all_periodic *)

(** The loop of [aggregate_all_periodic] over the keys of the period
    table: one [aggregate_now] per key.  The [i]-th call takes its team and
    what the collectives deliver from [env i]. *)
Fixpoint aggregate_each (env : nat -> omp_team * collective_in) (i : nat)
    (keys : list string) (st : distributed_aggregator)
  : outcome distributed_aggregator :=
  match keys with
  | [] => Done st
  | key :: keys' =>
      st ← aggregate_now (env i).1 (env i).2 key st;
      aggregate_each env (Datatypes.S i) keys' st
  end.

Definition aggregate_all_periodic (env : nat -> omp_team * collective_in)
    (st : distributed_aggregator) : outcome distributed_aggregator :=
  aggregate_each env 0%nat (map_to_list (aggregate_period st)).*1 st.

(** *** Calls by kind *)

(** A registration call: [add_vertex_aggregator], [add_edge_aggregator]
    or [aggregate_periodic], whatever it returns. *)
Inductive registration_step
  : distributed_aggregator -> distributed_aggregator -> Prop :=
  | reg_add_vertex_aggregator key f fin st :
      registration_step st (add_vertex_aggregator key f fin st).1
  | reg_add_edge_aggregator key f fin st :
      registration_step st (add_edge_aggregator key f fin st).1
  | reg_aggregate_periodic key seconds st :
      registration_step st (aggregate_periodic key seconds st).1.

(** A call of the asynchronous driver for [key] that returns: the state
    it leaves and the remote calls it sends. *)
Inductive async_call (key : string)
  : distributed_aggregator -> distributed_aggregator -> list remote_call -> Prop :=
  | via_tick_asynchronous_compute now cpuid st st' calls :
      tick_asynchronous_compute now cpuid key st = Done (st', calls) ->
      async_call key st st' calls
  | via_rpc_key_merge now a st st' calls :
      rpc_key_merge now key a st = Done (st', calls) ->
      async_call key st st' calls
  | via_decrement_distributed_counter now st st' calls :
      decrement_distributed_counter now key st = Done (st', calls) ->
      async_call key st st' calls
  | via_rpc_perform_finalize a st st' calls :
      rpc_perform_finalize key a st = Done (st', calls) ->
      async_call key st st' calls
  | via_decrement_finalize_counter now st st' calls :
      decrement_finalize_counter now key st = Done (st', calls) ->
      async_call key st st' calls
  | via_rpc_schedule_key next_time st :
      async_call key st (rpc_schedule_key key next_time st) [].

(** Any call of the class that returns. *)
Inductive api_step : distributed_aggregator -> distributed_aggregator -> Prop :=
  | api_registration st st' : registration_step st st' -> api_step st st'
  | api_start n now st st' : start n now st = Done st' -> api_step st st'
  | api_stop st : api_step st (stop st)
  | api_aggregate_now team cin key st st' :
      aggregate_now team cin key st = Done st' -> api_step st st'
  | api_aggregate_all_periodic env st st' :
      aggregate_all_periodic env st = Done st' -> api_step st st'
  | api_tick_synchronous fuel env st st' keys :
      tick_synchronous fuel env st = Done (st', keys) -> api_step st st'
  | api_tick_asynchronous locked now st :
      api_step st (tick_asynchronous locked now st).2
  | api_async_call key st st' calls :
      async_call key st st' calls -> api_step st st'.

(** *** Notions used by the further properties *)

(** The key a remote call is about. *)
Definition call_key (c : rpc_call) : string :=
  match c with
  | call_rpc_key_merge key _ => key
  | call_rpc_perform_finalize key _ => key
  | call_decrement_finalize_counter key => key
  | call_rpc_schedule_key key _ => key
  end.

(** [st'] differs from [st] at most in what belongs to [key]: its async
    state, its period, schedule entries for it that were added, and the
    context, on which finalizers act. *)
Definition differs_only_at (key : string)
    (st st' : distributed_aggregator) : Prop :=
  aggregators st' = aggregators st /\
  (procid st', numprocs st', graph st', ncpus st', start_time st')
    = (procid st, numprocs st, graph st, ncpus st, start_time st) /\
  (forall k, k <> key -> async_state st' !! k = async_state st !! k) /\
  (is_Some (async_state st !! key) -> is_Some (async_state st' !! key)) /\
  (forall k, k <> key -> aggregate_period st' !! k = aggregate_period st !! k) /\
  (forall e, e ∈ schedule st' -> e ∈ schedule st \/ e.1 = key) /\
  (forall e, e ∈ schedule st -> e ∈ schedule st').

(** What reaches the countdown of machine 0 for a key: the accumulator
    of another machine through [rpc_key_merge], or the completion of its own
    threads through [decrement_distributed_counter]. *)
Fixpoint collect (now : Z) (key : string) (events : list (option any))
    (st : distributed_aggregator)
  : outcome (distributed_aggregator * list remote_call) :=
  match events with
  | [] => Done (st, [])
  | e :: events' =>
      '(st, calls) ←
        match e with
        | Some a => rpc_key_merge now key a st
        | None => decrement_distributed_counter now key st
        end;
      '(st, calls') ← collect now key events' st;
      Done (st, calls ++ calls')
  end.

(** The [next_time] of round [i] of a synchronous tick for [key], as the
    machine [st] pushes it: computed from its clock on machine 0, received
    from machine 0 elsewhere. *)
Definition next_fire_time (env : tick_env) (st : distributed_aggregator)
    (i : nat) (key : string) : Z :=
  broadcast (procid st =? 0)%nat
    (round_now (rounds env i) + default 0 (aggregate_period st !! key)
     - start_time st)
    (round_next_time (rounds env i)).

(** *** A round of the asynchronous driver on one machine *)

(** What the map function of [mr] yields on one local vertex: the vertex
    itself if this machine owns it, or its in-edges. *)
Definition lv_elements (mr : map_reduce_type) (st : distributed_aggregator)
    (lv : local_vertex_type) : list T :=
  match map_fn mr with
  | map_vtx_function f =>
      if (owner lv =? procid st)%nat then [f (context st) (lv_vertex lv)] else []
  | map_edge_function f => f (context st) <$> in_edges lv
  end.

(** The indices [cpuid], [cpuid + step], ... below [len]. *)
Definition stride_indices (step cpuid len : nat) : list nat :=
  filter (fun j => (j mod step)%nat = cpuid) (seq 0 len).

(** What thread [cpuid] of [step] threads maps in
    [tick_asynchronous_compute]. *)
Definition thread_share (mr : map_reduce_type) (st : distributed_aggregator)
    (step cpuid : nat) : list T :=
  stride_indices step cpuid (length (graph st)) ≫=
    fun j => from_option (lv_elements mr st) [] (graph st !! j).

(** The threads of one machine call [tick_asynchronous_compute] for
    [key] one after the other, thread [cpuid] with the clock reading
    [now cpuid], in the order [order]. *)
Fixpoint compute_round (now : nat -> Z) (order : list nat) (key : string)
    (st : distributed_aggregator)
  : outcome (distributed_aggregator * list remote_call) :=
  match order with
  | [] => Done (st, [])
  | cpuid :: order' =>
      '(st, calls) ← tick_asynchronous_compute (now cpuid) cpuid key st;
      '(st, calls') ← compute_round now order' key st;
      Done (st, calls ++ calls')
  end.

(** What a round leaves in an empty root reducer: the sums of the
    threads, added by [add_accumulator] in the order in which the threads
    finish. *)
Definition round_sum (mr : map_reduce_type) (st : distributed_aggregator)
    (order : list nat) : any :=
  foldl (fun r c =>
           wrapper_add r (wrapper_sum (thread_share mr st (ncpus st) c)))
        None order.

(** Every descriptor of [st] is still registered in [st'], with the same
    map function and finalizer. *)
Definition registry_kept (st st' : distributed_aggregator) : Prop :=
  forall k mr, aggregators st !! k = Some mr ->
    exists mr', aggregators st' !! k = Some mr' /\
                clear_accumulator mr' = clear_accumulator mr.

End Model.

(** ** A small cluster to run the model on *)

Module Example.

#[global] Instance Z_summable : Summable Z :=
  {| sum_add := Z.add; sum_default := 0 |}.

(** The context is the list of the values the finalizers were handed,
    latest first. *)
Definition record_value (c : list Z) (x : Z) : list Z := x :: c.

Definition vertex_value (_ : list Z) (v : Z) : Z := v.

Definition count_edge (_ : list Z) (_ : nat) : Z := 1.

(** One vertex of value 7 with a single in-edge, owned by machine 0. *)
Definition shard : list (@local_vertex_type Z nat) :=
  [ {| owner := 0; lv_vertex := 7; in_edges := [0%nat] |} ].

Definition fresh : @distributed_aggregator Z Z nat (list Z) :=
  new_distributed_aggregator 0 1 shard [] 0.

(** [add_vertex_aggregator("sum")], [add_edge_aggregator("ec")], then
    [aggregate_periodic("sum", 0)]. *)
Definition registered : @distributed_aggregator Z Z nat (list Z) :=
  (aggregate_periodic "sum" 0
     (add_edge_aggregator "ec" count_edge record_value
        (add_vertex_aggregator "sum" vertex_value record_value fresh).1).1).1.

(** A team of two threads; [#pragma omp for] alternates between them. *)
Definition two_threads : omp_team :=
  {| num_threads := 2; omp_for := fun i => (i mod 2)%nat;
     critical_order := [0%nat; 1%nat] |}.

Definition no_collective : @collective_in Z :=
  {| gathervec := fun _ => None; broadcast_val := None |}.

(** A tick whose clock still reads the time at which [start] ran. *)
Definition still_clock : @tick_env Z :=
  {| entry_now := 0; entry_curtime := 0;
     rounds := fun _ =>
       {| round_team := serial_team; round_collective := no_collective;
          round_now := 0; round_next_time := 0 |} |}.

(** A tick one clock unit later. *)
Definition later_clock : @tick_env Z :=
  {| entry_now := 1; entry_curtime := 1;
     rounds := fun _ =>
       {| round_team := serial_team; round_collective := no_collective;
          round_now := 1; round_next_time := 1 |} |}.

(** [registered] after [start(0)] and after [start(2)] at clock 0. *)
Definition armed : @distributed_aggregator Z Z nat (list Z) :=
  match start 0 0 registered with
  | Done st => st
  | _ => registered
  end.

Definition armed_two_cpus : @distributed_aggregator Z Z nat (list Z) :=
  match start 2 0 registered with
  | Done st => st
  | _ => registered
  end.

(** [armed_two_cpus] after thread 0 ran [tick_asynchronous_compute]. *)
Definition after_compute : @distributed_aggregator Z Z nat (list Z) :=
  match tick_asynchronous_compute 5 0 "sum" armed_two_cpus with
  | Done (st, _) => st
  | _ => armed_two_cpus
  end.

(** [after_compute] after thread 1 ran [tick_asynchronous_compute] at
    clock 6: the round is complete, the finalizer has run and the key is
    scheduled again. *)
Definition after_round : @distributed_aggregator Z Z nat (list Z) :=
  match tick_asynchronous_compute 6 1 "sum" after_compute with
  | Done (st, _) => st
  | _ => after_compute
  end.

(** [armed] after a tick one clock unit later. *)
Definition after_tick : @distributed_aggregator Z Z nat (list Z) :=
  match tick_synchronous 1 later_clock armed with
  | Done (st, _) => st
  | _ => armed
  end.

(** [registered] with a sum left over in the accumulator of "sum". *)
Definition with_residue : @distributed_aggregator Z Z nat (list Z) :=
  set_aggregators (alter (set_acc (Some 5)) "sum" (aggregators registered))
                  registered.

(** One machine with the vertices 1 .. 5, and a team of four threads
    that pass the critical section out of order. *)
Definition five_vertices : @distributed_aggregator Z Z nat (list Z) :=
  (add_vertex_aggregator "sum" vertex_value record_value
     (new_distributed_aggregator 0 1
        ((fun v => {| owner := 0; lv_vertex := v; in_edges := [] |})
           <$> [1; 2; 3; 4; 5]) [] 0)).1.

Definition four_threads : omp_team :=
  {| num_threads := 4; omp_for := fun i => (i mod 4)%nat;
     critical_order := [2%nat; 0%nat; 3%nat; 1%nat] |}.

(** Three machines that all store the vertex of value 7 owned by
    machine 1. *)
Definition ghost_holder (p : nat) : @distributed_aggregator Z Z nat (list Z) :=
  (add_vertex_aggregator "sum" vertex_value record_value
     (new_distributed_aggregator p 3
        [ {| owner := 1; lv_vertex := 7; in_edges := [] |} ] [] 0)).1.

Definition ghost_cluster : list (@distributed_aggregator Z Z nat (list Z)) :=
  [ghost_holder 0; ghost_holder 1; ghost_holder 2].

(** [registered] after [aggregate_now("sum")] run by one thread. *)
Definition after_now : @distributed_aggregator Z Z nat (list Z) :=
  match aggregate_now serial_team no_collective "sum" registered with
  | Done st => st
  | _ => registered
  end.

(** Three local vertices with three in-edges between them; machine 1 owns
    the first and the last. *)
Definition three_vertices : list (@local_vertex_type Z nat) :=
  [ {| owner := 1; lv_vertex := 4; in_edges := [0%nat; 1%nat] |};
    {| owner := 0; lv_vertex := 5; in_edges := [2%nat] |};
    {| owner := 1; lv_vertex := 6; in_edges := [] |} ].

(** Machine [p] of two, with the edge count "ec" registered for every 3
    clock units and started with two threads at clock 0. *)
Definition edge_counter (p : nat) : @distributed_aggregator Z Z nat (list Z) :=
  match start 2 0
          (aggregate_periodic "ec" 3
             (add_edge_aggregator "ec" count_edge record_value
                (new_distributed_aggregator p 2 three_vertices [] 0)).1).1 with
  | Done st => st
  | _ => fresh
  end.

Definition coordinator : @distributed_aggregator Z Z nat (list Z) :=
  edge_counter 0.

Definition worker : @distributed_aggregator Z Z nat (list Z) :=
  edge_counter 1.

End Example.

(** ** Properties *)

Section Properties.

Context {T : Type} `{Summable T}.
Context {vertex_type edge_type icontext_type : Type}.

Abbreviation machine := (@distributed_aggregator T vertex_type edge_type icontext_type).
Abbreviation reducer := (@map_reduce_type T vertex_type edge_type icontext_type).

Implicit Types (st : machine) (mr : reducer) (key : string).

(** *** Registration *)

(** C2.  [add_vertex_aggregator] and [add_edge_aggregator] return true
    exactly when the key is a non-empty string that the registry does not
    hold yet; when they return false nothing has changed, and when they
    return true only the new descriptor was added. *)
Theorem add_aggregator_result key
    (fv : icontext_type -> vertex_type -> T)
    (fe : icontext_type -> edge_type -> T)
    (fin : icontext_type -> T -> icontext_type) st :
  ((add_vertex_aggregator key fv fin st).2 = true <->
     key <> EmptyString /\ aggregators st !! key = None) /\
  (add_vertex_aggregator key fv fin st).1 =
    (if (add_vertex_aggregator key fv fin st).2
     then set_aggregators
            (<[key := new_vertex_map_reduce fv fin]> (aggregators st)) st
     else st) /\
  ((add_edge_aggregator key fe fin st).2 = true <->
     key <> EmptyString /\ aggregators st !! key = None) /\
  (add_edge_aggregator key fe fin st).1 =
    (if (add_edge_aggregator key fe fin st).2
     then set_aggregators
            (<[key := new_edge_map_reduce fe fin]> (aggregators st)) st
     else st).
Proof.
  unfold add_vertex_aggregator, add_edge_aggregator.
  destruct key as [|c key']; simpl.
  - repeat split; try done; intros [? _]; done.
  - destruct (aggregators st !! String c key') eqn:E; simpl;
      repeat split; try done; intros [_ ?]; done.
Qed.

(** *** Unknown keys *)

(** C7.  [aggregate_now] on a key that the registry does not hold, and
    [tick_asynchronous_compute] on a key that has no async state, end in
    the fatal assertion; neither returns. *)
Theorem unknown_key_is_fatal team cin now cpuid key st :
  (aggregators st !! key = None ->
     aggregate_now team cin key st = Fatal) /\
  (async_state st !! key = None ->
     tick_asynchronous_compute now cpuid key st = Fatal).
Proof.
  split; intros Hnone.
  - unfold aggregate_now, local_reduction. by rewrite Hnone.
  - unfold tick_asynchronous_compute. by rewrite Hnone.
Qed.

(** *** Integers *)

Lemma to_int_small z : - 2147483648 <= z <= INT_MAX -> to_int z = z.
Proof.
  unfold to_int, INT_MAX. intros Hz.
  rewrite Z.mod_small; lia.
Qed.

Lemma atomic_dec_small z : - 2147483647 <= z <= INT_MAX -> atomic_dec z = z - 1.
Proof.
  unfold atomic_dec, INT_MAX. intros Hz. apply to_int_small. unfold INT_MAX. lia.
Qed.

(** *** The strided loop of tick_asynchronous_compute *)

(** With a stride of at least one the loop returns within the fuel
    [tick_asynchronous_compute] gives it. *)
Lemma stride_loop_returns {S : Type} (fuel step n : nat)
    (body : nat -> S -> S) :
  (0 < step)%nat ->
  forall i (s : S), (n <= i + fuel)%nat ->
    exists s', stride_loop fuel i step n body s = Done s'.
Proof.
  intros Hstep. induction fuel as [|fuel IH]; intros i s Hfuel; simpl.
  - rewrite (proj2 (Nat.leb_le n i)) by lia. by eexists.
  - destruct (n <=? i)%nat; [by eexists|]. apply IH. lia.
Qed.

(** *** Rescheduling in the asynchronous driver *)

Lemma elem_of_remote_call_others st (c : @rpc_call T) i :
  (i, c) ∈ remote_call_others st c <-> (1 <= i < numprocs st)%nat.
Proof.
  unfold remote_call_others. rewrite list_elem_of_fmap. split.
  - intros (j & Heq & Hj). inversion Heq; subst.
    apply elem_of_seq in Hj. lia.
  - intros Hi. exists i. split; [done|]. apply elem_of_seq. lia.
Qed.

(** C5.  When the finalize-acknowledge countdown of a key reaches zero
    (it stood at one), [decrement_finalize_counter] resets the distributed
    countdown to the number of machines and computes [next_time] as the
    clock reading plus the period, taken from [start_time].  It pushes the
    key with that time on its own schedule and sends [rpc_schedule_key] to
    each machine 1 .. numprocs-1 and to no other; a machine that runs the
    call pushes the same entry on its schedule. *)
Theorem finalize_countdown_zero_reschedules now key period st a :
  async_state st !! key = Some a ->
  aggregate_period st !! key = Some period ->
  distributed_count_down a = 1 ->
  Z.of_nat (numprocs st) <= INT_MAX ->
  let next_time := now + period - start_time st in
  exists st' calls a',
    decrement_finalize_counter now key st = Done (st', calls) /\
    async_state st' !! key = Some a' /\
    distributed_count_down a' = Z.of_nat (numprocs st) /\
    schedule st' = mq_push key (- next_time) (schedule st) /\
    calls = (fun i => (i, call_rpc_schedule_key key next_time))
              <$> seq 1 (numprocs st - 1) /\
    (forall i, (1 <= i < numprocs st)%nat ->
       (i, call_rpc_schedule_key key next_time) ∈ calls) /\
    (forall peer : machine,
       schedule (rpc_schedule_key key next_time peer) =
         (key, - next_time) :: schedule peer).
Proof.
  intros Ha Hp Hone Hnp next_time.
  unfold decrement_finalize_counter. rewrite Ha, Hone.
  change (atomic_dec 1) with 0. simpl.
  unfold period_at. simpl. rewrite Hp. simpl.
  eexists _, _, _. split; [reflexivity|]. simpl.
  rewrite insert_insert_eq, lookup_insert_eq.
  split; [reflexivity|]. simpl.
  split; [apply to_int_small; unfold INT_MAX in *; lia|].
  split; [reflexivity|].
  split; [reflexivity|].
  split; [|reflexivity].
  intros i Hi.
  apply (elem_of_remote_call_others st (call_rpc_schedule_key key next_time) i).
  done.
Qed.

(** *** aggregate_now and the residue of the accumulator *)

Lemma clear_accumulator_set_acc a mr :
  clear_accumulator (set_acc a mr) = clear_accumulator mr.
Proof. reflexivity. Qed.

Lemma local_reduction_residue team key st1 st2 :
  same_but_residue key st1 st2 ->
  local_reduction team key st2 = local_reduction team key st1.
Proof.
  intros [a ->]. unfold local_reduction. simpl.
  rewrite lookup_alter_eq.
  destruct (aggregators st1 !! key) as [mr|]; simpl; [|done].
  reflexivity.
Qed.

Lemma global_combine_ext (c1 c2 : @collective_in T) st1 st2 mr :
  procid st1 = procid st2 -> numprocs st1 = numprocs st2 ->
  (forall i, gathervec c1 i = gathervec c2 i) ->
  broadcast_val c1 = broadcast_val c2 ->
  global_combine c1 st1 mr = global_combine c2 st2 mr.
Proof.
  intros Hp Hn Hg Hb. unfold global_combine. rewrite Hp, Hn, Hb.
  destruct (procid st2 =? 0)%nat; [|done].
  generalize (seq 1 (numprocs st2 - 1)). intros l. revert mr.
  induction l as [|i l IH]; intros mr; simpl; [done|].
  by rewrite Hg, IH.
Qed.

Lemma aggregate_now_residue team (c1 c2 : @collective_in T) key st1 st2 :
  same_but_residue key st1 st2 ->
  (forall i, gathervec c1 i = gathervec c2 i) ->
  broadcast_val c1 = broadcast_val c2 ->
  aggregate_now team c1 key st1 = aggregate_now team c2 key st2 /\
  delivered_value team c1 key st1 = delivered_value team c2 key st2.
Proof.
  intros Hres Hg Hb. unfold aggregate_now, delivered_value.
  rewrite (local_reduction_residue team key st1 st2 Hres).
  destruct Hres as [a ->].
  destruct (local_reduction team key st1) as [mr| |]; simpl; [|done..].
  rewrite (global_combine_ext c1 c2 st1
             (set_aggregators (alter (set_acc a) key (aggregators st1)) st1) mr)
    by done.
  split; [|done].
  f_equal. unfold set_context, set_aggregators. simpl. f_equal.
  apply map_eq. intros k. destruct (decide (k = key)) as [->|Hne].
  - by rewrite !lookup_insert_eq.
  - by rewrite !lookup_insert_ne, lookup_alter_ne.
Qed.

Lemma Forall2_lookup_None_l {A B} (P : A -> B -> Prop) (l : list A)
    (k : list B) (i : nat) :
  Forall2 P l k -> l !! i = None -> k !! i = None.
Proof.
  intros Hall Hl. apply lookup_ge_None. apply lookup_ge_None in Hl.
  by rewrite <- (Forall2_length _ _ _ Hall).
Qed.

Lemma gathered_residue teams key (ms1 ms2 : list machine) p :
  Forall2 (same_but_residue key) ms1 ms2 ->
  gathered teams key ms1 p = gathered teams key ms2 p.
Proof.
  intros Hall. unfold gathered.
  destruct (ms1 !! p) as [st1|] eqn:E1.
  - destruct (Forall2_lookup_l _ _ _ _ _ Hall E1) as (st2 & E2 & Hres).
    rewrite E2. by rewrite (local_reduction_residue _ _ _ _ Hres).
  - rewrite (Forall2_lookup_None_l _ _ _ p Hall) ; [done|]. done.
Qed.

Lemma same_but_residue_rmi key st1 st2 :
  same_but_residue key st1 st2 ->
  procid st1 = procid st2 /\ numprocs st1 = numprocs st2.
Proof. by intros [a ->]. Qed.

Lemma broadcast_from_root_residue teams key (ms1 ms2 : list machine) :
  Forall2 (same_but_residue key) ms1 ms2 ->
  broadcast_from_root teams key ms1 = broadcast_from_root teams key ms2.
Proof.
  intros Hall. unfold broadcast_from_root.
  destruct (ms1 !! 0%nat) as [st1|] eqn:E1.
  - destruct (Forall2_lookup_l _ _ _ _ _ Hall E1) as (st2 & E2 & Hres).
    rewrite E2, (local_reduction_residue _ _ _ _ Hres).
    destruct (local_reduction (teams 0%nat) key st1) as [mr| |]; [|done..].
    destruct (same_but_residue_rmi _ _ _ Hres) as [Hp Hn].
    f_equal. apply global_combine_ext; simpl; try done.
    intros i. by apply gathered_residue.
  - by rewrite (Forall2_lookup_None_l _ _ _ 0%nat Hall).
Qed.

Lemma aggregate_now_clears team cin key st st' :
  aggregate_now team cin key st = Done st' ->
  exists mr, aggregators st' !! key = Some mr /\ acc mr = None.
Proof.
  unfold aggregate_now. destruct (local_reduction team key st) as [mr| |];
    simpl; [|done..].
  intros [= <-]. simpl. rewrite lookup_insert_eq. by eexists.
Qed.

(** C10.  [aggregate_now] clears the accumulator of the key before the
    parallel fold and after [finalize]: two collective calls on clusters
    that differ only in what the accumulators of the key held beforehand
    hand the same value to the finalizer on every machine and leave the
    same state behind, in which the accumulator of the key is empty. *)
Theorem aggregate_now_forgets_residue teams key (ms1 ms2 : list machine) :
  Forall2 (same_but_residue key) ms1 ms2 ->
  delivered_all teams key ms1 = delivered_all teams key ms2 /\
  aggregate_now_all teams key ms1 = aggregate_now_all teams key ms2 /\
  (forall p st', aggregate_now_all teams key ms1 !! p = Some (Done st') ->
     exists mr, aggregators st' !! key = Some mr /\ acc mr = None).
Proof.
  intros Hall.
  assert (Hpt : forall p st1, ms1 !! p = Some st1 ->
            exists st2, ms2 !! p = Some st2 /\
              aggregate_now (teams p)
                {| gathervec := gathered teams key ms1;
                   broadcast_val := broadcast_from_root teams key ms1 |} key st1 =
              aggregate_now (teams p)
                {| gathervec := gathered teams key ms2;
                   broadcast_val := broadcast_from_root teams key ms2 |} key st2 /\
              delivered_value (teams p)
                {| gathervec := gathered teams key ms1;
                   broadcast_val := broadcast_from_root teams key ms1 |} key st1 =
              delivered_value (teams p)
                {| gathervec := gathered teams key ms2;
                   broadcast_val := broadcast_from_root teams key ms2 |} key st2).
  { intros p st1 E1.
    destruct (Forall2_lookup_l _ _ _ _ _ Hall E1) as (st2 & E2 & Hres).
    exists st2. split; [done|].
    apply aggregate_now_residue; simpl; [done| |].
    - intros i. by apply gathered_residue.
    - by apply broadcast_from_root_residue. }
  split; [|split].
  - apply list_eq. intros p. unfold delivered_all. rewrite !list_lookup_imap.
    destruct (ms1 !! p) as [st1|] eqn:E1; simpl.
    + destruct (Hpt p st1 E1) as (st2 & -> & _ & Hd). simpl. by rewrite Hd.
    + by rewrite (Forall2_lookup_None_l _ _ _ p Hall).
  - apply list_eq. intros p. unfold aggregate_now_all. rewrite !list_lookup_imap.
    destruct (ms1 !! p) as [st1|] eqn:E1; simpl.
    + destruct (Hpt p st1 E1) as (st2 & -> & Ha & _). simpl. by rewrite Ha.
    + by rewrite (Forall2_lookup_None_l _ _ _ p Hall).
  - intros p st'. unfold aggregate_now_all. rewrite list_lookup_imap.
    destruct (ms1 !! p) as [st1|]; simpl; [|done].
    intros [= Hd]. by eapply aggregate_now_clears.
Qed.

(** *** The schedule *)

Lemma mq_top_None (q : mutable_queue) : mq_top q = None -> q = [].
Proof.
  destruct q as [|x q]; [done|]. simpl.
  destruct (mq_top q) as [y|]; [|done].
  by destruct (x.2 <? y.2).
Qed.

Lemma mq_top_elem (q : mutable_queue) x : mq_top q = Some x -> x ∈ q.
Proof.
  revert x. induction q as [|y q IH]; intros x; simpl; [done|].
  destruct (mq_top q) as [z|].
  - destruct (y.2 <? z.2); intros [= <-].
    + apply list_elem_of_further. by apply IH.
    + apply list_elem_of_here.
  - intros [= <-]. apply list_elem_of_here.
Qed.

Lemma mq_top_max (q : mutable_queue) x y :
  mq_top q = Some x -> y ∈ q -> y.2 <= x.2.
Proof.
  revert x. induction q as [|z q IH]; intros x; simpl; [by intros _ ?%elem_of_nil|].
  destruct (mq_top q) as [w|] eqn:Etop.
  - destruct (z.2 <? w.2) eqn:Elt; intros [= <-] Hin;
      apply elem_of_cons in Hin as [->|Hin].
    + apply Z.ltb_lt in Elt. lia.
    + by apply IH.
    + lia.
    + apply Z.ltb_ge in Elt. specialize (IH w eq_refl Hin). lia.
  - apply mq_top_None in Etop. subst q.
    intros [= <-] Hin. apply list_elem_of_singleton in Hin. subst. lia.
Qed.

Lemma mq_pop_Permutation (q : mutable_queue) x :
  mq_top q = Some x -> q ≡ₚ x :: mq_pop q.
Proof.
  revert x. induction q as [|z q IH]; intros x; simpl; [done|].
  destruct (mq_top q) as [w|] eqn:Etop.
  - destruct (z.2 <? w.2); intros [= <-].
    + rewrite (IH w eq_refl) at 1. apply perm_swap.
    + done.
  - intros [= <-]. done.
Qed.

Lemma due_push_later (curtime t : Z) key (q : mutable_queue) :
  curtime <= t -> due curtime (mq_push key (- t) q) = due curtime q.
Proof.
  intros Ht. unfold due, mq_push. apply filter_cons_False. simpl. lia.
Qed.

#[local] Arguments due : simpl never.
#[local] Arguments mq_push : simpl never.

Lemma due_nil_of_top (curtime : Z) (q : mutable_queue) x :
  mq_top q = Some x -> curtime <= - x.2 -> due curtime q = [].
Proof.
  intros Htop Hx. unfold due.
  destruct (filter (λ e : string * Z, - e.2 < curtime) q) as [|y l] eqn:E; [done|].
  assert (Hy : y ∈ filter (λ e : string * Z, - e.2 < curtime) q)
    by (rewrite E; apply list_elem_of_here).
  apply list_elem_of_filter in Hy as [Hlt Hin].
  pose proof (mq_top_max q x y Htop Hin). lia.
Qed.

Lemma due_pop (curtime : Z) (q : mutable_queue) x :
  mq_top q = Some x -> - x.2 < curtime ->
  due curtime q ≡ₚ x :: due curtime (mq_pop q).
Proof.
  intros Htop Hx. unfold due.
  transitivity (filter (λ e : string * Z, - e.2 < curtime) (x :: mq_pop q)).
  - apply filter_Permutation. by apply mq_pop_Permutation.
  - by rewrite filter_cons_True.
Qed.

(** *** What aggregate_now leaves behind *)

Lemma clear_foldl_set_acc {A} (f : reducer -> A -> reducer) (l : list A) mr :
  (forall m x, clear_accumulator (f m x) = clear_accumulator m) ->
  clear_accumulator (foldl f mr l) = clear_accumulator mr.
Proof.
  intros Hf. revert mr. induction l as [|x l IH]; intros mr; simpl; [done|].
  by rewrite IH, Hf.
Qed.

Lemma clear_parallel_region team mr st :
  clear_accumulator (parallel_region team mr st) = clear_accumulator mr.
Proof. unfold parallel_region. by apply clear_foldl_set_acc. Qed.

Lemma clear_global_combine (cin : @collective_in T) st mr :
  clear_accumulator (global_combine cin st mr) = clear_accumulator mr.
Proof.
  unfold global_combine. destruct (procid st =? 0)%nat; [|done].
  by apply clear_foldl_set_acc.
Qed.

Lemma aggregate_now_inv team cin key st st' :
  aggregate_now team cin key st = Done st' ->
  exists mr c,
    aggregators st !! key = Some mr /\
    st' = set_context c
            (set_aggregators (<[key := clear_accumulator mr]> (aggregators st)) st).
Proof.
  unfold aggregate_now, local_reduction.
  destruct (aggregators st !! key) as [mr|]; simpl; [|done].
  intros [= <-]. exists mr. eexists. split; [done|].
  by rewrite clear_global_combine, clear_parallel_region.
Qed.

Lemma aggregate_now_returns team cin key st :
  is_Some (aggregators st !! key) ->
  exists st', aggregate_now team cin key st = Done st'.
Proof.
  intros [mr Hmr]. unfold aggregate_now, local_reduction. rewrite Hmr. simpl.
  by eexists.
Qed.

Lemma set_aggregate_period_id st :
  set_aggregate_period (aggregate_period st) st = st.
Proof. by destruct st. Qed.

Lemma period_at_inv key st :
  exists per',
    period_at key st =
      (default 0 (aggregate_period st !! key), set_aggregate_period per' st) /\
    (per' = aggregate_period st \/
     aggregate_period st !! key = None /\
     per' = <[key := 0]> (aggregate_period st)).
Proof.
  unfold period_at. destruct (aggregate_period st !! key) as [p|] eqn:E; simpl.
  - exists (aggregate_period st). rewrite set_aggregate_period_id. auto.
  - eexists. split; [done|]. right. done.
Qed.

(** *** The loop of the synchronous tick *)

Lemma tick_synchronous_loop_spec (env : @tick_env T) curtime fuel :
  forall i st,
    (forall k p, (k, p) ∈ schedule st -> is_Some (aggregators st !! k)) ->
    (forall k p, aggregate_period st !! k = Some p -> 0 <= p) ->
    clock_advances env curtime st ->
    (length (due curtime (schedule st)) <= fuel)%nat ->
    exists st' keys,
      tick_synchronous_loop fuel env curtime i st = Done (st', keys) /\
      keys ≡ₚ (due curtime (schedule st)).*1 /\
      due curtime (schedule st') = [] /\
      (schedule st').*1 ≡ₚ (schedule st).*1.
Proof.
  induction fuel as [|fuel IH]; intros i st Hreg Hper Hclock Hfuel.
  - simpl. destruct (mq_top (schedule st)) as [[key priority]|] eqn:Etop.
    + destruct (- priority <? curtime) eqn:Elt.
      * apply Z.ltb_lt in Elt.
        pose proof (due_pop curtime _ _ Etop Elt) as Hperm.
        apply Permutation_length in Hperm. simpl in Hperm. lia.
      * apply Z.ltb_ge in Elt.
        pose proof (due_nil_of_top curtime _ _ Etop Elt) as Hnil.
        exists st, []. by rewrite Hnil.
    + apply mq_top_None in Etop. exists st, []. by rewrite Etop.
  - simpl. destruct (mq_top (schedule st)) as [[key priority]|] eqn:Etop.
    + destruct (- priority <? curtime) eqn:Elt.
      * apply Z.ltb_lt in Elt.
        pose proof (due_pop curtime _ _ Etop Elt) as Hdue.
        pose proof (mq_pop_Permutation _ _ Etop) as Hpop.
        destruct (aggregate_now_returns (round_team (rounds env i))
                    (round_collective (rounds env i)) key st) as [st1 Hst1].
        { apply (Hreg key priority). by apply mq_top_elem. }
        rewrite Hst1. simpl.
        destruct (aggregate_now_inv _ _ _ _ _ Hst1) as (mr & c & Hmr & ->).
        simpl.
        destruct (period_at_inv key
                    (set_schedule (mq_pop (schedule st))
                       (set_context c
                          (set_aggregators
                             (<[key:=clear_accumulator mr]> (aggregators st)) st))))
          as (per' & -> & Hper'). simpl.
        set (period := default 0 (aggregate_period st !! key)).
        assert (Hp0 : 0 <= period).
        { unfold period. destruct (aggregate_period st !! key) as [p|] eqn:Ep;
            simpl; [by eapply Hper | lia]. }
        set (next_time :=
               broadcast (procid st =? 0)%nat
                 (round_now (rounds env i) + period - start_time st)
                 (round_next_time (rounds env i))).
        assert (Hnext : curtime <= next_time).
        { unfold next_time, broadcast. destruct Hclock as [Hroot Hpeer].
          destruct (procid st =? 0)%nat eqn:Ep.
          - apply Nat.eqb_eq in Ep. specialize (Hroot Ep i). lia.
          - apply Nat.eqb_neq in Ep. apply (Hpeer Ep i). }
        match goal with
        | |- context [tick_synchronous_loop fuel env curtime (S i) ?s] =>
            destruct (IH (S i) s) as (st' & keys & Hloop & Hkeys & Hnone & Hsched)
        end.
        { simpl. unfold mq_push. intros k p Hin.
          apply elem_of_cons in Hin as [[= -> ->]|Hin].
          - rewrite lookup_insert_eq. by eexists.
          - apply lookup_insert_is_Some'. right. apply (Hreg k p).
            rewrite Hpop. by apply list_elem_of_further. }
        { simpl. intros k p. destruct Hper' as [->|[_ ->]]; [apply Hper|].
          intros Hk. apply lookup_insert_Some in Hk as [[_ <-]|[_ Hk]];
            [lia | by eapply Hper]. }
        { done. }
        { simpl. rewrite due_push_later by done.
          apply Permutation_length in Hdue. simpl in Hdue. lia. }
        rewrite Hloop. simpl. eexists _, _. split; [done|].
        simpl in Hkeys, Hsched. rewrite due_push_later in Hkeys by done.
        split; [|split; [done|]].
        -- rewrite Hdue. simpl. by rewrite Hkeys.
        -- rewrite Hsched. unfold mq_push. rewrite Hpop at 2. done.
      * apply Z.ltb_ge in Elt.
        pose proof (due_nil_of_top curtime _ _ Etop Elt) as Hnil.
        exists st, []. by rewrite Hnil.
    + apply mq_top_None in Etop. exists st, []. by rewrite Etop.
Qed.

Lemma clock_advances_tick (env : @tick_env T) st :
  (procid st = 0%nat -> forall j, entry_now env <= round_now (rounds env j)) ->
  (procid st <> 0%nat ->
     forall j, entry_curtime env <= round_next_time (rounds env j)) ->
  clock_advances env (tick_curtime env st) st.
Proof.
  intros Hroot Hpeer. unfold clock_advances, tick_curtime, broadcast. split.
  - intros Hp j. rewrite Hp. simpl. specialize (Hroot Hp j). lia.
  - intros Hp j. apply Nat.eqb_neq in Hp as Hp'. rewrite Hp'. by apply Hpeer.
Qed.

Lemma elem_of_due_keys (curtime : Z) (q : mutable_queue) k :
  k ∈ (due curtime q).*1 <-> exists p, (k, p) ∈ q /\ - p < curtime.
Proof.
  rewrite list_elem_of_fmap. unfold due. split.
  - intros ([k' p] & -> & Hin). apply list_elem_of_filter in Hin as [Hlt Hin].
    by exists p.
  - intros (p & Hin & Hlt). exists (k, p). split; [done|].
    by apply list_elem_of_filter.
Qed.

(** What the loop does run.  One call of [tick_synchronous] runs
    [aggregate_now] for exactly the scheduled keys whose fire time is
    strictly earlier than the [curtime] frozen at the start of the tick, and
    returns with no such entry left; in particular a key of period zero is
    run by every tick whose [curtime] is strictly later than the fire time
    the key holds in the schedule. *)
Theorem tick_synchronous_runs_due_keys fuel (env : @tick_env T) st :
  (forall k p, (k, p) ∈ schedule st -> is_Some (aggregators st !! k)) ->
  (forall k p, aggregate_period st !! k = Some p -> 0 <= p) ->
  (procid st = 0%nat -> forall j, entry_now env <= round_now (rounds env j)) ->
  (procid st <> 0%nat ->
     forall j, entry_curtime env <= round_next_time (rounds env j)) ->
  (length (schedule st) <= fuel)%nat ->
  exists st' keys,
    tick_synchronous fuel env st = Done (st', keys) /\
    keys ≡ₚ (due (tick_curtime env st) (schedule st)).*1 /\
    (forall k, k ∈ keys <->
       exists p, (k, p) ∈ schedule st /\ - p < tick_curtime env st) /\
    due (tick_curtime env st) (schedule st') = [].
Proof.
  intros Hreg Hper Hroot Hpeer Hfuel.
  destruct (tick_synchronous_loop_spec env (tick_curtime env st) fuel 0%nat st)
    as (st' & keys & Hrun & Hkeys & Hnone & _); try done.
  - by apply clock_advances_tick.
  - etransitivity; [apply length_filter | done].
  - exists st', keys. split; [done|]. split; [done|]. split; [|done].
    intros k. rewrite Hkeys. apply elem_of_due_keys.
Qed.

(** C4.  During one call of [tick_synchronous] a key is handed to
    [aggregate_now] at most once, however far the clock is past its fire
    time: the schedule holds each key once, the keys that were run are
    pairwise distinct, and the schedule holds each key once afterwards. *)
Theorem tick_synchronous_at_most_once fuel (env : @tick_env T) st :
  NoDup (schedule st).*1 ->
  (forall k p, (k, p) ∈ schedule st -> is_Some (aggregators st !! k)) ->
  (forall k p, aggregate_period st !! k = Some p -> 0 <= p) ->
  (procid st = 0%nat -> forall j, entry_now env <= round_now (rounds env j)) ->
  (procid st <> 0%nat ->
     forall j, entry_curtime env <= round_next_time (rounds env j)) ->
  (length (schedule st) <= fuel)%nat ->
  exists st' keys,
    tick_synchronous fuel env st = Done (st', keys) /\
    NoDup keys /\
    NoDup (schedule st').*1.
Proof.
  intros Hnodup Hreg Hper Hroot Hpeer Hfuel.
  destruct (tick_synchronous_loop_spec env (tick_curtime env st) fuel 0%nat st)
    as (st' & keys & Hrun & Hkeys & _ & Hsched); try done.
  - by apply clock_advances_tick.
  - etransitivity; [apply length_filter | done].
  - exists st', keys. split; [done|]. split.
    + rewrite Hkeys. eapply sublist_NoDup; [exact Hnodup|].
      apply fmap_sublist. apply sublist_filter.
    + by rewrite Hsched.
Qed.

(** *** start and stop *)

Lemma elem_of_arm_schedule (periods : list (string * Z)) (q : mutable_queue) k z :
  (k, z) ∈ arm_schedule periods q <->
  (k, z) ∈ q \/ exists p, (k, p) ∈ periods /\ z = - p.
Proof.
  unfold arm_schedule. revert q.
  induction periods as [|[k0 p0] periods IH]; intros q; simpl.
  - split; [auto|]. intros [?|(p & Hin & _)]; [done|]. by apply elem_of_nil in Hin.
  - rewrite IH. unfold mq_push. rewrite elem_of_cons. split.
    + intros [[[= -> ->]|Hin]|(p & Hin & ->)]; [|auto|].
      * right. exists p0. split; [apply list_elem_of_here | done].
      * right. exists p. split; [by apply list_elem_of_further | done].
    + intros [Hin|(p & Hin & ->)]; [auto|].
      apply elem_of_cons in Hin as [[= -> ->]|Hin]; [auto|].
      right. by exists p.
Qed.

Lemma arm_schedule_keys (periods : list (string * Z)) (q : mutable_queue) :
  (arm_schedule periods q).*1 ≡ₚ periods.*1 ++ q.*1.
Proof.
  unfold arm_schedule. revert q.
  induction periods as [|[k0 p0] periods IH]; intros q; simpl; [done|].
  rewrite IH. unfold mq_push. simpl. by rewrite Permutation_middle.
Qed.

Lemma arm_async_state_step n np (reg : gmap string reducer) periods om :
  foldl (fun om kp =>
           m ← om;
           match reg !! kp.1 with
           | Some mr => Done (<[kp.1 := new_async_aggregator_state n np mr]> m)
           | None => Fatal
           end) om periods =
  m ← om; arm_async_state n np reg periods m.
Proof.
  unfold arm_async_state. revert om.
  induction periods as [|kp periods IH]; intros om; simpl.
  - by destruct om.
  - rewrite IH. destruct om as [m| |]; simpl; [|done..].
    by rewrite IH.
Qed.

Lemma arm_async_state_cons n np (reg : gmap string reducer) kp periods m :
  arm_async_state n np reg (kp :: periods) m =
  match reg !! kp.1 with
  | Some mr =>
      arm_async_state n np reg periods
        (<[kp.1 := new_async_aggregator_state n np mr]> m)
  | None => Fatal
  end.
Proof.
  unfold arm_async_state at 1. simpl. rewrite arm_async_state_step.
  by destruct (reg !! kp.1).
Qed.

Lemma arm_async_state_lookup n np (reg : gmap string reducer) periods m m' :
  arm_async_state n np reg periods m = Done m' ->
  forall k,
    m' !! k =
      if decide (k ∈ periods.*1)
      then new_async_aggregator_state n np <$> reg !! k
      else m !! k.
Proof.
  revert m. induction periods as [|[k0 p0] periods IH]; intros m.
  - intros [= <-] k. simpl. destruct (decide (k ∈ [])) as [Hin|]; [|done].
    by apply elem_of_nil in Hin.
  - rewrite arm_async_state_cons. cbn [fst].
    destruct (reg !! k0) as [mr|] eqn:Ereg; [|done].
    intros Hrun k. rewrite (IH _ Hrun k).
    change (((k0, p0) :: periods).*1) with (k0 :: periods.*1).
    destruct (decide (k = k0)) as [->|Hne].
    + rewrite (decide_True (P := k0 ∈ k0 :: periods.*1))
        by apply list_elem_of_here.
      rewrite Ereg. simpl. rewrite lookup_insert_eq.
      by destruct (decide (k0 ∈ periods.*1)).
    + rewrite lookup_insert_ne by done.
      destruct (decide (k ∈ periods.*1)) as [Hin|Hin].
      * by rewrite (decide_True (P := k ∈ k0 :: periods.*1))
          by (by apply list_elem_of_further).
      * rewrite (decide_False (P := k ∈ k0 :: periods.*1)); [done|].
        intros [?|?]%elem_of_cons; done.
Qed.

Lemma arm_async_state_returns n np (reg : gmap string reducer) periods m :
  (forall k, k ∈ periods.*1 -> is_Some (reg !! k)) ->
  exists m', arm_async_state n np reg periods m = Done m'.
Proof.
  revert m. induction periods as [|[k0 p0] periods IH]; intros m Hreg.
  - by eexists.
  - rewrite arm_async_state_cons. simpl.
    destruct (Hreg k0) as [mr ->]; [apply list_elem_of_here|].
    apply IH. intros k Hk. apply Hreg. by apply list_elem_of_further.
Qed.

Lemma elem_of_period_keys (per : gmap string Z) k :
  k ∈ (map_to_list per).*1 <-> is_Some (per !! k).
Proof.
  rewrite list_elem_of_fmap. split.
  - intros ([k' p] & -> & Hin). apply elem_of_map_to_list in Hin. by exists p.
  - intros [p Hp]. exists (k, p). split; [done|]. by apply elem_of_map_to_list.
Qed.

(** What [start] builds, given that every periodic key is registered. *)
Lemma start_returns n now st :
  (forall k, is_Some (aggregate_period st !! k) -> is_Some (aggregators st !! k)) ->
  exists st',
    start n now st = Done st' /\
    procid st' = procid st /\ numprocs st' = numprocs st /\
    graph st' = graph st /\ context st' = context st /\
    aggregators st' = aggregators st /\
    aggregate_period st' = aggregate_period st /\
    start_time st' = now /\ ncpus st' = n /\
    schedule st' = arm_schedule (map_to_list (aggregate_period st)) [] /\
    (if (0 <? n)%nat
     then arm_async_state n (numprocs st) (aggregators st)
            (map_to_list (aggregate_period st)) (async_state st)
          = Done (async_state st')
     else async_state st' = async_state st).
Proof.
  intros Hreg. unfold start. simpl.
  destruct (0 <? n)%nat eqn:En.
  - destruct (arm_async_state_returns n (numprocs st) (aggregators st)
                (map_to_list (aggregate_period st)) (async_state st))
      as [m' Hm'].
    { intros k Hk. apply Hreg. by apply elem_of_period_keys. }
    rewrite Hm'. simpl. eexists. split; [done|]. simpl. by repeat split.
  - eexists. split; [done|]. simpl. by repeat split.
Qed.

Lemma lookup_stop_aggregators st k :
  aggregators (stop st) !! k = clear_accumulator <$> aggregators st !! k.
Proof. unfold stop. simpl. by rewrite lookup_fmap. Qed.

(** After [start] on a machine that only registered, the schedule holds
    each periodic key once, every scheduled key is registered, and no
    period is negative: what the tick theorems ask of the state. *)
Lemma start_arms_schedule n now st0 st1 :
  registered_only st0 ->
  start n now st0 = Done st1 ->
  NoDup (schedule st1).*1 /\
  (forall k p, (k, p) ∈ schedule st1 -> is_Some (aggregators st1 !! k)) /\
  (forall k p, aggregate_period st1 !! k = Some p -> 0 <= p).
Proof.
  intros (_ & _ & _ & Hper) Hstart.
  destruct (start_returns n now st0)
    as (st1' & Hstart' & _ & _ & _ & _ & Hagg & Hperiod & _ & _ & Hsched & _).
  { intros k [p Hk]. by apply (Hper k p). }
  rewrite Hstart in Hstart'. injection Hstart' as <-.
  rewrite Hsched, Hagg, Hperiod. split; [|split].
  - rewrite arm_schedule_keys. simpl. rewrite app_nil_r.
    apply NoDup_fst_map_to_list.
  - intros k z [Hin|(p & Hin & _)]%elem_of_arm_schedule;
      [by apply elem_of_nil in Hin|].
    apply elem_of_map_to_list in Hin. by apply (Hper k p).
  - intros k p Hk. by apply (Hper k p).
Qed.

(** C9.  [stop] leaves the period table as it was and keeps every
    descriptor of the registry, changing only its sum; so a [start] that
    follows needs no registration: it returns, its schedule holds exactly
    the periodic keys, each to fire one period after the start, and with
    [ncpus > 0] exactly the periodic keys have async state. *)
Theorem stop_keeps_registrations n now st :
  (forall k, is_Some (aggregate_period st !! k) -> is_Some (aggregators st !! k)) ->
  aggregate_period (stop st) = aggregate_period st /\
  (forall k, aggregators (stop st) !! k =
               clear_accumulator <$> aggregators st !! k) /\
  exists st',
    start n now (stop st) = Done st' /\
    aggregate_period st' = aggregate_period st /\
    aggregators st' = aggregators (stop st) /\
    (forall k p, (k, - p) ∈ schedule st' <-> aggregate_period st !! k = Some p) /\
    ((0 < n)%nat ->
       forall k, is_Some (async_state st' !! k) <->
                 is_Some (aggregate_period st !! k)).
Proof.
  intros Hreg. split; [done|]. split; [apply lookup_stop_aggregators|].
  destruct (start_returns n now (stop st))
    as (st' & Hstart & _ & _ & _ & _ & Hagg & Hper & _ & _ & Hsched & Hasync).
  { intros k Hk. rewrite lookup_stop_aggregators. apply fmap_is_Some.
    by apply Hreg. }
  exists st'. split; [done|]. split; [done|]. split; [done|]. split.
  - intros k p. rewrite Hsched. rewrite elem_of_arm_schedule. simpl. split.
    + intros [Hin|(p' & Hin & Heq)]; [by apply elem_of_nil in Hin|].
      apply elem_of_map_to_list in Hin. assert (p = p') as -> by lia. done.
    + intros Hp. right. exists p. split; [|done]. by apply elem_of_map_to_list.
  - intros Hn k. apply Nat.ltb_lt in Hn. rewrite Hn in Hasync.
    rewrite (arm_async_state_lookup _ _ _ _ _ _ Hasync k). simpl.
    destruct (decide (k ∈ (map_to_list (aggregate_period st)).*1)) as [Hin|Hin].
    + apply elem_of_period_keys in Hin as Hk. split; [done|]. intros _.
      apply fmap_is_Some. rewrite lookup_fmap. apply fmap_is_Some. by apply Hreg.
    + rewrite lookup_empty. split; [by intros [? ?]|].
      intros Hk. exfalso. apply Hin. by apply elem_of_period_keys.
Qed.

(** *** What an engine run leaves untouched *)

#[local] Arguments put_async : simpl never.
#[local] Arguments rpc_schedule_key : simpl never.
#[local] Arguments period_at : simpl never.

Lemma setup_put_async cfg reg per key a st :
  setup_inv cfg reg per st -> is_Some (per !! key) ->
  setup_inv cfg reg per (put_async key a st).
Proof.
  intros (Hreg & Hper & Hcfg & Hsched & Hasync) Hk. unfold put_async.
  repeat split; try done. simpl. intros k.
  intros [<-|[_ Hs]]%lookup_insert_is_Some; [done|by apply Hasync].
Qed.

Lemma setup_set_context cfg reg per c st :
  setup_inv cfg reg per st -> setup_inv cfg reg per (set_context c st).
Proof. by intros (Hreg & Hper & Hcfg & Hsched & Hasync). Qed.

Lemma setup_rpc_schedule_key cfg reg per key t st :
  setup_inv cfg reg per st -> is_Some (per !! key) ->
  setup_inv cfg reg per (rpc_schedule_key key t st).
Proof.
  intros (Hreg & Hper & Hcfg & Hsched & Hasync) Hk. unfold rpc_schedule_key, mq_push.
  repeat split; try done. simpl. intros k [->|Hin]%elem_of_cons; [done|].
  by apply Hsched.
Qed.

Lemma setup_pop cfg reg per st :
  setup_inv cfg reg per st ->
  setup_inv cfg reg per (set_schedule (mq_pop (schedule st)) st).
Proof.
  intros (Hreg & Hper & Hcfg & Hsched & Hasync). repeat split; try done. simpl.
  intros k Hk. apply Hsched.
  destruct (mq_top (schedule st)) as [x|] eqn:Etop.
  - rewrite (mq_pop_Permutation _ _ Etop). rewrite fmap_cons.
    by apply list_elem_of_further.
  - apply mq_top_None in Etop. rewrite Etop in Hk. simpl in Hk.
    by apply elem_of_nil in Hk.
Qed.

Lemma setup_period_at cfg reg per key st :
  setup_inv cfg reg per st -> is_Some (per !! key) ->
  exists p, per !! key = Some p /\ period_at key st = (p, st).
Proof.
  intros (Hreg & Hper & Hcfg & Hsched & Hasync) [p Hp]. exists p. split; [done|].
  unfold period_at. by rewrite Hper, Hp.
Qed.

Ltac setup_steps :=
  repeat first
    [ done
    | apply setup_put_async; [|done]
    | apply setup_set_context
    | apply setup_rpc_schedule_key; [|done] ].

Lemma fmap_clear_insert (m : gmap string reducer) key mr :
  m !! key = Some mr ->
  clear_accumulator <$> <[key := clear_accumulator mr]> m = clear_accumulator <$> m.
Proof.
  intros Hmr. apply map_eq. intros k. rewrite !lookup_fmap.
  destruct (decide (k = key)) as [->|Hne].
  - by rewrite lookup_insert_eq, Hmr.
  - by rewrite lookup_insert_ne.
Qed.

Lemma setup_aggregate_now cfg reg per team cin key st st' :
  setup_inv cfg reg per st -> aggregate_now team cin key st = Done st' ->
  setup_inv cfg reg per st'.
Proof.
  intros (Hreg & Hper & Hcfg & Hsched & Hasync) Hrun.
  destruct (aggregate_now_inv _ _ _ _ _ Hrun) as (mr & c & Hmr & ->).
  repeat split; try done. simpl. by rewrite fmap_clear_insert.
Qed.

Lemma setup_tick_synchronous_loop cfg reg per (env : @tick_env T) curtime fuel :
  forall i st st' keys,
    setup_inv cfg reg per st ->
    tick_synchronous_loop fuel env curtime i st = Done (st', keys) ->
    setup_inv cfg reg per st'.
Proof.
  induction fuel as [|fuel IH]; intros i st st' keys Hinv; simpl.
  - destruct (mq_top (schedule st)) as [[key priority]|]; [|by intros [= <- _]].
    destruct (- priority <? curtime); [done|by intros [= <- _]].
  - destruct (mq_top (schedule st)) as [[key priority]|] eqn:Etop;
      [|by intros [= <- _]].
    destruct (- priority <? curtime); [|by intros [= <- _]].
    assert (Hk : is_Some (per !! key)).
    { destruct Hinv as (_ & _ & _ & Hsched & _). apply Hsched.
      apply mq_top_elem in Etop. apply list_elem_of_fmap. by exists (key, priority). }
    destruct (aggregate_now _ _ key st) as [st1| |] eqn:Hagg; simpl; [|done..].
    pose proof (setup_aggregate_now _ _ _ _ _ _ _ _ Hinv Hagg) as Hinv1.
    pose proof (setup_pop _ _ _ _ Hinv1) as Hinv2.
    destruct (setup_period_at _ _ _ key _ Hinv2 Hk) as (p & Hp & ->).
    match goal with
    | |- context [tick_synchronous_loop fuel env curtime (S i) ?s] =>
        destruct (tick_synchronous_loop fuel env curtime (S i) s)
          as [[st2 keys2]| |] eqn:Hloop; simpl; [|done..];
        intros [= <- _]; apply (IH (S i) s st2 keys2); [|done]
    end.
    destruct Hinv2 as (Hreg & Hper & Hcfg & Hsched & Hasync).
    repeat split; try done. simpl. unfold mq_push.
    intros k [->|Hin]%elem_of_cons; [done|]. by apply Hsched.
Qed.

Lemma setup_tick_asynchronous cfg reg per locked now st :
  setup_inv cfg reg per st -> setup_inv cfg reg per (tick_asynchronous locked now st).2.
Proof.
  intros Hinv. unfold tick_asynchronous.
  destruct locked; simpl; [|done].
  destruct (mq_top (schedule st)) as [[key priority]|]; [|done].
  destruct (- priority <? now - start_time st); [|done].
  by apply setup_pop.
Qed.

Lemma setup_decrement_finalize_counter cfg reg per now key st st' calls :
  setup_inv cfg reg per st ->
  decrement_finalize_counter now key st = Done (st', calls) ->
  setup_inv cfg reg per st'.
Proof.
  intros Hinv. unfold decrement_finalize_counter.
  destruct (async_state st !! key) as [a|] eqn:Ea; [|done].
  assert (Hk : is_Some (per !! key)).
  { destruct Hinv as (_ & _ & _ & _ & Hasync). apply Hasync. by eexists. }
  cbv zeta. destruct (atomic_dec (distributed_count_down a) =? 0).
  - match goal with
    | |- context [period_at key ?s] =>
        assert (Hs : setup_inv cfg reg per s) by setup_steps;
        destruct (setup_period_at _ _ _ key _ Hs Hk) as (p & Hp & ->)
    end.
    intros [= <- _]. setup_steps.
  - intros [= <- _]. setup_steps.
Qed.

Lemma setup_decrement_distributed_counter cfg reg per now key st st' calls :
  setup_inv cfg reg per st ->
  decrement_distributed_counter now key st = Done (st', calls) ->
  setup_inv cfg reg per st'.
Proof.
  intros Hinv. unfold decrement_distributed_counter, assertion.
  destruct (procid st =? 0)%nat; [|done].
  destruct (async_state st !! key) as [a|] eqn:Ea; [|done].
  assert (Hk : is_Some (per !! key)).
  { destruct Hinv as (_ & _ & _ & _ & Hasync). apply Hasync. by eexists. }
  cbv zeta.
  destruct (_ <=? Z.of_nat _); [|done]. destruct (0 <=? _); [|done].
  destruct (atomic_dec (distributed_count_down a) =? 0).
  - match goal with
    | |- context [decrement_finalize_counter now key ?s] =>
        destruct (decrement_finalize_counter now key s) as [[st2 calls2]| |] eqn:Hdfc;
          simpl; [|done..];
        intros [= <- _];
        eapply setup_decrement_finalize_counter; [|exact Hdfc]
    end.
    setup_steps.
  - intros [= <- _]. setup_steps.
Qed.

Lemma setup_rpc_key_merge cfg reg per now key a_in st st' calls :
  setup_inv cfg reg per st ->
  rpc_key_merge now key a_in st = Done (st', calls) ->
  setup_inv cfg reg per st'.
Proof.
  intros Hinv. unfold rpc_key_merge.
  destruct (async_state st !! key) as [a|] eqn:Ea; [|done].
  assert (Hk : is_Some (per !! key)).
  { destruct Hinv as (_ & _ & _ & _ & Hasync). apply Hasync. by eexists. }
  apply setup_decrement_distributed_counter. setup_steps.
Qed.

Lemma setup_rpc_perform_finalize cfg reg per key acc_val st st' calls :
  setup_inv cfg reg per st ->
  rpc_perform_finalize key acc_val st = Done (st', calls) ->
  setup_inv cfg reg per st'.
Proof.
  intros Hinv. unfold rpc_perform_finalize, assertion.
  destruct (procid st =? 0)%nat; [done|]. simpl.
  destruct (async_state st !! key) as [a|] eqn:Ea; [|done].
  assert (Hk : is_Some (per !! key)).
  { destruct Hinv as (_ & _ & _ & _ & Hasync). apply Hasync. by eexists. }
  cbv zeta. intros [= <- _]. setup_steps.
Qed.

Lemma setup_tick_asynchronous_compute cfg reg per now cpuid key st st' calls :
  setup_inv cfg reg per st ->
  tick_asynchronous_compute now cpuid key st = Done (st', calls) ->
  setup_inv cfg reg per st'.
Proof.
  intros Hinv. unfold tick_asynchronous_compute.
  destruct (async_state st !! key) as [a|] eqn:Ea; [|done].
  assert (Hk : is_Some (per !! key)).
  { destruct Hinv as (_ & _ & _ & _ & Hasync). apply Hasync. by eexists. }
  destruct (per_thread_aggregation a !! cpuid) as [localmr|]; [|done].
  cbv zeta.
  destruct (stride_loop _ _ _ _ _ _) as [localmr'| |]; simpl; [|done..].
  unfold assertion.
  destruct (_ <? Z.of_nat _); [|done]. destruct (0 <=? _); [|done].
  destruct (atomic_dec _ =? 0).
  - destruct (negb (procid _ =? 0)%nat).
    + intros [= <- _]. setup_steps.
    + apply setup_decrement_distributed_counter. setup_steps.
  - intros [= <- _]. setup_steps.
Qed.

Lemma setup_engine_step cfg reg per st st' :
  setup_inv cfg reg per st -> engine_step st st' -> setup_inv cfg reg per st'.
Proof.
  intros Hinv Hstep. destruct Hstep.
  - by eapply setup_aggregate_now.
  - by eapply setup_tick_synchronous_loop.
  - by apply setup_tick_asynchronous.
  - by eapply setup_tick_asynchronous_compute.
  - by eapply setup_rpc_key_merge.
  - by eapply setup_decrement_distributed_counter.
  - by eapply setup_rpc_perform_finalize.
  - by eapply setup_decrement_finalize_counter.
  - apply setup_rpc_schedule_key; [done|].
    destruct Hinv as (_ & <- & _). done.
Qed.

Lemma setup_engine_run cfg reg per st st' :
  setup_inv cfg reg per st -> rtc engine_step st st' -> setup_inv cfg reg per st'.
Proof.
  intros Hinv Hrun. induction Hrun as [|st st1 st2 Hstep _ IH]; [done|].
  apply IH. by eapply setup_engine_step.
Qed.

Lemma fmap_clear_empty_sums (m : gmap string reducer) :
  (forall k mr, m !! k = Some mr -> acc mr = None) ->
  clear_accumulator <$> m = m.
Proof.
  intros Hempty. apply map_eq. intros k. rewrite lookup_fmap.
  destruct (m !! k) as [mr|] eqn:E; simpl; [|done].
  specialize (Hempty k mr E). destruct mr as [a f g]. simpl in Hempty.
  by subst a.
Qed.

Lemma arm_async_state_keys n np (reg : gmap string reducer) per m m' k :
  arm_async_state n np reg (map_to_list per) m = Done m' ->
  is_Some (m' !! k) -> is_Some (per !! k) \/ is_Some (m !! k).
Proof.
  intros Hrun. rewrite (arm_async_state_lookup _ _ _ _ _ _ Hrun k).
  destruct (decide (k ∈ (map_to_list per).*1)) as [Hin|Hin]; [|auto].
  left. by apply elem_of_period_keys.
Qed.

(** After [start] on a machine that only registered, the setup invariant
    holds. *)
Lemma setup_after_start n now st0 st1 :
  registered_only st0 ->
  start n now st0 = Done st1 ->
  setup_inv (procid st0, numprocs st0, graph st0, n, now)
            (aggregators st0) (aggregate_period st0) st1.
Proof.
  intros (Hsched0 & Hasync0 & Hempty & Hper) Hstart.
  destruct (start_returns n now st0)
    as (st1' & Hstart' & Hp & Hnp & Hg & _ & Hagg & Hperiod & Ht & Hn & Hsched & Hasync).
  { intros k [p Hk]. by apply (Hper k p). }
  rewrite Hstart in Hstart'. injection Hstart' as <-.
  repeat split.
  - rewrite Hagg. by apply fmap_clear_empty_sums.
  - done.
  - by rewrite Hp, Hnp, Hg, Hn, Ht.
  - intros k. rewrite Hsched. rewrite arm_schedule_keys. simpl.
    rewrite app_nil_r. by intros ?%elem_of_period_keys.
  - intros k Hk. destruct (0 <? n)%nat.
    + destruct (arm_async_state_keys _ _ _ _ _ _ k Hasync Hk) as [?|Hs]; [done|].
      rewrite Hasync0, lookup_empty in Hs. by destruct Hs.
    + rewrite Hasync, Hasync0, lookup_empty in Hk. by destruct Hk.
Qed.

(** C8.  Let a machine that only registered be started and then driven
    through any sequence of legal calls.  After [stop] the schedule is
    empty, no async state is left and every sum of the registry is empty.
    A [start] that follows returns and arms the machine again: the clock
    offset is the new reading, the schedule holds exactly the periodic
    keys, each once and each to fire one period after the start, and the
    async state holds, when [ncpus > 0], exactly the periodic keys, each
    with empty reducers for the root and for every thread and with both
    countdowns at their full value; with [ncpus = 0] it is empty.  This
    is the schedule, the async state, the registry, the period table and
    [ncpus] of the first [start]. *)
Theorem stop_then_start_rearms n t0 t1 st0 st1 st :
  registered_only st0 ->
  start n t0 st0 = Done st1 ->
  rtc engine_step st1 st ->
  schedule (stop st) = [] /\
  async_state (stop st) = ∅ /\
  (forall k mr, aggregators (stop st) !! k = Some mr -> acc mr = None) /\
  exists st2,
    start n t1 (stop st) = Done st2 /\
    start_time st2 = t1 /\
    NoDup (schedule st2).*1 /\
    (forall k p, (k, - p) ∈ schedule st2 <-> aggregate_period st0 !! k = Some p) /\
    (forall k,
       async_state st2 !! k =
         if (0 <? n)%nat then
           match aggregate_period st0 !! k with
           | Some _ =>
               new_async_aggregator_state n (numprocs st0)
                 <$> aggregators st0 !! k
           | None => None
           end
         else None) /\
    schedule st2 = schedule st1 /\
    async_state st2 = async_state st1 /\
    aggregators st2 = aggregators st1 /\
    aggregate_period st2 = aggregate_period st1 /\
    ncpus st2 = ncpus st1 /\
    procid st2 = procid st1 /\ numprocs st2 = numprocs st1 /\
    graph st2 = graph st1.
Proof.
  intros Hreg0 Hstart Hrun.
  pose proof (setup_after_start _ _ _ _ Hreg0 Hstart) as Hinv1.
  pose proof (setup_engine_run _ _ _ _ _ Hinv1 Hrun)
    as (Hagg & Hper & Hcfg & _ & _).
  destruct Hreg0 as (Hsched0 & Hasync0 & Hempty & Hper0).
  destruct (start_returns n t0 st0)
    as (st1' & Hstart' & Hp1 & Hnp1 & Hg1 & _ & Hagg1 & Hperiod1 & _ & Hn1
        & Hsched1 & Hasync1).
  { intros k [p Hk]. by apply (Hper0 k p). }
  rewrite Hstart in Hstart'. injection Hstart' as <-.
  injection Hcfg as Hp Hnp Hg _ _.
  split; [done|]. split; [done|]. split.
  { intros k mr. rewrite lookup_stop_aggregators.
    destruct (aggregators st !! k); simpl; [|done]. by intros [= <-]. }
  destruct (start_returns n t1 (stop st))
    as (st2 & Hstart2 & Hp2 & Hnp2 & Hg2 & _ & Hagg2 & Hperiod2 & Ht2 & Hn2
        & Hsched2 & Hasync2).
  { intros k [p Hk].
    change (aggregate_period (stop st)) with (aggregate_period st) in Hk.
    change (aggregators (stop st)) with (clear_accumulator <$> aggregators st).
    rewrite Hper in Hk. rewrite Hagg. by apply (Hper0 k p). }
  change (aggregate_period (stop st)) with (aggregate_period st)
    in Hperiod2, Hsched2, Hasync2.
  change (aggregators (stop st)) with (clear_accumulator <$> aggregators st)
    in Hagg2, Hasync2.
  change (numprocs (stop st)) with (numprocs st) in Hnp2, Hasync2.
  change (async_state (stop st))
    with (∅ : gmap string
                (@async_aggregator_state T vertex_type edge_type icontext_type))
    in Hasync2.
  change (procid (stop st)) with (procid st) in Hp2.
  change (graph (stop st)) with (graph st) in Hg2.
  rewrite Hper in Hperiod2, Hsched2, Hasync2. rewrite Hagg in Hagg2, Hasync2.
  rewrite Hnp in Hasync2.
  rewrite Hasync0 in Hasync1.
  assert (Hsame : async_state st2 = async_state st1).
  { destruct (0 <? n)%nat.
    - rewrite Hasync1 in Hasync2. by injection Hasync2.
    - by rewrite Hasync2, Hasync1. }
  exists st2. split; [done|]. split; [done|].
  split.
  { rewrite Hsched2, arm_schedule_keys. simpl. rewrite app_nil_r.
    apply NoDup_fst_map_to_list. }
  split.
  { intros k p. rewrite Hsched2, elem_of_arm_schedule. simpl. split.
    - intros [Hin|(p' & Hin & Heq)]; [by apply elem_of_nil in Hin|].
      apply elem_of_map_to_list in Hin. assert (p = p') as -> by lia. done.
    - intros Hp'. right. exists p. split; [|done].
      by apply elem_of_map_to_list. }
  split.
  { intros k. rewrite Hsame. destruct (0 <? n)%nat.
    - rewrite (arm_async_state_lookup _ _ _ _ _ _ Hasync1 k).
      destruct (decide (k ∈ (map_to_list (aggregate_period st0)).*1))
        as [Hin|Hin].
      + apply elem_of_period_keys in Hin as [p' Hp']. by rewrite Hp'.
      + rewrite lookup_empty.
        destruct (aggregate_period st0 !! k) as [p'|] eqn:Ep; [|done].
        exfalso. apply Hin. apply elem_of_period_keys. by exists p'.
    - rewrite Hasync1. apply lookup_empty. }
  split; [by rewrite Hsched1, Hsched2|].
  split; [done|].
  split; [by rewrite Hagg2, Hagg1|].
  split; [by rewrite Hperiod2, Hperiod1|].
  split; [by rewrite Hn2, Hn1|].
  split; [by rewrite Hp2, Hp1|].
  split; [by rewrite Hnp2, Hnp1|].
  by rewrite Hg2, Hg1.
Qed.

(** *** The countdowns of the asynchronous driver *)

Section AsyncBounds.

Variables (n np : nat).
Hypothesis n_fits : Z.of_nat n <= INT_MAX.
Hypothesis np_fits : Z.of_nat np <= INT_MAX.

Lemma async_inv_frame keys st st' :
  async_inv n np keys st ->
  ncpus st' = ncpus st -> numprocs st' = numprocs st ->
  async_state st' = async_state st ->
  async_inv n np keys st'.
Proof.
  intros (Hn & Hnp & Hdom & Hent) Hn' Hnp' Hs. unfold async_inv.
  by rewrite Hn', Hnp', Hs.
Qed.

Lemma async_inv_update keys st st' key a' :
  async_inv n np keys st ->
  ncpus st' = ncpus st -> numprocs st' = numprocs st ->
  async_state st' = <[key := a']> (async_state st) ->
  entry_ok n np a' ->
  async_inv n np keys st'.
Proof.
  intros (Hn & Hnp & Hdom & Hent) Hn' Hnp' Hs Ha'. unfold async_inv.
  rewrite Hn', Hnp', Hs. split; [done|]. split; [done|]. split.
  - intros k Hk. apply lookup_insert_is_Some'. right. by apply Hdom.
  - intros k a [[_ <-]|[_ Hk]]%lookup_insert_Some; [done|by eapply Hent].
Qed.

Ltac async_update key :=
  eapply (async_inv_update _ _ _ key);
  [ eassumption
  | reflexivity
  | reflexivity
  | unfold put_async, rpc_schedule_key; simpl; rewrite ?insert_insert_eq;
    reflexivity
  | ].

Lemma async_decrement_finalize_counter keys now key st st' calls :
  async_inv n np keys st ->
  decrement_finalize_counter now key st = Done (st', calls) ->
  async_inv n np keys st'.
Proof.
  intros Hinv. unfold decrement_finalize_counter.
  destruct (async_state st !! key) as [a|] eqn:Ea; [|done].
  destruct Hinv as (Hn & Hnp & Hdom & Hent).
  destruct (Hent key a Ea) as (Hl & Hd & Hlen).
  assert (Hinv : async_inv n np keys st) by done.
  rewrite atomic_dec_small by (unfold INT_MAX in *; lia).
  cbv zeta. destruct (Z.eqb_spec (distributed_count_down a - 1) 0) as [Hz|Hz].
  - match goal with
    | |- context [period_at key ?s] =>
        destruct (period_at_inv key s) as (per' & -> & _)
    end.
    intros [= <- _]. async_update key.
    change (numprocs (put_async _ _ st)) with (numprocs st). rewrite Hnp.
    rewrite to_int_small by (unfold INT_MAX in *; lia).
    repeat split; simpl; try done; lia.
  - intros [= <- _]. async_update key.
    repeat split; simpl; try done; lia.
Qed.

Lemma async_decrement_distributed_counter keys now key st st' calls :
  async_inv n np keys st ->
  decrement_distributed_counter now key st = Done (st', calls) ->
  async_inv n np keys st'.
Proof.
  intros Hinv. unfold decrement_distributed_counter, assertion.
  destruct (procid st =? 0)%nat; [|done].
  destruct (async_state st !! key) as [a|] eqn:Ea; [|done].
  destruct Hinv as (Hn & Hnp & Hdom & Hent).
  destruct (Hent key a Ea) as (Hl & Hd & Hlen).
  assert (Hinv : async_inv n np keys st) by done.
  rewrite atomic_dec_small by (unfold INT_MAX in *; lia).
  cbv zeta.
  destruct (_ <=? Z.of_nat _); [|done].
  destruct (Z.leb_spec 0 (distributed_count_down a - 1)) as [Hge|]; [|done].
  destruct (Z.eqb_spec (distributed_count_down a - 1) 0) as [Hz|Hz].
  - match goal with
    | |- context [decrement_finalize_counter now key ?s] =>
        destruct (decrement_finalize_counter now key s) as [[st2 calls2]| |] eqn:Hdfc;
          simpl; [|done..];
        intros [= <- _];
        eapply async_decrement_finalize_counter; [|exact Hdfc]
    end.
    async_update key.
    change (numprocs (put_async _ _ st)) with (numprocs st). rewrite Hnp.
    rewrite to_int_small by (unfold INT_MAX in *; lia).
    repeat split; simpl; try done; lia.
  - intros [= <- _]. async_update key.
    repeat split; simpl; try done; lia.
Qed.

Lemma async_rpc_key_merge keys now key a_in st st' calls :
  async_inv n np keys st ->
  rpc_key_merge now key a_in st = Done (st', calls) ->
  async_inv n np keys st'.
Proof.
  intros Hinv. unfold rpc_key_merge.
  destruct (async_state st !! key) as [a|] eqn:Ea; [|done].
  apply async_decrement_distributed_counter.
  async_update key. destruct Hinv as (_ & _ & _ & Hent). by apply (Hent key a).
Qed.

Lemma async_rpc_perform_finalize keys key acc_val st st' calls :
  async_inv n np keys st ->
  rpc_perform_finalize key acc_val st = Done (st', calls) ->
  async_inv n np keys st'.
Proof.
  intros Hinv. unfold rpc_perform_finalize, assertion.
  destruct (procid st =? 0)%nat; [done|]. simpl.
  destruct (async_state st !! key) as [a|] eqn:Ea; [|done].
  cbv zeta. intros [= <- _].
  async_update key. destruct Hinv as (_ & _ & _ & Hent). by apply (Hent key a).
Qed.

Lemma async_tick_asynchronous_compute keys now cpuid key st st' calls :
  async_inv n np keys st ->
  tick_asynchronous_compute now cpuid key st = Done (st', calls) ->
  async_inv n np keys st'.
Proof.
  intros Hinv. unfold tick_asynchronous_compute.
  destruct (async_state st !! key) as [a|] eqn:Ea; [|done].
  destruct Hinv as (Hn & Hnp & Hdom & Hent).
  destruct (Hent key a Ea) as (Hl & Hd & Hlen).
  assert (Hinv : async_inv n np keys st) by done.
  destruct (per_thread_aggregation a !! cpuid) as [localmr|]; [|done].
  cbv zeta.
  destruct (stride_loop _ _ _ _ _ _) as [localmr'| |]; simpl; [|done..].
  rewrite atomic_dec_small by (unfold INT_MAX in *; lia).
  change (ncpus (put_async _ _ st)) with (ncpus st).
  change (procid (put_async _ _ st)) with (procid st).
  rewrite Hn. unfold assertion.
  destruct (Z.ltb_spec (local_count_down a - 1) (Z.of_nat n)); [|done].
  destruct (Z.leb_spec 0 (local_count_down a - 1)) as [Hge|]; [|done].
  destruct (Z.eqb_spec (local_count_down a - 1) 0) as [Hz|Hz].
  - assert (Hreset :
      entry_ok n np
        (set_local_count_down (to_int (Z.of_nat n))
           (set_per_thread_aggregation
              (clear_accumulator <$>
                 <[cpuid:=localmr']> (per_thread_aggregation a))
              (set_local_count_down (local_count_down a - 1)
                 (set_root_reducer (add_accumulator localmr' (root_reducer a))
                    (set_per_thread_aggregation
                       (<[cpuid:=localmr']> (per_thread_aggregation a)) a)))))).
    { rewrite to_int_small by (unfold INT_MAX in *; lia).
      repeat split; simpl; try done; try lia.
      by rewrite length_fmap, length_insert. }
    destruct (negb (procid st =? 0)%nat).
    + intros [= <- _]. async_update key. apply Hreset.
    + apply async_decrement_distributed_counter.
      async_update key. apply Hreset.
  - intros [= <- _]. async_update key.
    repeat split; simpl; try done; try lia.
    by rewrite length_insert.
Qed.

Lemma tick_synchronous_loop_frame (env : @tick_env T) curtime fuel :
  forall i st st' keys,
    tick_synchronous_loop fuel env curtime i st = Done (st', keys) ->
    ncpus st' = ncpus st /\ numprocs st' = numprocs st /\
    async_state st' = async_state st.
Proof.
  induction fuel as [|fuel IH]; intros i st st' keys; simpl.
  - destruct (mq_top (schedule st)) as [[key priority]|]; [|by intros [= <- _]].
    destruct (- priority <? curtime); [done|by intros [= <- _]].
  - destruct (mq_top (schedule st)) as [[key priority]|] eqn:Etop;
      [|by intros [= <- _]].
    destruct (- priority <? curtime); [|by intros [= <- _]].
    destruct (aggregate_now _ _ key st) as [st1| |] eqn:Hagg; simpl; [|done..].
    destruct (aggregate_now_inv _ _ _ _ _ Hagg) as (mr & c & Hmr & ->).
    match goal with
    | |- context [period_at key ?s] =>
        destruct (period_at_inv key s) as (per' & -> & _)
    end.
    match goal with
    | |- context [tick_synchronous_loop fuel env curtime (S i) ?s] =>
        destruct (tick_synchronous_loop fuel env curtime (S i) s)
          as [[st2 keys2]| |] eqn:Hloop; simpl; [|done..];
        intros [= <- _]; apply IH in Hloop
    end.
    done.
Qed.

Lemma async_engine_step keys st st' :
  async_inv n np keys st -> engine_step st st' -> async_inv n np keys st'.
Proof.
  intros Hinv Hstep. destruct Hstep as
    [team cin key st st' Hrun | fuel env st st' ks Hrun | locked now st
    | now cpuid key st st' calls Hrun | now key a st st' calls Hrun
    | now key st st' calls Hrun | key a st st' calls Hrun
    | now key st st' calls Hrun | key next_time st Hk].
  - destruct (aggregate_now_inv _ _ _ _ _ Hrun) as (mr & c & Hmr & ->).
    by eapply async_inv_frame.
  - apply tick_synchronous_loop_frame in Hrun as (Hn & Hnp & Hs).
    by eapply async_inv_frame.
  - eapply async_inv_frame; [done|..]; unfold tick_asynchronous;
      destruct locked; simpl; try done;
      destruct (mq_top (schedule st)) as [[key priority]|]; try done;
      by destruct (- priority <? now - start_time st).
  - by eapply async_tick_asynchronous_compute.
  - by eapply async_rpc_key_merge.
  - by eapply async_decrement_distributed_counter.
  - by eapply async_rpc_perform_finalize.
  - by eapply async_decrement_finalize_counter.
  - by eapply async_inv_frame.
Qed.

Lemma async_engine_run keys st st' :
  async_inv n np keys st -> rtc engine_step st st' -> async_inv n np keys st'.
Proof.
  intros Hinv Hrun. induction Hrun as [|st st1 st2 Hstep _ IH]; [done|].
  apply IH. by eapply async_engine_step.
Qed.

End AsyncBounds.

Lemma arm_async_state_registered n np (reg : gmap string reducer) periods m m' :
  arm_async_state n np reg periods m = Done m' ->
  forall k, k ∈ periods.*1 -> is_Some (reg !! k).
Proof.
  revert m. induction periods as [|[k0 p0] periods IH]; intros m.
  - intros _ k Hk. by apply elem_of_nil in Hk.
  - rewrite arm_async_state_cons. cbn [fst].
    destruct (reg !! k0) as [mr|] eqn:Ereg; [|done].
    intros Hrun k. change (((k0, p0) :: periods).*1) with (k0 :: periods.*1).
    intros [->|Hk]%elem_of_cons; [by eexists|]. by eapply IH.
Qed.

Lemma entry_ok_new n np mr :
  (0 < n)%nat -> Z.of_nat n <= INT_MAX ->
  (0 < np)%nat -> Z.of_nat np <= INT_MAX ->
  entry_ok n np (new_async_aggregator_state n np mr).
Proof.
  intros Hn Hn' Hnp Hnp'. unfold entry_ok, new_async_aggregator_state. simpl.
  rewrite !to_int_small by (unfold INT_MAX in *; lia).
  rewrite length_replicate. lia.
Qed.

(** C6.  Let [start(ncpus)] with [ncpus > 0] run on a machine whose async
    state, if any, belongs to periodic keys, and let any sequence of legal
    calls follow: [tick_asynchronous_compute], [rpc_key_merge], the two
    countdown steps and the others.  Then every periodic key has async
    state in which the local countdown lies in [0, ncpus], the distributed
    countdown in [0, numprocs], and the per-thread vector has [ncpus]
    entries.  ([ncpus] and [numprocs] fit in an [int].) *)
Theorem async_state_within_bounds n now st0 st1 st :
  (0 < n)%nat -> Z.of_nat n <= INT_MAX ->
  (0 < numprocs st0)%nat -> Z.of_nat (numprocs st0) <= INT_MAX ->
  (forall k, is_Some (async_state st0 !! k) ->
             is_Some (aggregate_period st0 !! k)) ->
  start n now st0 = Done st1 ->
  rtc engine_step st1 st ->
  ncpus st = n /\ numprocs st = numprocs st0 /\
  forall k, is_Some (aggregate_period st0 !! k) ->
    exists a,
      async_state st !! k = Some a /\
      0 <= local_count_down a <= Z.of_nat (ncpus st) /\
      0 <= distributed_count_down a <= Z.of_nat (numprocs st) /\
      length (per_thread_aggregation a) = ncpus st.
Proof.
  intros Hn Hn' Hnp Hnp' Hold Hstart Hrun.
  assert (Hinv1 : async_inv n (numprocs st0) (aggregate_period st0) st1).
  { unfold start in Hstart. simpl in Hstart.
    apply Nat.ltb_lt in Hn as Hn1. rewrite Hn1 in Hstart.
    destruct (arm_async_state n (numprocs st0) (aggregators st0)
                (map_to_list (aggregate_period st0)) (async_state st0))
      as [m| |] eqn:Harm; simpl in Hstart; [|done..].
    injection Hstart as <-. split; [done|]. split; [done|]. simpl. split.
    - intros k Hk. rewrite (arm_async_state_lookup _ _ _ _ _ _ Harm k).
      apply elem_of_period_keys in Hk as Hin.
      rewrite decide_True by done. apply fmap_is_Some.
      by eapply arm_async_state_registered.
    - intros k a. rewrite (arm_async_state_lookup _ _ _ _ _ _ Harm k).
      destruct (decide (k ∈ (map_to_list (aggregate_period st0)).*1)) as [Hin|Hin].
      + destruct (aggregators st0 !! k) as [mr|]; simpl; [|done].
        intros [= <-]. by apply entry_ok_new.
      + intros Ha. exfalso. apply Hin. apply elem_of_period_keys.
        apply Hold. by eexists. }
  pose proof (async_engine_run n _ Hn' Hnp' _ _ _ Hinv1 Hrun)
    as (Hncpus & Hnumprocs & Hdom & Hent).
  split; [done|]. split; [done|].
  intros k Hk. destruct (Hdom k Hk) as [a Ha]. exists a. split; [done|].
  destruct (Hent k a Ha) as (Hl & Hd & Hlen).
  rewrite Hncpus, Hnumprocs. repeat split; try done; lia.
Qed.

(** *** The sum that aggregate_now delivers *)

Section Sums.

Context `{!SummableLaws T}.

Lemma wrapper_add_None_l (a : option T) : wrapper_add None a = a.
Proof. by destruct a. Qed.

Lemma wrapper_add_None_r (a : option T) : wrapper_add a None = a.
Proof. by destruct a. Qed.

Lemma wrapper_add_assoc (a b c : option T) :
  wrapper_add a (wrapper_add b c) = wrapper_add (wrapper_add a b) c.
Proof. destruct a, b, c; simpl; try done. by rewrite sum_add_assoc. Qed.

Lemma wrapper_add_comm (a b : option T) : wrapper_add a b = wrapper_add b a.
Proof. destruct a, b; simpl; try done. by rewrite sum_add_comm. Qed.

Lemma wrapper_add_value_add (a : option T) t :
  wrapper_add_value a t = wrapper_add a (Some t).
Proof. by destruct a. Qed.

Lemma foldl_wrapper_add_value (l : list T) (a : option T) :
  foldl wrapper_add_value a l = wrapper_add a (wrapper_sum l).
Proof.
  unfold wrapper_sum. revert a. induction l as [|x l IH]; intros a; simpl.
  - by rewrite wrapper_add_None_r.
  - rewrite IH, (IH (Some x)), wrapper_add_assoc.
    by rewrite wrapper_add_value_add.
Qed.

Lemma wrapper_sum_cons x (l : list T) :
  wrapper_sum (x :: l) = wrapper_add (Some x) (wrapper_sum l).
Proof. unfold wrapper_sum at 1. simpl. apply foldl_wrapper_add_value. Qed.

Lemma wrapper_sum_app (l1 l2 : list T) :
  wrapper_sum (l1 ++ l2) = wrapper_add (wrapper_sum l1) (wrapper_sum l2).
Proof.
  unfold wrapper_sum at 1. rewrite foldl_app.
  fold (wrapper_sum l1). apply foldl_wrapper_add_value.
Qed.

Lemma wrapper_sum_Permutation (l1 l2 : list T) :
  l1 ≡ₚ l2 -> wrapper_sum l1 = wrapper_sum l2.
Proof.
  induction 1 as [|x l1 l2 _ IH|x y l|l1 l2 l3 _ IH1 _ IH2].
  - done.
  - by rewrite !wrapper_sum_cons, IH.
  - rewrite !wrapper_sum_cons, !wrapper_add_assoc.
    by rewrite (wrapper_add_comm (Some y)).
  - by rewrite IH1.
Qed.

(** The loops of one thread. *)

Lemma map_owned_vertex_eq p ctx lv mr f :
  map_fn mr = map_vtx_function f ->
  map_owned_vertex p ctx lv mr =
    if (owner lv =? p)%nat
    then set_acc (wrapper_add_value (acc mr) (f ctx (lv_vertex lv))) mr
    else mr.
Proof.
  intros Hf. unfold map_owned_vertex, perform_map_vertex. by rewrite Hf.
Qed.

Lemma perform_map_edge_eq ctx e mr f :
  map_fn mr = map_edge_function f ->
  perform_map_edge ctx e mr = set_acc (wrapper_add_value (acc mr) (f ctx e)) mr.
Proof. intros Hf. unfold perform_map_edge. by rewrite Hf. Qed.

Lemma vertex_loop_acc team t p ctx f (g : graph_type) :
  forall i mr,
    map_fn mr = map_vtx_function f ->
    map_fn (for_each_local_vertex
              (fun i lv m =>
                 if (omp_for team i =? t)%nat
                 then map_owned_vertex p ctx lv m else m) i g mr)
      = map_vtx_function f /\
    acc (for_each_local_vertex
           (fun i lv m =>
              if (omp_for team i =? t)%nat
              then map_owned_vertex p ctx lv m else m) i g mr)
      = wrapper_add (acc mr)
          (wrapper_sum (f ctx <$> thread_vertices team t p i g)).
Proof.
  induction g as [|lv g IH]; intros i mr Hf; simpl.
  - by rewrite wrapper_add_None_r.
  - rewrite (map_owned_vertex_eq p ctx lv mr f Hf).
    destruct (omp_for team i =? t)%nat, (owner lv =? p)%nat; simpl;
      try (by apply IH).
    destruct (IH (S i)
                (set_acc (wrapper_add_value (acc mr) (f ctx (lv_vertex lv))) mr))
      as [Hmap Hacc]; [done|].
    split; [done|]. rewrite Hacc. simpl.
    by rewrite wrapper_sum_cons, wrapper_add_assoc, wrapper_add_value_add.
Qed.

Lemma in_edges_loop_acc ctx f (es : list edge_type) :
  forall mr,
    map_fn mr = map_edge_function f ->
    map_fn (foldl (fun m e => perform_map_edge ctx e m) mr es)
      = map_edge_function f /\
    acc (foldl (fun m e => perform_map_edge ctx e m) mr es)
      = wrapper_add (acc mr) (wrapper_sum (f ctx <$> es)).
Proof.
  induction es as [|e es IH]; intros mr Hf; simpl.
  - by rewrite wrapper_add_None_r.
  - rewrite (perform_map_edge_eq ctx e mr f Hf).
    destruct (IH (set_acc (wrapper_add_value (acc mr) (f ctx e)) mr))
      as [Hmap Hacc]; [done|].
    split; [done|]. rewrite Hacc. simpl.
    by rewrite wrapper_sum_cons, wrapper_add_assoc, wrapper_add_value_add.
Qed.

Lemma edge_loop_acc ctx f (g : graph_type) :
  forall i mr,
    map_fn mr = map_edge_function f ->
    map_fn (for_each_local_vertex
              (fun _ lv m => map_in_edges ctx lv m) i g mr)
      = map_edge_function f /\
    acc (for_each_local_vertex
           (fun _ lv m => map_in_edges ctx lv m) i g mr)
      = wrapper_add (acc mr) (wrapper_sum (f ctx <$> (g ≫= in_edges))).
Proof.
  induction g as [|lv g IH]; intros i mr Hf; simpl.
  - by rewrite wrapper_add_None_r.
  - change (map_in_edges ctx lv mr)
      with (foldl (fun m e => perform_map_edge ctx e m) mr (in_edges lv)).
    destruct (in_edges_loop_acc ctx f (in_edges lv) mr Hf) as [Hmap Hacc].
    destruct (IH (S i) _ Hmap) as [Hmap' Hacc'].
    split; [done|]. rewrite Hacc', Hacc.
    by rewrite fmap_app, wrapper_sum_app, wrapper_add_assoc.
Qed.

Lemma thread_body_acc team t mr st :
  acc (thread_body team t mr st) = wrapper_sum (thread_elements team t mr st).
Proof.
  unfold thread_body, thread_elements, is_vertex_map.
  change (map_fn (clone_empty mr)) with (map_fn mr).
  destruct (map_fn mr) as [f|f] eqn:Hf.
  - destruct (vertex_loop_acc team t (procid st) (context st) f (graph st)
                0%nat (clone_empty mr) Hf) as [_ ->].
    apply wrapper_add_None_l.
  - destruct (edge_loop_acc (context st) f (graph st) 0%nat (clone_empty mr) Hf)
      as [_ ->].
    apply wrapper_add_None_l.
Qed.

Lemma critical_sections_acc team mr st (order : list nat) :
  forall m0,
    acc (foldl (fun m t => add_accumulator (thread_body team t mr st) m) m0 order)
    = wrapper_add (acc m0)
        (wrapper_sum (order ≫= fun t => thread_elements team t mr st)).
Proof.
  induction order as [|t order IH]; intros m0; simpl.
  - by rewrite wrapper_add_None_r.
  - rewrite IH. simpl. rewrite thread_body_acc.
    by rewrite wrapper_sum_app, wrapper_add_assoc.
Qed.

Lemma parallel_region_acc team mr st :
  acc (parallel_region team (clear_accumulator mr) st)
  = wrapper_sum
      (critical_order team ≫= fun t => thread_elements team t mr st).
Proof.
  unfold parallel_region. rewrite critical_sections_acc.
  exact (wrapper_add_None_l _).
Qed.

(** Sharing the iterations among the threads. *)

Lemma bind_app_fun {A B} (X Y : A -> list B) (l : list A) :
  l ≫= (fun t => X t ++ Y t) ≡ₚ (l ≫= X) ++ (l ≫= Y).
Proof.
  induction l as [|a l IH]; [done|].
  rewrite !bind_cons, IH. rewrite <- !(assoc_L (++)). apply Permutation_app_head.
  rewrite !(assoc_L (++)). apply Permutation_app_tail. apply Permutation_app_comm.
Qed.

Lemma bind_fmap_fun {A B C} (f : B -> C) (X : A -> list B) (l : list A) :
  l ≫= (fun t => f <$> X t) = f <$> (l ≫= X).
Proof.
  induction l as [|a l IH]; [done|].
  by rewrite !bind_cons, fmap_app, IH.
Qed.

Lemma bind_select {B} (c : nat) (b : bool) (x : list B) (s k : nat) :
  seq s k ≫= (fun t => if (c =? t)%nat && b then x else []) =
  if b && bool_decide (s <= c < s + k)%nat then x else [].
Proof.
  revert s. induction k as [|k IH]; intros s.
  - simpl. rewrite bool_decide_eq_false_2 by lia. by rewrite andb_false_r.
  - change (seq s (S k)) with (s :: seq (S s) k). rewrite bind_cons, IH.
    destruct b; [|by rewrite !andb_false_r].
    rewrite andb_true_r. rewrite !andb_true_l.
    destruct (Nat.eqb_spec c s) as [->|Hne].
    + rewrite bool_decide_eq_false_2 by lia.
      rewrite bool_decide_eq_true_2 by lia. by rewrite app_nil_r.
    + simpl. destruct (decide (S s <= c < S s + k)%nat).
      * by rewrite !bool_decide_eq_true_2 by lia.
      * by rewrite !bool_decide_eq_false_2 by lia.
Qed.

Lemma thread_vertices_all team p threads
    (g : list (@local_vertex_type vertex_type edge_type)) :
  (forall i, omp_for team i < threads)%nat ->
  forall i,
    seq 0 threads ≫= (fun t => thread_vertices team t p i g)
    ≡ₚ lv_vertex <$> filter (fun lv => owner lv = p) g.
Proof.
  intros Hteam. induction g as [|lv g IH]; intros i.
  - simpl. induction (seq 0 threads) as [|t l IHl]; [done|].
    by rewrite bind_cons.
  - simpl. rewrite bind_app_fun, IH, bind_select.
    rewrite bool_decide_eq_true_2 by (specialize (Hteam i); lia).
    rewrite andb_true_r, filter_cons.
    destruct (Nat.eqb_spec (owner lv) p) as [Ho|Ho].
    + by rewrite decide_True.
    + by rewrite decide_False.
Qed.

(** With a well-formed team a vertex reduction maps every owned vertex
    once, whatever the number of threads. *)
Lemma vertex_region_elements team mr st f :
  team_ok team ->
  map_fn mr = map_vtx_function f ->
  critical_order team ≫= (fun t => thread_elements team t mr st)
  ≡ₚ mapped_elements mr st.
Proof.
  intros [Hfor Horder] Hf. rewrite Horder.
  unfold thread_elements, mapped_elements, owned_vertices. rewrite Hf.
  rewrite bind_fmap_fun. apply fmap_Permutation.
  by apply thread_vertices_all.
Qed.

(** An edge reduction maps every stored in-edge once for each thread
    that passes the critical section. *)
Lemma edge_region_elements team mr st f :
  map_fn mr = map_edge_function f ->
  critical_order team ≫= (fun t => thread_elements team t mr st)
  = critical_order team ≫= (fun _ => mapped_elements mr st).
Proof.
  intros Hf. unfold thread_elements, mapped_elements. by rewrite Hf.
Qed.

(** The local sum of a machine: with a well-formed team, for a vertex
    reduction or for a team of one thread, it is the sum of the map
    function over the elements of the machine. *)
Lemma local_reduction_acc team key st mr :
  aggregators st !! key = Some mr ->
  team_ok team ->
  is_vertex_map mr = true \/ num_threads team = 1%nat ->
  exists mr',
    local_reduction team key st = Done mr' /\
    acc mr' = wrapper_sum (mapped_elements mr st).
Proof.
  intros Hmr Hteam Hkind. unfold local_reduction. rewrite Hmr.
  eexists. split; [done|]. rewrite parallel_region_acc.
  unfold is_vertex_map in Hkind.
  destruct (map_fn mr) as [f|f] eqn:Hf.
  - apply wrapper_sum_Permutation. by eapply vertex_region_elements.
  - destruct Hkind as [|Hone]; [done|].
    rewrite (edge_region_elements team mr st f Hf).
    destruct Hteam as [_ Horder]. rewrite Hone in Horder.
    apply Permutation_singleton_r in Horder. rewrite Horder.
    by rewrite bind_singleton.
Qed.

(** The combine on machine 0. *)

Lemma gathered_sum teams key (ms : list machine) p :
  cluster_ready teams key ms ->
  gathered teams key ms p =
    wrapper_sum (from_option (machine_elements key) [] (ms !! p)).
Proof.
  intros Hready. unfold gathered.
  destruct (ms !! p) as [st|] eqn:Hst; [|done].
  destruct (Hready p st Hst) as (_ & _ & Hteam & mr & Hmr & Hkind).
  destruct (local_reduction_acc (teams p) key st mr Hmr Hteam Hkind)
    as (mr' & -> & Hacc).
  simpl. unfold machine_elements. by rewrite Hmr.
Qed.

Lemma combine_gathered_acc (G : nat -> any) (L : nat -> list T) (l : list nat) :
  (forall i, G i = wrapper_sum (L i)) ->
  forall m0 : reducer,
    acc (foldl (fun m i => add_accumulator_any (G i) m) m0 l)
    = wrapper_add (acc m0) (wrapper_sum (l ≫= L)).
Proof.
  intros HG. induction l as [|i l IH]; intros m0; simpl.
  - by rewrite wrapper_add_None_r.
  - rewrite IH. simpl. by rewrite HG, wrapper_sum_app, wrapper_add_assoc.
Qed.

Lemma bind_seq_lookup {A B} (F : option A -> list B) (l : list A) :
  forall pre : list A,
    seq (length pre) (length l) ≫= (fun i => F ((pre ++ l) !! i))
    = l ≫= (fun x => F (Some x)).
Proof.
  induction l as [|x l IH]; intros pre; [done|].
  change (seq (length pre) (length (x :: l)))
    with (length pre :: seq (S (length pre)) (length l)).
  rewrite !bind_cons. rewrite list_lookup_middle by done.
  f_equal. specialize (IH (pre ++ [x])).
  rewrite length_app in IH. simpl in IH.
  rewrite Nat.add_1_r in IH. rewrite <- IH.
  apply list_bind_ext; [|done]. intros i.
  by rewrite <- (assoc_L (++)).
Qed.

Lemma root_combine_acc teams key (ms : list machine) st0 rest mr0 bval :
  ms = st0 :: rest ->
  cluster_ready teams key ms ->
  local_reduction (teams 0%nat) key st0 = Done mr0 ->
  acc (global_combine
         {| gathervec := gathered teams key ms; broadcast_val := bval |}
         st0 mr0)
  = wrapper_sum (ms ≫= machine_elements key).
Proof.
  intros Hms Hready Hlocal.
  assert (Hst0 : ms !! 0%nat = Some st0) by by rewrite Hms.
  destruct (Hready 0%nat st0 Hst0) as (Hp & Hnp & Hteam & mr & Hmr & Hkind).
  destruct (local_reduction_acc (teams 0%nat) key st0 mr Hmr Hteam Hkind)
    as (mr' & Hlocal' & Hacc).
  rewrite Hlocal in Hlocal'. injection Hlocal' as <-.
  unfold global_combine. rewrite Hp. simpl.
  rewrite (combine_gathered_acc _
             (fun i => from_option (machine_elements key) [] (ms !! i)))
    by (intros i; by apply gathered_sum).
  rewrite Hacc, <- wrapper_sum_app. f_equal.
  rewrite Hnp. subst ms.
  replace (length (st0 :: rest) - 1)%nat with (length rest) by (simpl; lia).
  rewrite bind_cons. f_equal.
  - unfold machine_elements. by rewrite Hmr.
  - apply (bind_seq_lookup (from_option (machine_elements key) []) rest [st0]).
Qed.

(** Every machine hands its finalizer the sum over the whole cluster. *)
Lemma cluster_delivers teams key (ms : list machine) p st :
  cluster_ready teams key ms ->
  ms !! p = Some st ->
  delivered_value (teams p)
    {| gathervec := gathered teams key ms;
       broadcast_val := broadcast_from_root teams key ms |} key st
  = Done (wrapper_value (wrapper_sum (ms ≫= machine_elements key))).
Proof.
  intros Hready Hst.
  destruct ms as [|st0 rest] eqn:Hms; [done|]. rewrite <- Hms in *.
  assert (Hst0 : ms !! 0%nat = Some st0) by by rewrite Hms.
  destruct (Hready 0%nat st0 Hst0) as (Hp0 & _ & Hteam0 & mr0 & Hmr0 & Hkind0).
  destruct (local_reduction_acc (teams 0%nat) key st0 mr0 Hmr0 Hteam0 Hkind0)
    as (mr0' & Hlocal0 & _).
  destruct (Hready p st Hst) as (Hp & _ & Hteam & mr & Hmr & Hkind).
  destruct (local_reduction_acc (teams p) key st mr Hmr Hteam Hkind)
    as (mr' & Hlocal & _).
  unfold delivered_value. rewrite Hlocal. simpl. do 2 f_equal.
  destruct p as [|p].
  - rewrite Hst0 in Hst. injection Hst as <-.
    by eapply root_combine_acc.
  - unfold global_combine at 1. rewrite Hp. simpl.
    unfold broadcast_from_root. rewrite Hst0, Hlocal0.
    by eapply root_combine_acc.
Qed.

Lemma aggregate_now_delivered team cin key st mr v :
  aggregators st !! key = Some mr ->
  delivered_value team cin key st = Done v ->
  exists st',
    aggregate_now team cin key st = Done st' /\
    context st' = finalize_function mr (context st) v.
Proof.
  unfold delivered_value, aggregate_now, local_reduction. intros ->. simpl.
  intros [= <-]. eexists. split; [done|]. simpl. unfold finalize.
  pose proof (clear_global_combine cin st
                (parallel_region team (clear_accumulator mr) st)) as Hc.
  rewrite clear_parallel_region in Hc.
  assert (Hfin :
    finalize_function
      (global_combine cin st (parallel_region team (clear_accumulator mr) st))
    = finalize_function mr) by (by injection Hc).
  by rewrite Hfin.
Qed.

Lemma bind_ext_elem {A B} (F G : A -> list B) (l : list A) :
  (forall x, x ∈ l -> F x = G x) -> l ≫= F = l ≫= G.
Proof.
  induction l as [|x l IH]; intros Hext; [done|].
  rewrite !bind_cons, (Hext x) by apply list_elem_of_here.
  f_equal. apply IH. intros y Hy. apply Hext. by apply list_elem_of_further.
Qed.

(** For a vertex reduction, every partitioning, every machine count and
    every well-formed team give each finalizer the single-threaded fold
    over the vertices of the graph. *)
Theorem aggregate_now_vertex_fold V E c f teams key (ms : list machine) :
  partitions V E ms ->
  (forall p, team_ok (teams p)) ->
  (forall st, st ∈ ms ->
     context st = c /\
     exists mr, aggregators st !! key = Some mr /\
                map_fn mr = map_vtx_function f) ->
  forall p st, ms !! p = Some st ->
    exists st' mr,
      aggregate_now_all teams key ms !! p = Some (Done st') /\
      aggregators st !! key = Some mr /\
      context st' = finalize_function mr (context st) (reference_fold (f c) V).
Proof.
  intros (Hrmi & HV & _) Hteams Hreg p st Hst.
  assert (Hready : cluster_ready teams key ms).
  { intros q sq Hsq. destruct (Hrmi q sq Hsq) as [Hq Hn].
    destruct (Hreg sq) as (_ & mr & Hmr & Hf);
      [by eapply list_elem_of_lookup_2|].
    split; [done|]. split; [done|]. split; [apply Hteams|].
    exists mr. split; [done|]. left.
    unfold is_vertex_map. by rewrite Hf. }
  destruct (Hreg st) as (Hc & mr & Hmr & Hf); [by eapply list_elem_of_lookup_2|].
  pose proof (cluster_delivers teams key ms p st Hready Hst) as Hdel.
  destruct (aggregate_now_delivered _ _ _ _ _ _ Hmr Hdel) as (st' & Hrun & Hctx).
  exists st', mr. split; [|split; [done|]].
  - unfold aggregate_now_all. rewrite list_lookup_imap, Hst. simpl. by rewrite Hrun.
  - rewrite Hctx. do 2 f_equal. unfold reference_fold. f_equal.
    apply wrapper_sum_Permutation.
    rewrite (bind_ext_elem _ (fun st => f c <$> owned_vertices st)).
    + rewrite bind_fmap_fun. by apply fmap_Permutation.
    + intros sq Hsq. destruct (Hreg sq Hsq) as (Hcq & mrq & Hmrq & Hfq).
      unfold machine_elements, mapped_elements. by rewrite Hmrq, Hfq, Hcq.
Qed.

(** For an edge reduction the same holds when every team has one
    thread. *)
Theorem aggregate_now_edge_fold_one_thread V E c f teams key (ms : list machine) :
  partitions V E ms ->
  (forall p, team_ok (teams p) /\ num_threads (teams p) = 1%nat) ->
  (forall st, st ∈ ms ->
     context st = c /\
     exists mr, aggregators st !! key = Some mr /\
                map_fn mr = map_edge_function f) ->
  forall p st, ms !! p = Some st ->
    exists st' mr,
      aggregate_now_all teams key ms !! p = Some (Done st') /\
      aggregators st !! key = Some mr /\
      context st' = finalize_function mr (context st) (reference_fold (f c) E).
Proof.
  intros (Hrmi & _ & HE) Hteams Hreg p st Hst.
  assert (Hready : cluster_ready teams key ms).
  { intros q sq Hsq. destruct (Hrmi q sq Hsq) as [Hq Hn].
    destruct (Hreg sq) as (_ & mr & Hmr & Hf);
      [by eapply list_elem_of_lookup_2|].
    destruct (Hteams q) as [Hteam Hone].
    split; [done|]. split; [done|]. split; [done|].
    exists mr. by split; [|right]. }
  destruct (Hreg st) as (Hc & mr & Hmr & Hf); [by eapply list_elem_of_lookup_2|].
  pose proof (cluster_delivers teams key ms p st Hready Hst) as Hdel.
  destruct (aggregate_now_delivered _ _ _ _ _ _ Hmr Hdel) as (st' & Hrun & Hctx).
  exists st', mr. split; [|split; [done|]].
  - unfold aggregate_now_all. rewrite list_lookup_imap, Hst. simpl. by rewrite Hrun.
  - rewrite Hctx. do 2 f_equal. unfold reference_fold. f_equal.
    apply wrapper_sum_Permutation.
    rewrite (bind_ext_elem _ (fun st => f c <$> stored_in_edges st)).
    + rewrite bind_fmap_fun. by apply fmap_Permutation.
    + intros sq Hsq. destruct (Hreg sq Hsq) as (Hcq & mrq & Hmrq & Hfq).
      unfold machine_elements, mapped_elements. by rewrite Hmrq, Hfq, Hcq.
Qed.

End Sums.

(** ** Further properties of the code *)

(** *** Registration *)

(** X1.  [aggregate_periodic] returns true exactly when the period is not
    negative and the key is registered.  On true only the period of the
    key is set (an earlier period is replaced); on false nothing has
    changed. *)
Theorem aggregate_periodic_result key seconds st :
  ((aggregate_periodic key seconds st).2 = true <->
     0 <= seconds /\ is_Some (aggregators st !! key)) /\
  (aggregate_periodic key seconds st).1 =
    (if (aggregate_periodic key seconds st).2
     then set_aggregate_period (<[key := seconds]> (aggregate_period st)) st
     else st) /\
  ((aggregate_periodic key seconds st).2 = true ->
     aggregate_period (aggregate_periodic key seconds st).1 !! key = Some seconds).
Proof.
  unfold aggregate_periodic.
  destruct (Z.ltb_spec seconds 0) as [Hneg|Hpos]; simpl.
  - split; [|done]. split; [done|]. intros [? _]. lia.
  - destruct (aggregators st !! key) as [mr|] eqn:E; simpl.
    + split; [|split; [done|]].
      * split; [|done]. intros _. split; [done|by eexists].
      * intros _. by rewrite lookup_insert_eq.
    + split; [|done]. split; [done|]. by intros [_ [? ?]].
Qed.

Abbreviation fresh_machine :=
  (@new_distributed_aggregator T vertex_type edge_type icontext_type).

Lemma registered_only_new p n (g : list (@local_vertex_type vertex_type edge_type)) (c : icontext_type) t :
  registered_only (fresh_machine p n g c t) /\
  aggregators (fresh_machine p n g c t) !! EmptyString = None.
Proof.
  split; [|done]. split; [done|]. split; [done|]. split.
  - intros k mr Hk. simpl in Hk. by rewrite lookup_empty in Hk.
  - intros k q Hk. simpl in Hk. by rewrite lookup_empty in Hk.
Qed.

Lemma registration_step_registered_only st st' :
  registered_only st /\ aggregators st !! EmptyString = None ->
  registration_step st st' ->
  registered_only st' /\ aggregators st' !! EmptyString = None.
Proof.
  intros [(Hsched & Hasync & Hempty & Hper) Hne] Hstep.
  destruct Hstep as [key f fin st|key f fin st|key seconds st].
  - unfold add_vertex_aggregator. destruct key as [|ch key]; simpl; [done|].
    destruct (aggregators st !! String ch key) eqn:E; simpl; [done|].
    split; [|by rewrite lookup_insert_ne].
    split; [done|]. split; [done|]. split; simpl.
    + intros k mr [[_ <-]|[_ Hk]]%lookup_insert_Some; [done|by eapply Hempty].
    + intros k q Hk. destruct (Hper k q Hk) as [Hq Hreg]. split; [done|].
      apply lookup_insert_is_Some'. by right.
  - unfold add_edge_aggregator. destruct key as [|ch key]; simpl; [done|].
    destruct (aggregators st !! String ch key) eqn:E; simpl; [done|].
    split; [|by rewrite lookup_insert_ne].
    split; [done|]. split; [done|]. split; simpl.
    + intros k mr [[_ <-]|[_ Hk]]%lookup_insert_Some; [done|by eapply Hempty].
    + intros k q Hk. destruct (Hper k q Hk) as [Hq Hreg]. split; [done|].
      apply lookup_insert_is_Some'. by right.
  - unfold aggregate_periodic.
    destruct (Z.ltb_spec seconds 0) as [Hneg|Hpos]; simpl; [done|].
    destruct (aggregators st !! key) as [mr|] eqn:E; simpl; [|done].
    split; [|done]. split; [done|]. split; [done|]. split; simpl; [done|].
    intros k q [[<- <-]|[_ Hk]]%lookup_insert_Some; [|by apply Hper].
    split; [done|by eexists].
Qed.

Lemma registration_run_registered_only st st' :
  registered_only st /\ aggregators st !! EmptyString = None ->
  rtc registration_step st st' ->
  registered_only st' /\ aggregators st' !! EmptyString = None.
Proof.
  intros Hinv Hrun. induction Hrun as [|sa sb sc Hstep _ IH]; [done|].
  apply IH. by eapply registration_step_registered_only.
Qed.

(** X2.  Whatever registration calls are made on a newly constructed
    aggregator, in whatever order and whether they succeed or not: every
    key with a period is registered and its period is not negative, the
    empty key is never registered, every sum is empty, and [start]
    returns for every number of threads. *)
Theorem registration_keeps_tables_consistent p n (g : list (@local_vertex_type vertex_type edge_type))
    (c : icontext_type) t st :
  rtc registration_step (fresh_machine p n g c t) st ->
  registered_only st /\
  aggregators st !! EmptyString = None /\
  forall cpus now, exists st', start cpus now st = Done st'.
Proof.
  intros Hrun.
  assert (Hinv : registered_only st /\ aggregators st !! EmptyString = None).
  { eapply registration_run_registered_only; [|exact Hrun].
    apply registered_only_new. }
  destruct Hinv as [Hreg Hne]. split; [done|]. split; [done|].
  intros cpus now. destruct Hreg as (_ & _ & _ & Hper).
  destruct (start_returns cpus now st) as (st' & Hstart & _).
  - intros k [q Hk]. by apply (Hper k q).
  - by exists st'.
Qed.

(** *** stop *)

Lemma fmap_clear_clear (m : gmap string reducer) :
  clear_accumulator <$> (clear_accumulator <$> m) = clear_accumulator <$> m.
Proof.
  apply map_eq. intros k. rewrite !lookup_fmap.
  by destruct (m !! k).
Qed.

(** X3.  [stop] runs no finalizer and does not touch the clock offset or
    [ncpus]; a second [stop] changes nothing. *)
Theorem stop_idempotent st :
  stop (stop st) = stop st /\
  context (stop st) = context st /\
  start_time (stop st) = start_time st /\
  ncpus (stop st) = ncpus st.
Proof.
  split; [|done]. unfold stop, set_async_state, set_aggregators, set_schedule.
  simpl. by rewrite fmap_clear_clear.
Qed.

(** *** Misuse of the asynchronous driver *)

(** X4.  The entry points of the asynchronous driver stop the process
    when they are used wrongly: all four remote entry points on a key
    without async state; [decrement_distributed_counter] and
    [rpc_key_merge] on a machine other than 0; [rpc_perform_finalize] on
    machine 0; and [tick_asynchronous_compute] with a thread number that
    is not below the size of the per-thread vector. *)
Theorem asynchronous_misuse_is_fatal now cpuid key (a_in : @any T) st :
  (async_state st !! key = None ->
     rpc_key_merge now key a_in st = Fatal /\
     decrement_distributed_counter now key st = Fatal /\
     rpc_perform_finalize key a_in st = Fatal /\
     decrement_finalize_counter now key st = Fatal) /\
  (procid st <> 0%nat ->
     decrement_distributed_counter now key st = Fatal /\
     rpc_key_merge now key a_in st = Fatal) /\
  (procid st = 0%nat -> rpc_perform_finalize key a_in st = Fatal) /\
  (forall a, async_state st !! key = Some a ->
     (length (per_thread_aggregation a) <= cpuid)%nat ->
     tick_asynchronous_compute now cpuid key st = Fatal).
Proof.
  split; [|split; [|split]].
  - intros Hnone.
    unfold rpc_key_merge, decrement_distributed_counter, rpc_perform_finalize,
      decrement_finalize_counter, assertion.
    rewrite Hnone. repeat split; try done.
    + by destruct (procid st =? 0)%nat.
    + by destruct (negb (procid st =? 0)%nat).
  - intros Hp. apply Nat.eqb_neq in Hp.
    unfold rpc_key_merge, decrement_distributed_counter, assertion.
    rewrite Hp. split; [done|].
    destruct (async_state st !! key); [|done].
    change (procid (put_async _ _ st)) with (procid st). by rewrite Hp.
  - intros Hp. unfold rpc_perform_finalize, assertion. by rewrite Hp.
  - intros a Ha Hlen. unfold tick_asynchronous_compute. rewrite Ha.
    by rewrite (proj2 (lookup_ge_None _ _) Hlen).
Qed.

(** X5.  [start(0)] builds no async state: on a machine that had none,
    every later [tick_asynchronous_compute] stops at its first
    assertion. *)
Theorem start_without_threads_has_no_async_state now st0 st1 :
  async_state st0 = ∅ ->
  start 0 now st0 = Done st1 ->
  async_state st1 = ∅ /\
  forall now' cpuid key, tick_asynchronous_compute now' cpuid key st1 = Fatal.
Proof.
  intros Hasync. unfold start. simpl. intros [= <-]. simpl.
  split; [done|]. intros now' cpuid key. unfold tick_asynchronous_compute.
  simpl. by rewrite Hasync, lookup_empty.
Qed.

(** *** What aggregate_now touches *)

(** X6.  An [aggregate_now] that returns ran the finalizer of the key
    once, on the value delivered, and left the accumulator of the key
    empty; every other descriptor, the period table, the schedule, the
    async state and the remaining members are as before. *)
Theorem aggregate_now_touches_only_key team cin key st st' :
  aggregate_now team cin key st = Done st' ->
  (exists mr v,
     aggregators st !! key = Some mr /\
     delivered_value team cin key st = Done v /\
     context st' = finalize_function mr (context st) v /\
     aggregators st' !! key = Some (clear_accumulator mr)) /\
  (forall k, k <> key -> aggregators st' !! k = aggregators st !! k) /\
  aggregate_period st' = aggregate_period st /\
  schedule st' = schedule st /\
  async_state st' = async_state st /\
  (procid st', numprocs st', graph st', ncpus st', start_time st')
    = (procid st, numprocs st, graph st, ncpus st, start_time st).
Proof.
  intros Hrun.
  destruct (aggregate_now_inv _ _ _ _ _ Hrun) as (mr & c & Hmr & Hst').
  assert (Hdel : exists v, delivered_value team cin key st = Done v).
  { unfold delivered_value, local_reduction. rewrite Hmr. by eexists. }
  destruct Hdel as [v Hv].
  assert (Hfin : context st' = finalize_function mr (context st) v).
  { unfold delivered_value, local_reduction in Hv. rewrite Hmr in Hv.
    simpl in Hv. injection Hv as <-.
    unfold aggregate_now, local_reduction in Hrun. rewrite Hmr in Hrun.
    simpl in Hrun. injection Hrun as <-. simpl. unfold finalize.
    pose proof (clear_global_combine cin st
                  (parallel_region team (clear_accumulator mr) st)) as Hc.
    rewrite clear_parallel_region in Hc.
    assert (Hf :
      finalize_function
        (global_combine cin st (parallel_region team (clear_accumulator mr) st))
      = finalize_function mr) by (by injection Hc).
    by rewrite Hf. }
  subst st'. split; [|split; [|done]].
  - exists mr, v. split; [done|]. split; [done|]. split; [done|].
    simpl. by rewrite lookup_insert_eq.
  - intros k Hk. simpl. by rewrite lookup_insert_ne.
Qed.

(** *** tick_asynchronous *)

(** X7.  [tick_asynchronous] on a schedule that holds each key once.
    Without the lock, or with no entry whose fire time is earlier than the
    clock, it returns the empty string and changes nothing.  With the lock
    and such an entry it returns the key of an entry with the earliest fire
    time and removes exactly that entry, so that no later call returns the
    key until it is scheduled again. *)
Theorem tick_asynchronous_pops_earliest locked now st :
  NoDup (schedule st).*1 ->
  (locked = false -> tick_asynchronous locked now st = (EmptyString, st)) /\
  (due (now - start_time st) (schedule st) = [] ->
     tick_asynchronous locked now st = (EmptyString, st)) /\
  (locked = true -> due (now - start_time st) (schedule st) <> [] ->
     exists key p q,
       tick_asynchronous locked now st = (key, set_schedule q st) /\
       - p < now - start_time st /\
       (forall e, e ∈ schedule st -> - p <= - e.2) /\
       schedule st ≡ₚ (key, p) :: q /\
       key ∉ q.*1).
Proof.
  intros Hnodup. unfold tick_asynchronous. split; [by intros ->|]. split.
  - intros Hnone. destruct locked; [|done]. simpl.
    destruct (mq_top (schedule st)) as [[key p]|] eqn:Etop; [|done].
    destruct (Z.ltb_spec (- p) (now - start_time st)) as [Hlt|]; [|done].
    pose proof (due_pop _ _ _ Etop Hlt) as Hperm. rewrite Hnone in Hperm.
    by apply Permutation_nil_cons in Hperm.
  - intros -> Hsome. simpl.
    destruct (mq_top (schedule st)) as [[key p]|] eqn:Etop.
    + destruct (Z.ltb_spec (- p) (now - start_time st)) as [Hlt|Hge].
      * exists key, p, (mq_pop (schedule st)). split; [done|]. split; [done|].
        pose proof (mq_pop_Permutation _ _ Etop) as Hperm.
        split; [|split; [done|]].
        -- intros e He. pose proof (mq_top_max _ _ _ Etop He). simpl in *. lia.
        -- rewrite Hperm in Hnodup. rewrite fmap_cons in Hnodup.
           by apply NoDup_cons in Hnodup as [? _].
      * by rewrite (due_nil_of_top _ _ _ Etop Hge) in Hsome.
    + apply mq_top_None in Etop. by rewrite Etop in Hsome.
Qed.

(** *** What a call of the asynchronous driver touches *)

Lemma differs_refl key st : differs_only_at key st st.
Proof. unfold differs_only_at. repeat split; auto. Qed.

Lemma differs_trans key st1 st2 st3 :
  differs_only_at key st1 st2 -> differs_only_at key st2 st3 ->
  differs_only_at key st1 st3.
Proof.
  intros (Ha & Hc & Hs & Hk & Hp & Hq & Hq') (Ha' & Hc' & Hs' & Hk' & Hp' & Hr & Hr').
  split; [congruence|]. split; [congruence|]. split.
  { intros k Hne. by rewrite Hs', Hs. }
  split; [auto|]. split.
  { intros k Hne. by rewrite Hp', Hp. }
  split.
  - intros e He. destruct (Hr e He) as [He'|?]; [|by right]. by apply Hq.
  - auto.
Qed.

Lemma differs_put_async key a st : differs_only_at key st (put_async key a st).
Proof.
  unfold differs_only_at, put_async. simpl. repeat split; auto.
  - intros k Hne. by rewrite lookup_insert_ne.
  - intros _. rewrite lookup_insert_eq. by eexists.
Qed.

Lemma differs_set_context key c st : differs_only_at key st (set_context c st).
Proof. unfold differs_only_at. simpl. repeat split; auto. Qed.

Lemma differs_rpc_schedule_key key t st :
  differs_only_at key st (rpc_schedule_key key t st).
Proof.
  unfold differs_only_at, rpc_schedule_key, mq_push. simpl.
  repeat split; auto.
  - intros e [->|He]%elem_of_cons; auto.
  - intros e He. by apply list_elem_of_further.
Qed.

Lemma differs_period_at key st p st' :
  period_at key st = (p, st') -> differs_only_at key st st'.
Proof.
  unfold period_at. destruct (aggregate_period st !! key) eqn:E.
  - intros [= _ <-]. apply differs_refl.
  - intros [= _ <-]. unfold differs_only_at. simpl. repeat split; auto.
    intros k Hne. by rewrite lookup_insert_ne.
Qed.

Ltac differs_steps :=
  repeat first
    [ apply differs_refl
    | eapply differs_trans; [|apply differs_put_async]
    | eapply differs_trans; [|apply differs_set_context]
    | eapply differs_trans; [|apply differs_rpc_schedule_key] ].

Lemma Forall_remote_call_others key st (c : @rpc_call T) :
  call_key c = key ->
  Forall (fun rc => call_key rc.2 = key) (remote_call_others st c).
Proof.
  intros Hc. unfold remote_call_others. apply Forall_fmap.
  by apply Forall_forall.
Qed.

Lemma effect_decrement_finalize_counter now key st st' calls :
  decrement_finalize_counter now key st = Done (st', calls) ->
  differs_only_at key st st' /\
  Forall (fun rc => call_key rc.2 = key) calls.
Proof.
  unfold decrement_finalize_counter.
  destruct (async_state st !! key) as [a|] eqn:Ea; [|done].
  cbv zeta. destruct (atomic_dec (distributed_count_down a) =? 0).
  - match goal with
    | |- context [period_at key ?s] =>
        destruct (period_at key s) as [period s3] eqn:Ep;
        apply differs_period_at in Ep
    end.
    intros [= <- <-]. split; [|by apply Forall_remote_call_others].
    eapply differs_trans; [|apply differs_rpc_schedule_key].
    eapply differs_trans; [|exact Ep]. differs_steps.
  - intros [= <- <-]. split; [differs_steps|done].
Qed.

Lemma effect_decrement_distributed_counter now key st st' calls :
  decrement_distributed_counter now key st = Done (st', calls) ->
  differs_only_at key st st' /\
  Forall (fun rc => call_key rc.2 = key) calls.
Proof.
  unfold decrement_distributed_counter, assertion.
  destruct (procid st =? 0)%nat; [|done].
  destruct (async_state st !! key) as [a|] eqn:Ea; [|done].
  cbv zeta.
  destruct (_ <=? Z.of_nat _); [|done]. destruct (0 <=? _); [|done].
  destruct (atomic_dec (distributed_count_down a) =? 0).
  - match goal with
    | |- context [decrement_finalize_counter now key ?s] =>
        destruct (decrement_finalize_counter now key s) as [[st2 calls2]| |] eqn:Hdfc;
          simpl; [|done..];
        apply effect_decrement_finalize_counter in Hdfc as [Hd Hc]
    end.
    intros [= <- <-]. split.
    + eapply differs_trans; [|exact Hd]. differs_steps.
    + apply Forall_app. split; [by apply Forall_remote_call_others|done].
  - intros [= <- <-]. split; [differs_steps|done].
Qed.

Lemma effect_async_call key st st' calls :
  async_call key st st' calls ->
  differs_only_at key st st' /\
  Forall (fun rc => call_key rc.2 = key) calls.
Proof.
  intros Hcall.
  destruct Hcall as
    [now cpuid st st' calls Hrun | now a_in st st' calls Hrun
    | now st st' calls Hrun | a_in st st' calls Hrun
    | now st st' calls Hrun | next_time st].
  - revert Hrun. unfold tick_asynchronous_compute.
    destruct (async_state st !! key) as [a|] eqn:Ea; [|done].
    destruct (per_thread_aggregation a !! cpuid) as [localmr|]; [|done].
    cbv zeta.
    destruct (stride_loop _ _ _ _ _ _) as [localmr'| |]; simpl; [|done..].
    unfold assertion.
    destruct (_ <? Z.of_nat _); [|done]. destruct (0 <=? _); [|done].
    destruct (atomic_dec _ =? 0).
    + destruct (negb (procid _ =? 0)%nat).
      * intros [= <- <-]. split; [differs_steps|].
        by apply Forall_singleton.
      * intros Hddc. apply effect_decrement_distributed_counter in Hddc as [Hd Hc].
        split; [|done]. eapply differs_trans; [|exact Hd]. differs_steps.
    + intros [= <- <-]. split; [differs_steps|done].
  - revert Hrun. unfold rpc_key_merge.
    destruct (async_state st !! key) as [a|] eqn:Ea; [|done].
    intros Hddc. apply effect_decrement_distributed_counter in Hddc as [Hd Hc].
    split; [|done]. eapply differs_trans; [|exact Hd]. differs_steps.
  - by apply effect_decrement_distributed_counter in Hrun.
  - revert Hrun. unfold rpc_perform_finalize, assertion.
    destruct (negb (procid st =? 0)%nat); [|done].
    destruct (async_state st !! key) as [a|] eqn:Ea; [|done].
    cbv zeta. intros [= <- <-]. split; [differs_steps|].
    by apply Forall_singleton.
  - by apply effect_decrement_finalize_counter in Hrun.
  - split; [apply differs_rpc_schedule_key|done].
Qed.

(** X8.  A call of the asynchronous driver for one key that returns
    leaves the registry and the async state and period of every other key
    as they were, removes no schedule entry and adds entries for its key
    only, and sends remote calls about its key only.  Aggregations of
    different keys therefore do not interfere. *)
Theorem async_calls_are_isolated key st st' calls :
  async_call key st st' calls ->
  aggregators st' = aggregators st /\
  (forall k, k <> key ->
     async_state st' !! k = async_state st !! k /\
     aggregate_period st' !! k = aggregate_period st !! k) /\
  (forall e, e ∈ schedule st -> e ∈ schedule st') /\
  (forall e, e ∈ schedule st' -> e ∈ schedule st \/ e.1 = key) /\
  (forall target c, (target, c) ∈ calls -> call_key c = key).
Proof.
  intros Hcall.
  destruct (effect_async_call _ _ _ _ Hcall)
    as [(Ha & _ & Hs & _ & Hp & Hq & Hq') Hc].
  split; [done|]. split; [by auto|]. split; [done|]. split; [done|].
  intros target c Hin. rewrite Forall_forall in Hc. by apply (Hc (target, c)).
Qed.

(** *** Descriptors are never replaced *)

Lemma registry_kept_refl st : registry_kept st st.
Proof. intros k mr Hk. by exists mr. Qed.

Lemma registry_kept_trans st1 st2 st3 :
  registry_kept st1 st2 -> registry_kept st2 st3 -> registry_kept st1 st3.
Proof.
  intros H12 H23 k mr Hk. destruct (H12 k mr Hk) as (mr2 & Hk2 & Hc2).
  destruct (H23 k mr2 Hk2) as (mr3 & Hk3 & Hc3). exists mr3. split; [done|].
  by rewrite Hc3.
Qed.

Lemma registry_kept_eq st st' :
  aggregators st' = aggregators st -> registry_kept st st'.
Proof. intros Heq k mr Hk. exists mr. by rewrite Heq. Qed.

Lemma registry_kept_aggregate_now team cin key st st' :
  aggregate_now team cin key st = Done st' -> registry_kept st st'.
Proof.
  intros Hrun. destruct (aggregate_now_inv _ _ _ _ _ Hrun) as (mr & c & Hmr & ->).
  intros k mr0 Hk. simpl. destruct (decide (k = key)) as [->|Hne].
  - rewrite lookup_insert_eq. rewrite Hmr in Hk. injection Hk as <-.
    by eexists.
  - rewrite lookup_insert_ne by done. by exists mr0.
Qed.

Lemma registry_kept_registration st st' :
  registration_step st st' -> registry_kept st st'.
Proof.
  intros Hstep. destruct Hstep as [key f fin st|key f fin st|key seconds st].
  - unfold add_vertex_aggregator. destruct (String.length key =? 0)%nat;
      [apply registry_kept_refl|].
    destruct (aggregators st !! key) eqn:E; [apply registry_kept_refl|].
    intros k mr Hk. simpl. exists mr. split; [|done].
    rewrite lookup_insert_ne; [done|]. intros ->. by rewrite E in Hk.
  - unfold add_edge_aggregator. destruct (String.length key =? 0)%nat;
      [apply registry_kept_refl|].
    destruct (aggregators st !! key) eqn:E; [apply registry_kept_refl|].
    intros k mr Hk. simpl. exists mr. split; [|done].
    rewrite lookup_insert_ne; [done|]. intros ->. by rewrite E in Hk.
  - unfold aggregate_periodic. destruct (seconds <? 0); [apply registry_kept_refl|].
    by destruct (aggregators st !! key); apply registry_kept_eq.
Qed.

Lemma registry_kept_aggregate_each env keys :
  forall i st st',
    aggregate_each env i keys st = Done st' -> registry_kept st st'.
Proof.
  induction keys as [|key keys IH]; intros i st st'; simpl.
  - intros [= <-]. apply registry_kept_refl.
  - destruct (aggregate_now _ _ key st) as [st1| |] eqn:Hnow; simpl; [|done..].
    intros Hrest. eapply registry_kept_trans.
    + by eapply registry_kept_aggregate_now.
    + by eapply IH.
Qed.

Lemma registry_kept_tick_synchronous_loop (env : @tick_env T) curtime fuel :
  forall i st st' keys,
    tick_synchronous_loop fuel env curtime i st = Done (st', keys) ->
    registry_kept st st'.
Proof.
  induction fuel as [|fuel IH]; intros i st st' keys; simpl.
  - destruct (mq_top (schedule st)) as [[key priority]|];
      [|intros [= <- _]; apply registry_kept_refl].
    destruct (- priority <? curtime);
      [done|intros [= <- _]; apply registry_kept_refl].
  - destruct (mq_top (schedule st)) as [[key priority]|] eqn:Etop;
      [|intros [= <- _]; apply registry_kept_refl].
    destruct (- priority <? curtime);
      [|intros [= <- _]; apply registry_kept_refl].
    destruct (aggregate_now _ _ key st) as [st1| |] eqn:Hagg; simpl; [|done..].
    apply registry_kept_aggregate_now in Hagg.
    match goal with
    | |- context [period_at key ?s] =>
        destruct (period_at_inv key s) as (per' & -> & _)
    end.
    match goal with
    | |- context [tick_synchronous_loop fuel env curtime (S i) ?s] =>
        destruct (tick_synchronous_loop fuel env curtime (S i) s)
          as [[st2 keys2]| |] eqn:Hloop; simpl; [|done..];
        intros [= <- _]; apply IH in Hloop
    end.
    eapply registry_kept_trans; [exact Hagg|].
    eapply registry_kept_trans; [|exact Hloop].
    by apply registry_kept_eq.
Qed.

Lemma registry_kept_api_step st st' : api_step st st' -> registry_kept st st'.
Proof.
  intros Hstep.
  destruct Hstep as
    [st st' Hreg | n now st st' Hstart | st | team cin key st st' Hrun
    | env st st' Hrun | fuel env st st' keys Hrun | locked now st
    | key st st' calls Hcall].
  - by apply registry_kept_registration.
  - apply registry_kept_eq. revert Hstart. unfold start. simpl.
    destruct (0 <? n)%nat; [|by intros [= <-]].
    destruct (arm_async_state _ _ _ _ _) as [m| |]; simpl; [|done..].
    by intros [= <-].
  - intros k mr Hk. exists (clear_accumulator mr). split; [|done].
    rewrite lookup_stop_aggregators. by rewrite Hk.
  - by eapply registry_kept_aggregate_now.
  - by eapply registry_kept_aggregate_each.
  - by eapply registry_kept_tick_synchronous_loop.
  - apply registry_kept_eq. unfold tick_asynchronous.
    destruct locked; simpl; [|done].
    destruct (mq_top (schedule st)) as [[key priority]|]; [|done].
    by destruct (- priority <? now - start_time st).
  - apply registry_kept_eq. by destruct (effect_async_call _ _ _ _ Hcall) as [[? _] _].
Qed.

(** X9.  Once a key is registered, no sequence of calls that return
    removes it or changes its map function or its finalizer: registration,
    [start], [stop], [aggregate_now], [aggregate_all_periodic], the ticks of
    both drivers and the remote entry points change only its sum. *)
Theorem descriptors_are_immutable st st' key mr :
  rtc api_step st st' ->
  aggregators st !! key = Some mr ->
  exists mr',
    aggregators st' !! key = Some mr' /\
    map_fn mr' = map_fn mr /\
    finalize_function mr' = finalize_function mr.
Proof.
  intros Hrun Hmr.
  assert (Hkept : registry_kept st st').
  { clear Hmr. induction Hrun as [|sa sb sc Hstep _ IH];
      [apply registry_kept_refl|].
    eapply registry_kept_trans; [|exact IH]. by apply registry_kept_api_step. }
  destruct (Hkept key mr Hmr) as (mr' & Hmr' & Hclear).
  exists mr'. split; [done|]. by injection Hclear.
Qed.

(** *** The countdown on machine 0 *)

Lemma wrapper_add_None_r' (a : option T) : wrapper_add a None = a.
Proof. by destruct a. Qed.

Lemma ddc_above_one now key st a :
  procid st = 0%nat ->
  async_state st !! key = Some a ->
  1 < distributed_count_down a <= Z.of_nat (numprocs st) ->
  Z.of_nat (numprocs st) <= INT_MAX ->
  decrement_distributed_counter now key st =
    Done (put_async key
            (set_distributed_count_down (distributed_count_down a - 1) a) st, []).
Proof.
  intros Hp Ha Hd Hnp. unfold decrement_distributed_counter, assertion.
  rewrite Hp, Ha. simpl.
  rewrite atomic_dec_small by (unfold INT_MAX in *; lia).
  change (numprocs (put_async _ _ st)) with (numprocs st).
  destruct (Z.leb_spec (distributed_count_down a - 1) (Z.of_nat (numprocs st)));
    [|lia].
  destruct (Z.leb_spec 0 (distributed_count_down a - 1)); [|lia].
  destruct (Z.eqb_spec (distributed_count_down a - 1) 0); [lia|].
  done.
Qed.

Lemma dfc_step now key st a :
  async_state st !! key = Some a ->
  1 <= distributed_count_down a <= INT_MAX ->
  exists st' calls a',
    decrement_finalize_counter now key st = Done (st', calls) /\
    context st' = context st /\
    async_state st' !! key = Some a' /\
    root_reducer a' = root_reducer a /\
    per_thread_aggregation a' = per_thread_aggregation a /\
    local_count_down a' = local_count_down a /\
    (distributed_count_down a <> 1 \/ numprocs st = 1%nat -> calls = []).
Proof.
  intros Ha Hd. unfold decrement_finalize_counter. rewrite Ha.
  rewrite atomic_dec_small by (unfold INT_MAX in *; lia). cbv zeta.
  destruct (Z.eqb_spec (distributed_count_down a - 1) 0) as [Hz|Hz].
  - match goal with
    | |- context [period_at key ?s] =>
        destruct (period_at_inv key s) as (per' & -> & _)
    end.
    eexists _, _, _. split; [reflexivity|]. split; [done|].
    unfold rpc_schedule_key, put_async. simpl.
    rewrite insert_insert_eq, lookup_insert_eq. split; [reflexivity|].
    split; [done|]. split; [done|]. split; [done|].
    intros [?|Hone]; [lia|]. unfold remote_call_others. simpl. by rewrite Hone.
  - eexists _, _, _. split; [reflexivity|]. split; [done|].
    unfold put_async. simpl. rewrite lookup_insert_eq. by repeat split.
Qed.

Lemma ddc_at_one now key st a :
  procid st = 0%nat ->
  async_state st !! key = Some a ->
  distributed_count_down a = 1 ->
  (1 <= numprocs st)%nat ->
  Z.of_nat (numprocs st) <= INT_MAX ->
  exists st' a',
    decrement_distributed_counter now key st =
      Done (st', remote_call_others st
                   (call_rpc_perform_finalize key (acc (root_reducer a)))) /\
    context st' = finalize (context st) (root_reducer a) /\
    async_state st' !! key = Some a' /\
    root_reducer a' = clear_accumulator (root_reducer a) /\
    per_thread_aggregation a' = per_thread_aggregation a /\
    local_count_down a' = local_count_down a.
Proof.
  intros Hp Ha Hd Hnp1 Hnp. unfold decrement_distributed_counter, assertion.
  rewrite Hp, Ha, Hd. simpl. change (atomic_dec 1) with 0.
  change (numprocs (put_async _ _ st)) with (numprocs st).
  destruct (Z.leb_spec 0 (Z.of_nat (numprocs st))); [|lia].
  simpl.
  match goal with
  | |- context [decrement_finalize_counter now key ?s] =>
      edestruct (dfc_step now key s)
        as (st' & calls & a' & Hrun & Hctx & Ha' & Hroot & Hpt & Hl & Hcalls)
  end.
  { unfold put_async. simpl. apply lookup_insert_eq. }
  { simpl. rewrite to_int_small by (unfold INT_MAX in *; lia).
    unfold INT_MAX in *. lia. }
  rewrite Hrun. simpl. exists st', a'.
  rewrite Hcalls, app_nil_r; [by repeat split|].
  simpl. rewrite to_int_small by (unfold INT_MAX in *; lia).
  destruct (decide (numprocs st = 1%nat)); [by right|left; lia].
Qed.

Lemma collect_app now key (l1 l2 : list (option (@any T))) st :
  collect now key (l1 ++ l2) st =
  '(st1, c1) ← collect now key l1 st;
  '(st2, c2) ← collect now key l2 st1;
  Done (st2, c1 ++ c2).
Proof.
  revert st. induction l1 as [|e l1 IH]; intros st; simpl.
  - destruct (collect now key l2 st) as [[st2 c2]| |]; done.
  - destruct (match e with
              | Some a => rpc_key_merge now key a st
              | None => decrement_distributed_counter now key st
              end) as [[st1 c1]| |]; simpl; [|done..].
    rewrite IH.
    destruct (collect now key l1 st1) as [[st2 c2]| |]; simpl; [|done..].
    destruct (collect now key l2 st2) as [[st3 c3]| |]; simpl; [|done..].
    by rewrite (assoc_L (++)).
Qed.

(** One event while the countdown stays above zero. *)
Lemma collect_event_above_one now key (e : option (@any T)) st a :
  procid st = 0%nat ->
  async_state st !! key = Some a ->
  1 < distributed_count_down a <= Z.of_nat (numprocs st) ->
  Z.of_nat (numprocs st) <= INT_MAX ->
  match e with
  | Some x => rpc_key_merge now key x st
  | None => decrement_distributed_counter now key st
  end =
  Done (put_async key
          (set_distributed_count_down (distributed_count_down a - 1)
             (set_root_reducer
                (set_acc (wrapper_add (acc (root_reducer a)) (default None e))
                   (root_reducer a)) a)) st, []).
Proof.
  intros Hp Ha Hd Hnp. destruct e as [x|]; simpl.
  - unfold rpc_key_merge. rewrite Ha.
    rewrite (ddc_above_one now key _
               (set_root_reducer (add_accumulator_any x (root_reducer a)) a));
      try done.
    + unfold put_async. simpl. by rewrite insert_insert_eq.
    + unfold put_async. simpl. apply lookup_insert_eq.
  - rewrite (ddc_above_one now key st a) by done.
    do 2 f_equal. unfold put_async. do 2 f_equal.
    destruct a as [r pt l d]. simpl. do 2 f_equal.
    destruct r as [ra rm rf]. simpl. by destruct ra.
Qed.

Lemma collect_above_zero now key (events : list (option (@any T))) :
  forall st a,
    procid st = 0%nat ->
    async_state st !! key = Some a ->
    Z.of_nat (length events) < distributed_count_down a <= Z.of_nat (numprocs st) ->
    Z.of_nat (numprocs st) <= INT_MAX ->
    exists st' a',
      collect now key events st = Done (st', []) /\
      context st' = context st /\
      procid st' = procid st /\ numprocs st' = numprocs st /\
      async_state st' !! key = Some a' /\
      acc (root_reducer a') =
        foldl (fun r e => wrapper_add r (default None e))
              (acc (root_reducer a)) events /\
      clear_accumulator (root_reducer a') = clear_accumulator (root_reducer a) /\
      distributed_count_down a' =
        distributed_count_down a - Z.of_nat (length events).
Proof.
  induction events as [|e events IH]; intros st a Hp Ha Hd Hnp.
  - exists st, a. simpl. repeat split; try done. lia.
  - simpl in Hd. simpl.
    rewrite (collect_event_above_one now key e st a) by (try done; lia).
    simpl.
    match goal with
    | |- context [collect now key events ?s] =>
        edestruct (IH s)
          as (st' & a' & Hrun & Hctx & Hp' & Hnp' & Ha' & Hacc & Hclear & Hdist)
    end.
    { done. }
    { unfold put_async. simpl. apply lookup_insert_eq. }
    { simpl. change (numprocs (put_async _ _ st)) with (numprocs st). lia. }
    { done. }
    rewrite Hrun. simpl. exists st', a'. split; [done|].
    split; [done|]. split; [done|]. split; [done|]. split; [done|].
    split; [done|]. split; [done|]. rewrite Hdist. simpl. lia.
Qed.

(** X10.  Machine 0 counts down once for each machine: the accumulators
    of the others arrive through [rpc_key_merge], its own threads finish
    through [decrement_distributed_counter], in any order.  Until the last
    of them no finalizer runs and nothing is sent.  The last one runs the
    finalizer on the sum of the root accumulator and everything received,
    clears the root accumulator and sends that same sum to every other
    machine; [rpc_perform_finalize] there hands the finalizer the same
    value, whatever its root accumulator held, and answers machine 0. *)
Theorem coordinator_collects_then_finalizes now key
    (events : list (option (@any T))) last st a :
  procid st = 0%nat ->
  async_state st !! key = Some a ->
  distributed_count_down a = Z.of_nat (S (length events)) ->
  (S (length events) <= numprocs st)%nat ->
  Z.of_nat (numprocs st) <= INT_MAX ->
  let total :=
    foldl (fun r e => wrapper_add r (default None e))
          (acc (root_reducer a)) (events ++ [last]) in
  (exists st1, collect now key events st = Done (st1, []) /\
               context st1 = context st) /\
  (exists st' a',
     collect now key (events ++ [last]) st =
       Done (st', remote_call_others st (call_rpc_perform_finalize key total)) /\
     context st' =
       finalize_function (root_reducer a) (context st) (wrapper_value total) /\
     async_state st' !! key = Some a' /\
     acc (root_reducer a') = None) /\
  (forall (peer : machine) pa,
     procid peer <> 0%nat ->
     async_state peer !! key = Some pa ->
     exists peer' pa',
       rpc_perform_finalize key total peer =
         Done (peer', [(0%nat, call_decrement_finalize_counter key)]) /\
       context peer' =
         finalize_function (root_reducer pa) (context peer) (wrapper_value total) /\
       async_state peer' !! key = Some pa' /\
       acc (root_reducer pa') = None).
Proof.
  intros Hp Ha Hd Hlen Hnp total.
  destruct (collect_above_zero now key events st a)
    as (st1 & a1 & Hrun1 & Hctx1 & Hp1 & Hnp1 & Ha1 & Hacc1 & Hclear1 & Hd1);
    try done; [lia|].
  split; [by exists st1|]. split.
  - rewrite collect_app, Hrun1. simpl.
    assert (Hlast :
      exists st2 a2,
        match last with
        | Some x => rpc_key_merge now key x st1
        | None => decrement_distributed_counter now key st1
        end = Done (st2, remote_call_others st
                           (call_rpc_perform_finalize key total)) /\
        context st2 =
          finalize_function (root_reducer a) (context st) (wrapper_value total) /\
        async_state st2 !! key = Some a2 /\
        acc (root_reducer a2) = None).
    { assert (Hfin : finalize_function (root_reducer a1)
                     = finalize_function (root_reducer a)) by (by injection Hclear1).
      assert (Hothers : forall c : @rpc_call T,
                remote_call_others st1 c = remote_call_others st c).
      { intros c. unfold remote_call_others. by rewrite Hnp1. }
      unfold total. rewrite foldl_app. simpl. rewrite <- Hacc1.
      destruct last as [x|]; simpl.
      - unfold rpc_key_merge. rewrite Ha1.
        edestruct (ddc_at_one now key
                     (put_async key
                        (set_root_reducer
                           (add_accumulator_any x (root_reducer a1)) a1) st1))
          as (st2 & a2 & Hrun2 & Hctx2 & Ha2 & Hroot2 & _).
        { change (procid st1 = 0%nat). congruence. }
        { unfold put_async. simpl. apply lookup_insert_eq. }
        { simpl. lia. }
        { change (numprocs (put_async _ _ st1)) with (numprocs st1). lia. }
        { change (numprocs (put_async _ _ st1)) with (numprocs st1). lia. }
        rewrite Hrun2. exists st2, a2.
        split; [by rewrite <- Hothers|]. split.
        { rewrite Hctx2. unfold finalize. simpl. by rewrite Hfin, Hctx1. }
        split; [done|]. by rewrite Hroot2.
      - destruct (ddc_at_one now key st1 a1)
          as (st2 & a2 & Hrun2 & Hctx2 & Ha2 & Hroot2 & _).
        { congruence. }
        { done. }
        { lia. }
        { lia. }
        { lia. }
        rewrite Hrun2. exists st2, a2. rewrite wrapper_add_None_r'.
        split; [by rewrite <- Hothers|]. split.
        { rewrite Hctx2. unfold finalize. by rewrite Hfin, Hctx1. }
        split; [done|]. by rewrite Hroot2. }
    destruct Hlast as (st2 & a2 & -> & Hctx2 & Ha2 & Hacc2). simpl.
    exists st2, a2. by rewrite app_nil_r.
  - intros peer pa Hpeer Hpa. unfold rpc_perform_finalize, assertion.
    apply Nat.eqb_neq in Hpeer. rewrite Hpeer, Hpa. simpl.
    eexists _, _. split; [reflexivity|]. split; [done|].
    unfold put_async. simpl. rewrite lookup_insert_eq. done.
Qed.

(** *** More on the synchronous tick *)

Lemma tick_synchronous_loop_rearms (env : @tick_env T) curtime fuel :
  forall i st st' keys,
    (forall k p, aggregate_period st !! k = Some p -> 0 <= p) ->
    clock_advances env curtime st ->
    tick_synchronous_loop fuel env curtime i st = Done (st', keys) ->
    (forall e, e ∈ schedule st -> curtime <= - e.2 -> e ∈ schedule st') /\
    (forall j k, keys !! j = Some k ->
       (k, - next_fire_time env st (i + j) k) ∈ schedule st' /\
       curtime <= next_fire_time env st (i + j) k).
Proof.
  induction fuel as [|fuel IH]; intros i st st' keys Hper Hclock; simpl.
  - destruct (mq_top (schedule st)) as [[key priority]|];
      [|by intros [= <- <-]].
    destruct (- priority <? curtime); [done|by intros [= <- <-]].
  - destruct (mq_top (schedule st)) as [[key priority]|] eqn:Etop;
      [|by intros [= <- <-]].
    destruct (Z.ltb_spec (- priority) curtime) as [Hlt|]; [|by intros [= <- <-]].
    destruct (aggregate_now _ _ key st) as [st1| |] eqn:Hagg; simpl; [|done..].
    destruct (aggregate_now_inv _ _ _ _ _ Hagg) as (mr & c & Hmr & ->).
    match goal with
    | |- context [period_at key ?s] =>
        destruct (period_at_inv key s) as (per' & -> & Hper')
    end.
    simpl in Hper'. simpl.
    assert (Hdef : forall k, default 0 (per' !! k)
                             = default 0 (aggregate_period st !! k)).
    { intros k. destruct Hper' as [->|[Hnone ->]]; [done|].
      destruct (decide (k = key)) as [->|Hne].
      - by rewrite lookup_insert_eq, Hnone.
      - by rewrite lookup_insert_ne. }
    assert (Hnext : curtime <= next_fire_time env st i key).
    { unfold next_fire_time, broadcast. destruct Hclock as [Hroot Hpeer].
      assert (0 <= default 0 (aggregate_period st !! key)).
      { destruct (aggregate_period st !! key) as [p|] eqn:Ep; simpl;
          [by eapply Hper | lia]. }
      destruct (procid st =? 0)%nat eqn:Ep.
      - apply Nat.eqb_eq in Ep. specialize (Hroot Ep i). lia.
      - apply Nat.eqb_neq in Ep. apply (Hpeer Ep i). }
    match goal with
    | |- context [tick_synchronous_loop fuel env curtime (S i) ?s] =>
        destruct (tick_synchronous_loop fuel env curtime (S i) s)
          as [[st2 keys2]| |] eqn:Hloop; simpl; [|done..];
        intros [= <- <-];
        apply IH in Hloop as [Hkeep Hrearm]
    end.
    + pose proof (mq_pop_Permutation _ _ Etop) as Hpop.
      simpl in Hkeep. unfold mq_push in Hkeep. split.
      * intros e He Hlate. apply Hkeep; [|done].
        apply list_elem_of_further. rewrite Hpop in He.
        apply elem_of_cons in He as [->|He]; [simpl in Hlate; lia|done].
      * intros [|j] k Hk; simpl in Hk.
        -- injection Hk as <-. rewrite Nat.add_0_r. split; [|done].
           apply Hkeep; [|simpl; lia].
           apply list_elem_of_here.
        -- destruct (Hrearm j k Hk) as [Hin Hle].
           unfold next_fire_time in Hin, Hle. simpl in Hin, Hle.
           rewrite Hdef in Hin, Hle.
           replace (i + S j)%nat with (S (i + j)) by lia. by split.
    + simpl. intros k p Hk. destruct Hper' as [->|[_ ->]]; [by eapply Hper|].
      apply lookup_insert_Some in Hk as [[_ <-]|[_ Hk]]; [lia|by eapply Hper].
    + done.
Qed.

(** X11.  A synchronous tick that returns leaves every schedule entry
    that was not due where it is, and has pushed every key it ran with the
    fire time "clock reading after the aggregation, plus the period of the
    key, from [start_time]" on machine 0, and with the time machine 0
    broadcast elsewhere; that time is not earlier than the frozen
    [curtime]. *)
Theorem tick_synchronous_rearms fuel (env : @tick_env T) st st' keys :
  (forall k p, aggregate_period st !! k = Some p -> 0 <= p) ->
  (procid st = 0%nat -> forall j, entry_now env <= round_now (rounds env j)) ->
  (procid st <> 0%nat ->
     forall j, entry_curtime env <= round_next_time (rounds env j)) ->
  tick_synchronous fuel env st = Done (st', keys) ->
  (forall e, e ∈ schedule st -> tick_curtime env st <= - e.2 ->
     e ∈ schedule st') /\
  (forall j k, keys !! j = Some k ->
     (k, - next_fire_time env st j k) ∈ schedule st' /\
     tick_curtime env st <= next_fire_time env st j k).
Proof.
  intros Hper Hroot Hpeer Hrun.
  apply (tick_synchronous_loop_rearms env (tick_curtime env st) fuel 0%nat
           st st' keys Hper (clock_advances_tick env st Hroot Hpeer)) in Hrun.
  done.
Qed.

(** X12.  When no schedule entry is due (the schedule may be empty), a
    synchronous tick returns at once, whatever its fuel: no aggregation
    runs and the state is unchanged. *)
Theorem tick_synchronous_nothing_due fuel (env : @tick_env T) st :
  due (tick_curtime env st) (schedule st) = [] ->
  tick_synchronous fuel env st = Done (st, []).
Proof.
  intros Hnone. unfold tick_synchronous.
  destruct fuel; simpl;
    (destruct (mq_top (schedule st)) as [[key p]|] eqn:Etop; [|done]);
    (destruct (Z.ltb_spec (- p) (tick_curtime env st)) as [Hlt|]; [|done]);
    pose proof (due_pop _ _ _ Etop Hlt) as Hperm; rewrite Hnone in Hperm;
    by apply Permutation_nil_cons in Hperm.
Qed.

(** *** aggregate_all_periodic *)

Lemma aggregate_each_spec env (keys : list string) :
  forall i st,
    (forall k, k ∈ keys -> is_Some (aggregators st !! k)) ->
    exists st',
      aggregate_each env i keys st = Done st' /\
      aggregate_period st' = aggregate_period st /\
      schedule st' = schedule st /\
      async_state st' = async_state st /\
      clear_accumulator <$> aggregators st' = clear_accumulator <$> aggregators st /\
      (forall k mr, aggregators st !! k = Some mr -> k ∈ keys \/ acc mr = None ->
         exists mr', aggregators st' !! k = Some mr' /\ acc mr' = None).
Proof.
  induction keys as [|key keys IH]; intros i st Hreg; simpl.
  - exists st. repeat split; try done.
    intros k mr Hk [Hin|Hacc]; [by apply elem_of_nil in Hin|by exists mr].
  - destruct (aggregate_now_returns (env i).1 (env i).2 key st) as [st1 Hst1].
    { apply Hreg. apply list_elem_of_here. }
    rewrite Hst1. simpl.
    destruct (aggregate_now_inv _ _ _ _ _ Hst1) as (mr0 & c & Hmr0 & ->).
    match goal with
    | |- context [aggregate_each env (S i) keys ?s] =>
        destruct (IH (S i) s) as (st' & Hrun & Hper & Hsched & Hasync & Hclear & Hsum)
    end.
    { intros k Hk. simpl. apply lookup_insert_is_Some'. right. apply Hreg.
      by apply list_elem_of_further. }
    exists st'. split; [done|]. split; [done|]. split; [done|]. split; [done|].
    split.
    + rewrite Hclear. simpl. by apply fmap_clear_insert.
    + intros k mr Hk Hor. simpl in Hsum.
      destruct (decide (k = key)) as [->|Hne].
      * apply (Hsum key (clear_accumulator mr0)); [apply lookup_insert_eq|by right].
      * apply (Hsum k mr); [by rewrite lookup_insert_ne|].
        destruct Hor as [Hin|?]; [|by right].
        apply elem_of_cons in Hin as [?|?]; [done|by left].
Qed.

Lemma aggregate_each_registered env (keys : list string) :
  forall i st st',
    aggregate_each env i keys st = Done st' ->
    forall k, k ∈ keys -> is_Some (aggregators st !! k).
Proof.
  induction keys as [|key keys IH]; intros i st st'; simpl.
  - intros _ k Hk. by apply elem_of_nil in Hk.
  - destruct (aggregate_now _ _ key st) as [st1| |] eqn:Hnow; simpl; [|done..].
    destruct (aggregate_now_inv _ _ _ _ _ Hnow) as (mr0 & c & Hmr0 & ->).
    intros Hrest k [->|Hk]%elem_of_cons; [by eexists|].
    pose proof (IH _ _ _ Hrest k Hk) as Hs. simpl in Hs.
    apply lookup_insert_is_Some' in Hs as [->|Hs]; [by eexists|done].
Qed.

(** X13.  [aggregate_all_periodic] returns exactly when every key of the
    period table is registered.  It then leaves the period table, the
    schedule and the async state alone, keeps every descriptor, and leaves
    the sum of every periodic key empty. *)
Theorem aggregate_all_periodic_result env st :
  ((exists st', aggregate_all_periodic env st = Done st') <->
   (forall k, is_Some (aggregate_period st !! k) ->
              is_Some (aggregators st !! k))) /\
  (forall st', aggregate_all_periodic env st = Done st' ->
     aggregate_period st' = aggregate_period st /\
     schedule st' = schedule st /\
     async_state st' = async_state st /\
     clear_accumulator <$> aggregators st' = clear_accumulator <$> aggregators st /\
     (forall k, is_Some (aggregate_period st !! k) ->
        exists mr, aggregators st' !! k = Some mr /\ acc mr = None)).
Proof.
  unfold aggregate_all_periodic. split.
  - split.
    + intros [st' Hrun] k Hk.
      eapply aggregate_each_registered; [exact Hrun|].
      by apply elem_of_period_keys.
    + intros Hreg.
      destruct (aggregate_each_spec env (map_to_list (aggregate_period st)).*1
                  0%nat st) as (st' & Hrun & _); [|by exists st'].
      intros k Hk. apply Hreg. by apply elem_of_period_keys.
  - intros st' Hrun.
    pose proof (aggregate_each_registered _ _ _ _ _ Hrun) as Hreg.
    destruct (aggregate_each_spec env (map_to_list (aggregate_period st)).*1
                0%nat st Hreg) as (st2 & Hrun2 & Hper & Hsched & Hasync & Hclear & Hsum).
    rewrite Hrun in Hrun2. injection Hrun2 as <-.
    split; [done|]. split; [done|]. split; [done|]. split; [done|].
    intros k Hk. apply elem_of_period_keys in Hk.
    destruct (Hreg k Hk) as [mr Hmr]. apply (Hsum k mr Hmr). by left.
Qed.

(** *** The strided loops share the local vertices *)

Lemma filter_seq_skip (P : nat -> Prop) `{!forall j, Decision (P j)} (k : nat) :
  forall a n,
    (forall j, (a <= j < a + k)%nat -> ~ P j) ->
    filter P (seq a n) = filter P (seq (a + k) (n - k)).
Proof.
  induction k as [|k IH]; intros a n Hskip.
  - by rewrite Nat.add_0_r, Nat.sub_0_r.
  - destruct n as [|n]; [done|].
    change (seq a (S n)) with (a :: seq (S a) n).
    rewrite filter_cons_False by (apply Hskip; lia).
    rewrite (IH (S a) n) by (intros j Hj; apply Hskip; lia).
    by replace (S a + k)%nat with (a + S k)%nat by lia.
Qed.

Lemma mod_same_class_far (step i j : nat) :
  (0 < step)%nat -> (i < j < i + step)%nat ->
  (j mod step)%nat <> (i mod step)%nat.
Proof.
  intros Hstep Hj Heq.
  pose proof (Nat.div_mod_eq i step) as Hi.
  pose proof (Nat.div_mod_eq j step) as Hj'.
  rewrite Heq in Hj'. clear Heq.
  generalize dependent (i / step)%nat. intros qi Hi.
  generalize dependent (j / step)%nat. intros qj Hj'.
  generalize dependent (i mod step)%nat. intros r Hi Hj'.
  destruct (Nat.le_gt_cases qj qi) as [Hle|Hgt].
  - pose proof (Nat.mul_le_mono_l qj qi step Hle). lia.
  - pose proof (Nat.mul_le_mono_l (S qi) qj step Hgt). lia.
Qed.

Lemma stride_loop_visits {A : Type} (step cpuid len : nat)
    (body : nat -> A -> A) :
  (0 < step)%nat ->
  forall fuel i (s : A),
    (i mod step)%nat = cpuid -> (len <= i + fuel)%nat ->
    stride_loop fuel i step len body s =
      Done (foldl (fun s j => body j s) s
              (filter (fun j => (j mod step)%nat = cpuid) (seq i (len - i)))).
Proof.
  intros Hstep. induction fuel as [|fuel IH]; intros i s Hi Hfuel; simpl.
  - rewrite (proj2 (Nat.leb_le len i)) by lia.
    by replace (len - i)%nat with 0%nat by lia.
  - destruct (Nat.leb_spec len i) as [Hle|Hlt].
    + by replace (len - i)%nat with 0%nat by lia.
    + rewrite IH; [|by rewrite <- (Nat.Div0.mod_add i 1%nat step) in Hi;
                       rewrite Nat.mul_1_l in Hi | lia].
      f_equal. replace (len - i)%nat with (S (len - S i))%nat by lia.
      change (seq i (S (len - S i))) with (i :: seq (S i) (len - S i)).
      rewrite filter_cons_True by done. simpl. f_equal.
      rewrite (filter_seq_skip _ (step - 1)%nat (S i)).
      * f_equal. f_equal; lia.
      * intros j Hj. rewrite <- Hi. apply mod_same_class_far; lia.
Qed.

Lemma bind_filter_classes {A} (h : A -> nat) (n : nat) (l : list A) :
  (forall x, x ∈ l -> (h x < n)%nat) ->
  seq 0 n ≫= (fun c => filter (fun x => h x = c) l) ≡ₚ l.
Proof.
  induction l as [|x l IH]; intros Hb.
  - induction (seq 0 n) as [|c cs IHc]; [done|]. by rewrite bind_cons.
  - rewrite (list_bind_ext _
               (fun c => (if (h x =? c)%nat && true then [x] else [])
                         ++ filter (fun y => h y = c) l) _ (seq 0 n));
      [| |done].
    + rewrite bind_app_fun, bind_select, IH.
      * rewrite bool_decide_eq_true_2; [done|].
        specialize (Hb x (list_elem_of_here _ _)). lia.
      * intros y Hy. apply Hb. by apply list_elem_of_further.
    + intros c. rewrite filter_cons, andb_true_r.
      destruct (Nat.eqb_spec (h x) c).
      * by rewrite decide_True.
      * by rewrite decide_False.
Qed.

Lemma stride_indices_all (step len : nat) :
  (0 < step)%nat ->
  seq 0 step ≫= (fun c => stride_indices step c len) ≡ₚ seq 0 len.
Proof.
  intros Hstep. unfold stride_indices.
  apply (bind_filter_classes (fun j => (j mod step)%nat) step (seq 0 len)).
  intros j _. apply Nat.mod_upper_bound. lia.
Qed.

(** *** A round of tick_asynchronous_compute *)

Section Rounds.

#[local] Abbreviation compute_body st m0 :=
  (if is_vertex_map m0 then
     fun i m =>
       match graph st !! i with
       | Some lv => map_owned_vertex (procid st) (context st) lv m
       | None => m
       end
   else
     fun i m =>
       match graph st !! i with
       | Some lv => map_in_edges (context st) lv m
       | None => m
       end).

#[local] Abbreviation share_of mr st :=
  (fun j => from_option (lv_elements mr st) [] (graph st !! j)).

(** The root accumulator [r] after the threads of [order] added theirs. *)
#[local] Abbreviation add_thread_sums mr st :=
  (foldl (fun r c =>
            wrapper_add r (wrapper_sum (thread_share mr st (ncpus st) c)))).

Lemma set_acc_same (m : reducer) : set_acc (acc m) m = m.
Proof. by destruct m. Qed.

Lemma put_async_put_async key a b (st : machine) :
  put_async key a (put_async key b st) = put_async key a st.
Proof. unfold put_async. simpl. by rewrite insert_insert_eq. Qed.

Lemma put_async_same key a (st : machine) :
  async_state st !! key = Some a -> put_async key a st = st.
Proof.
  intros Ha. destruct st. unfold put_async, set_async_state. simpl in *.
  by rewrite insert_id.
Qed.

Lemma bind_bind_assoc {A B C} (F : A -> list B) (G : B -> list C) (l : list A) :
  l ≫= (fun x => F x ≫= G) = (l ≫= F) ≫= G.
Proof.
  induction l as [|x l IH]; [done|].
  by rewrite !bind_cons, bind_app, IH.
Qed.

Lemma stride_loop_indices {A} (step cpuid len : nat) (body : nat -> A -> A) s :
  (cpuid < step)%nat ->
  stride_loop len cpuid step len body s =
    Done (foldl (fun s j => body j s) s (stride_indices step cpuid len)).
Proof.
  intros Hc.
  rewrite (stride_loop_visits step cpuid len body ltac:(lia) len cpuid s);
    [|by apply Nat.mod_small|lia].
  do 2 f_equal. unfold stride_indices.
  rewrite (filter_seq_skip _ cpuid 0%nat len); [done|].
  intros j Hj. rewrite Nat.mod_small; lia.
Qed.

Lemma map_in_edges_eq ctx lv (m : reducer) f :
  map_fn m = map_edge_function f ->
  map_in_edges ctx lv m =
    set_acc (foldl wrapper_add_value (acc m) (f ctx <$> in_edges lv)) m.
Proof.
  unfold map_in_edges. generalize (in_edges lv). intros es. revert m.
  induction es as [|e es IH]; intros m Hf.
  - change (m = set_acc (acc m) m). by rewrite set_acc_same.
  - rewrite fmap_cons. simpl foldl.
    rewrite (perform_map_edge_eq ctx e m f Hf).
    by rewrite IH.
Qed.

Lemma compute_body_step (st : machine) (mr m0 m : reducer) j :
  map_fn m0 = map_fn mr -> map_fn m = map_fn mr ->
  compute_body st m0 j m =
    set_acc (foldl wrapper_add_value (acc m) (share_of mr st j)) m.
Proof.
  intros H0 Hm. unfold is_vertex_map, lv_elements. rewrite H0.
  destruct (map_fn mr) as [f|f] eqn:Hf;
    destruct (graph st !! j) as [lv|]; simpl.
  - rewrite (map_owned_vertex_eq _ _ _ _ f) by done.
    destruct (owner lv =? procid st)%nat; [done|].
    by destruct m.
  - by destruct m.
  - by apply map_in_edges_eq.
  - by destruct m.
Qed.

Lemma compute_loop_acc (st : machine) (mr m0 : reducer) (idx : list nat) :
  map_fn m0 = map_fn mr ->
  forall m : reducer,
    map_fn m = map_fn mr ->
    foldl (fun s j => compute_body st m0 j s) m idx =
      set_acc (foldl wrapper_add_value (acc m) (idx ≫= share_of mr st)) m.
Proof.
  intros H0. induction idx as [|j idx IH]; intros m Hm.
  - change (m = set_acc (acc m) m). by rewrite set_acc_same.
  - rewrite bind_cons, foldl_app. simpl foldl.
    rewrite (compute_body_step st mr m0 m j H0 Hm).
    by rewrite IH.
Qed.

Lemma graph_elements (mr : reducer) (st : machine) :
  graph st ≫= lv_elements mr st = mapped_elements mr st.
Proof.
  unfold lv_elements, mapped_elements, owned_vertices, stored_in_edges.
  destruct (map_fn mr) as [f|f].
  - induction (graph st) as [|lv g IH]; [done|].
    rewrite bind_cons, IH. unfold graph_type.
    destruct (Nat.eqb_spec (owner lv) (procid st)).
    + by rewrite filter_cons_True.
    + by rewrite filter_cons_False.
  - apply bind_fmap_fun.
Qed.

(** The shares of the threads are the mapped elements of the machine,
    each once. *)
Lemma round_elements (mr : reducer) (st : machine) (order : list nat) :
  (0 < ncpus st)%nat ->
  order ≡ₚ seq 0 (ncpus st) ->
  order ≫= thread_share mr st (ncpus st) ≡ₚ mapped_elements mr st.
Proof.
  intros Hn Horder. rewrite Horder. unfold thread_share.
  rewrite (bind_bind_assoc
             (fun c => stride_indices (ncpus st) c (length (graph st)))
             (share_of mr st)).
  rewrite (stride_indices_all (ncpus st) (length (graph st)) Hn).
  rewrite <- graph_elements.
  enough (Heq : seq 0 (length (graph st)) ≫= share_of mr st
                = graph st ≫= lv_elements mr st) by (by rewrite Heq).
  exact (bind_seq_lookup (from_option (lv_elements mr st) []) (graph st) []).
Qed.

(** What thread [c] leaves in its slot. *)
#[local] Abbreviation thread_result mr st c :=
  (set_acc (wrapper_sum (thread_share mr st (ncpus st) c)) (clone_empty mr)).

Lemma compute_call_loop (st : machine) (mr : reducer) c :
  (c < ncpus st)%nat ->
  stride_loop (length (graph st)) c (ncpus st) (length (graph st))
    (compute_body st (clone_empty mr)) (clone_empty mr)
  = Done (thread_result mr st c).
Proof.
  intros Hc. rewrite stride_loop_indices by done.
  by rewrite (compute_loop_acc st mr (clone_empty mr)).
Qed.

(** A call that is not the last of its round. *)
Lemma compute_call_unfinished now c key (st : machine) a mr :
  async_state st !! key = Some a ->
  per_thread_aggregation a !! c = Some (clone_empty mr) ->
  (c < ncpus st)%nat ->
  1 < local_count_down a <= Z.of_nat (ncpus st) ->
  Z.of_nat (ncpus st) <= INT_MAX ->
  tick_asynchronous_compute now c key st =
    Done (put_async key
            {| root_reducer :=
                 add_accumulator (thread_result mr st c) (root_reducer a);
               per_thread_aggregation :=
                 <[c := thread_result mr st c]> (per_thread_aggregation a);
               local_count_down := local_count_down a - 1;
               distributed_count_down := distributed_count_down a |} st, []).
Proof.
  intros Ha Hslot Hc Hl Hn. unfold tick_asynchronous_compute.
  rewrite Ha, Hslot. cbv zeta.
  rewrite (compute_call_loop st mr c Hc).
  change (_ ← Done ?x; ?k _) with (k x) || idtac.
  simpl.
  rewrite atomic_dec_small by (unfold INT_MAX in *; lia).
  change (ncpus (put_async _ _ st)) with (ncpus st).
  unfold assertion.
  destruct (Z.ltb_spec (local_count_down a - 1) (Z.of_nat (ncpus st))); [|lia].
  destruct (Z.leb_spec 0 (local_count_down a - 1)); [|lia].
  destruct (Z.eqb_spec (local_count_down a - 1) 0); [lia|].
  done.
Qed.

(** The last call of a round. *)
Lemma compute_call_last now c key (st : machine) a mr :
  async_state st !! key = Some a ->
  per_thread_aggregation a !! c = Some (clone_empty mr) ->
  (c < ncpus st)%nat ->
  local_count_down a = 1 ->
  Z.of_nat (ncpus st) <= INT_MAX ->
  let a2 :=
    {| root_reducer :=
         add_accumulator (thread_result mr st c) (root_reducer a);
       per_thread_aggregation :=
         clear_accumulator <$>
           <[c := thread_result mr st c]> (per_thread_aggregation a);
       local_count_down := Z.of_nat (ncpus st);
       distributed_count_down := distributed_count_down a |} in
  tick_asynchronous_compute now c key st =
    if (procid st =? 0)%nat
    then decrement_distributed_counter now key (put_async key a2 st)
    else Done (put_async key
                 (set_root_reducer (clear_accumulator (root_reducer a2)) a2) st,
               [(0%nat, call_rpc_key_merge key (acc (root_reducer a2)))]).
Proof.
  intros Ha Hslot Hc Hl Hn a2. unfold tick_asynchronous_compute.
  rewrite Ha, Hslot. cbv zeta.
  rewrite (compute_call_loop st mr c Hc).
  simpl. rewrite Hl. change (atomic_dec 1) with 0.
  change (ncpus (put_async _ _ st)) with (ncpus st).
  change (procid (put_async _ _ _)) with (procid st).
  unfold assertion.
  destruct (Z.ltb_spec 0 (Z.of_nat (ncpus st))); [|lia].
  simpl. rewrite to_int_small by (unfold INT_MAX in *; lia).
  rewrite !put_async_put_async.
  by destruct (procid st =? 0)%nat.
Qed.

Lemma compute_round_snoc now (init : list nat) c key (st : machine) :
  compute_round now (init ++ [c]) key st =
  '(st1, c1) ← compute_round now init key st;
  '(st2, c2) ← tick_asynchronous_compute (now c) c key st1;
  Done (st2, c1 ++ c2).
Proof.
  revert st. induction init as [|d init IH]; intros st; simpl.
  - destruct (tick_asynchronous_compute _ _ _ _) as [[st1 c1]| |]; simpl;
      [|done..].
    by rewrite app_nil_r.
  - destruct (tick_asynchronous_compute (now d) d key st) as [[st1 c1]| |];
      simpl; [|done..].
    rewrite IH.
    destruct (compute_round now init key st1) as [[st2 c2]| |]; simpl; [|done..].
    destruct (tick_asynchronous_compute _ _ _ _) as [[st3 c3]| |]; simpl;
      [|done..].
    by rewrite (assoc_L (++)).
Qed.

(** The calls of a round before the last one: the root reducer collects
    the shares, nothing is sent. *)
Lemma compute_round_unfinished now key mr (order : list nat) :
  forall (st : machine) a,
    async_state st !! key = Some a ->
    NoDup order ->
    (forall c, c ∈ order ->
       (c < ncpus st)%nat /\
       per_thread_aggregation a !! c = Some (clone_empty mr)) ->
    Z.of_nat (length order) < local_count_down a <= Z.of_nat (ncpus st) ->
    Z.of_nat (ncpus st) <= INT_MAX ->
    exists v,
      compute_round now order key st =
        Done (put_async key
                {| root_reducer :=
                     set_acc
                       (add_thread_sums mr st (acc (root_reducer a)) order)
                       (root_reducer a);
                   per_thread_aggregation := v;
                   local_count_down :=
                     local_count_down a - Z.of_nat (length order);
                   distributed_count_down := distributed_count_down a |}
                st, []) /\
      length v = length (per_thread_aggregation a) /\
      (forall c, c ∉ order -> v !! c = per_thread_aggregation a !! c) /\
      (Forall (fun m => clear_accumulator m = clone_empty mr)
              (per_thread_aggregation a) ->
       Forall (fun m => clear_accumulator m = clone_empty mr) v).
Proof.
  induction order as [|c order IH]; intros st a Ha Hnd Hslots Hl Hn.
  - exists (per_thread_aggregation a). split; [|done].
    change (Done (st, []) =
            Done (put_async key
                    {| root_reducer :=
                         set_acc (acc (root_reducer a)) (root_reducer a);
                       per_thread_aggregation := per_thread_aggregation a;
                       local_count_down := local_count_down a - 0;
                       distributed_count_down := distributed_count_down a |}
                    st, @nil (@remote_call T))).
    rewrite set_acc_same, Z.sub_0_r.
    do 2 f_equal. symmetry. apply put_async_same. by destruct a.
  - apply NoDup_cons in Hnd as [Hc Hnd].
    destruct (Hslots c (list_elem_of_here _ _)) as [Hcn Hslot].
    change (length (c :: order)) with (S (length order)) in *.
    change (compute_round now (c :: order) key st)
      with ('(st1, calls) ← tick_asynchronous_compute (now c) c key st;
            '(st2, calls') ← compute_round now order key st1;
            Done (st2, calls ++ calls')).
    rewrite (compute_call_unfinished (now c) c key st a mr)
      by (try done; lia).
    match goal with
    | |- context [Done (put_async key ?a1 st, [])] =>
        destruct (IH (put_async key a1 st) a1)
          as (v & Hrun & Hlen & Hout & Hall)
    end.
    + unfold put_async. simpl. apply lookup_insert_eq.
    + done.
    + intros d Hd.
      destruct (Hslots d (list_elem_of_further _ _ _ Hd)) as [Hdn Hds].
      split; [done|]. simpl.
      rewrite list_lookup_insert_ne; [done|]. by intros ->.
    + change (ncpus (put_async _ _ st)) with (ncpus st). simpl. lia.
    + done.
    + exists v. split; [|split; [|split]].
      * change (_ ← Done ?x; ?k) with (k x) || idtac. simpl.
        simpl in Hrun. rewrite Hrun. simpl.
        rewrite put_async_put_async.
        change (thread_share mr (put_async _ _ st)) with (thread_share mr st).
        do 3 f_equal.
        f_equal; first [reflexivity | lia].
      * rewrite Hlen. simpl. by rewrite length_insert.
      * intros d Hd. rewrite Hout by (intros Hin; apply Hd; by apply list_elem_of_further).
        simpl. rewrite list_lookup_insert_ne; [done|].
        intros ->. apply Hd. apply list_elem_of_here.
      * intros Hfa. apply Hall. simpl.
        apply Forall_insert; [done|]. done.
Qed.

Lemma clear_pristine (mr : reducer) (v : list reducer) :
  Forall (fun m => clear_accumulator m = clone_empty mr) v ->
  clear_accumulator <$> v = replicate (length v) (clone_empty mr).
Proof.
  induction 1 as [|m v Hm _ IH]; [done|].
  rewrite fmap_cons, Hm, IH. done.
Qed.

(** A whole round from an entry whose per-thread reducers are empty:
    the last call finds the sums of all threads in the root reducer. *)
Lemma compute_round_full now (init : list nat) c key (st : machine) a mr :
  async_state st !! key = Some a ->
  per_thread_aggregation a = replicate (ncpus st) (clone_empty mr) ->
  local_count_down a = Z.of_nat (ncpus st) ->
  Z.of_nat (ncpus st) <= INT_MAX ->
  init ++ [c] ≡ₚ seq 0 (ncpus st) ->
  let total := add_thread_sums mr st (acc (root_reducer a)) (init ++ [c]) in
  let a2 := set_root_reducer (set_acc total (root_reducer a)) a in
  compute_round now (init ++ [c]) key st =
    if (procid st =? 0)%nat
    then decrement_distributed_counter (now c) key (put_async key a2 st)
    else Done (put_async key
                 (set_root_reducer (clear_accumulator (root_reducer a)) a) st,
               [(0%nat, call_rpc_key_merge key total)]).
Proof.
  intros Ha Hper Hlocal Hn Hperm total a2.
  assert (Hnd : NoDup (init ++ [c])) by (rewrite Hperm; apply NoDup_seq).
  apply NoDup_app in Hnd as (Hndi & Hdis & _).
  assert (Hlen : (length init + 1 = ncpus st)%nat).
  { apply Permutation_length in Hperm.
    by rewrite length_app, length_seq in Hperm. }
  assert (Hin : forall d, d ∈ init ++ [c] -> (d < ncpus st)%nat).
  { intros d Hd. rewrite Hperm in Hd. apply elem_of_seq in Hd. lia. }
  assert (Hslot : forall d, (d < ncpus st)%nat ->
            per_thread_aggregation a !! d = Some (clone_empty mr)).
  { intros d Hd. rewrite Hper. by apply lookup_replicate_2. }
  assert (Hci : c ∉ init).
  { intros Hc. apply (Hdis c Hc). apply list_elem_of_here. }
  destruct (compute_round_unfinished now key mr init st a)
    as (v & Hrun & Hlenv & Hout & Hall); try done.
  { intros d Hd. assert (d < ncpus st)%nat.
    { apply Hin. apply elem_of_app. by left. }
    split; [done|]. by apply Hslot. }
  { lia. }
  rewrite compute_round_snoc, Hrun.
  change (_ ← Done ?x; ?k) with (k x) || idtac. simpl.
  match goal with
  | |- context [tick_asynchronous_compute _ _ _ (put_async key ?a1 st)] =>
      rewrite (compute_call_last (now c) c key (put_async key a1 st) a1 mr)
  end.
  - change (procid (put_async _ _ st)) with (procid st).
    change (ncpus (put_async _ _ st)) with (ncpus st).
    change (thread_share mr (put_async _ _ st)) with (thread_share mr st).
    simpl per_thread_aggregation. simpl root_reducer.
    simpl distributed_count_down.
    rewrite !put_async_put_async.
    assert (Hsum : wrapper_add
                     (add_thread_sums mr st (acc (root_reducer a)) init)
                     (wrapper_sum (thread_share mr st (ncpus st) c))
                   = total).
    { unfold total. by rewrite foldl_app. }
    assert (Hvec : clear_accumulator <$>
                     <[c := thread_result mr st c]> v
                   = per_thread_aggregation a).
    { rewrite (clear_pristine mr).
      - by rewrite length_insert, Hlenv, Hper, length_replicate.
      - apply Forall_insert; [|done]. apply Hall. rewrite Hper.
        by apply Forall_replicate. }
    rewrite Hvec.
    unfold add_accumulator. simpl acc. rewrite Hsum. rewrite <- Hlocal.
    destruct (procid st =? 0)%nat.
    + match goal with
      | |- context [decrement_distributed_counter _ _ ?s] =>
          replace s with (put_async key a2 st)
      end.
      * destruct (decrement_distributed_counter _ _ _) as [[s2 c2]| |]; done.
      * done.
    + simpl. do 3 f_equal.
  - unfold put_async. simpl. apply lookup_insert_eq.
  - simpl. rewrite Hout by done. apply Hslot. apply Hin. apply elem_of_app.
    right. apply list_elem_of_here.
  - apply Hin. apply elem_of_app. right. apply list_elem_of_here.
  - simpl. lia.
  - done.
Qed.

(** With an associative and commutative sum the order of the threads
    and the split of the vertices between them do not show. *)
Lemma add_thread_sums_laws `{!SummableLaws T} (mr : reducer) (st : machine)
    (order : list nat) :
  forall r,
    add_thread_sums mr st r order =
      wrapper_add r (wrapper_sum (order ≫= thread_share mr st (ncpus st))).
Proof.
  induction order as [|c order IH]; intros r.
  - change (r = wrapper_add r None). by rewrite wrapper_add_None_r.
  - rewrite bind_cons, wrapper_sum_app, wrapper_add_assoc. apply IH.
Qed.

Lemma add_thread_sums_local_sum `{!SummableLaws T} (mr : reducer)
    (st : machine) (order : list nat) r :
  (0 < ncpus st)%nat ->
  order ≡ₚ seq 0 (ncpus st) ->
  add_thread_sums mr st r order =
    wrapper_add r (wrapper_sum (mapped_elements mr st)).
Proof.
  intros Hn Hperm. rewrite add_thread_sums_laws. f_equal.
  apply wrapper_sum_Permutation. by apply round_elements.
Qed.

Lemma round_sum_local_sum `{!SummableLaws T} (mr : reducer) (st : machine)
    (order : list nat) :
  (0 < ncpus st)%nat ->
  order ≡ₚ seq 0 (ncpus st) ->
  round_sum mr st order = wrapper_sum (mapped_elements mr st).
Proof.
  intros Hn Hperm. unfold round_sum.
  rewrite (add_thread_sums_local_sum mr st order None Hn Hperm).
  apply wrapper_add_None_l.
Qed.

(** X14.  On a machine other than machine 0, once each of its [ncpus]
    threads has called [tick_asynchronous_compute] for a key, in whatever
    order, the machine has sent one message and no other: [rpc_key_merge]
    to machine 0, carrying the sums of its threads added in the order in
    which they finished; and its state is again what it was before the
    round.  For every reduction type.  When the [+=] of the reduction type
    is associative and commutative, what the message carries is the sum of
    the map function over the vertices the machine owns (for a vertex
    reduction) or over the in-edges of its local vertices (for an edge
    reduction), each counted once whatever the number of threads. *)
Theorem worker_round_reports_local_sum now order key (st : machine) np mr :
  procid st <> 0%nat ->
  async_state st !! key = Some (new_async_aggregator_state (ncpus st) np mr) ->
  (0 < ncpus st)%nat ->
  Z.of_nat (ncpus st) <= INT_MAX ->
  order ≡ₚ seq 0 (ncpus st) ->
  compute_round now order key st =
    Done (st, [(0%nat, call_rpc_key_merge key (round_sum mr st order))]) /\
  (SummableLaws T ->
     round_sum mr st order = wrapper_sum (mapped_elements mr st)).
Proof.
  intros Hp Ha Hpos Hn Hperm.
  split; [|intros Hlaws; by apply round_sum_local_sum].
  destruct order as [|c init _] using rev_ind.
  { apply Permutation_length in Hperm. rewrite length_seq in Hperm.
    simpl in Hperm. lia. }
  rewrite (compute_round_full now init c key st _ mr Ha); try done.
  - apply Nat.eqb_neq in Hp. rewrite Hp.
    do 2 f_equal. by apply put_async_same.
  - simpl. apply to_int_small. unfold INT_MAX in *. lia.
Qed.

(** X15.  On machine 0 a whole round of its threads, in whatever order
    they finish, has exactly the effect of one [rpc_key_merge]: the same
    state, the same messages, the same failures, with the clock read by
    the thread that finishes last.  For every reduction type, when the
    root accumulator is empty before the round, the merge is that of the
    sums of the threads added in the order in which they finished.  When
    the [+=] of the reduction type is associative and commutative, it is,
    whatever the root accumulator holds, the merge of the machine's own
    local sum: the map function over its owned vertices or over the
    in-edges of its local vertices, each counted once. *)
Theorem coordinator_round_is_a_merge now order c key (st : machine) a mr :
  procid st = 0%nat ->
  async_state st !! key = Some a ->
  per_thread_aggregation a = replicate (ncpus st) (clone_empty mr) ->
  local_count_down a = Z.of_nat (ncpus st) ->
  Z.of_nat (ncpus st) <= INT_MAX ->
  order ≡ₚ seq 0 (ncpus st) ->
  last order = Some c ->
  (acc (root_reducer a) = None ->
     compute_round now order key st =
       rpc_key_merge (now c) key (round_sum mr st order) st) /\
  (SummableLaws T ->
     compute_round now order key st =
       rpc_key_merge (now c) key (wrapper_sum (mapped_elements mr st)) st).
Proof.
  intros Hp Ha Hper Hlocal Hn Hperm [init ->]%last_Some.
  rewrite (compute_round_full now init c key st a mr Ha) by done.
  rewrite Hp. unfold rpc_key_merge. rewrite Ha.
  unfold add_accumulator_any. split.
  - intros Hroot. unfold round_sum. rewrite Hroot.
    by rewrite wrapper_add_None_l.
  - intros Hlaws.
    assert (Hpos : (0 < ncpus st)%nat).
    { apply Permutation_length in Hperm.
      rewrite length_app, length_seq in Hperm. simpl in Hperm. lia. }
    by rewrite (add_thread_sums_local_sum mr st (init ++ [c]) _ Hpos Hperm).
Qed.

Lemma put_async_set_context key x y c (st : machine) :
  put_async key x (set_context c (put_async key y st))
  = put_async key x (set_context c st).
Proof.
  unfold put_async, set_context, set_async_state. simpl.
  by rewrite insert_insert_eq.
Qed.

(** The two countdowns of machine 0 when each stands at one. *)
Lemma decrement_finalize_counter_last now key (st : machine) a p :
  async_state st !! key = Some a ->
  distributed_count_down a = 1 ->
  aggregate_period st !! key = Some p ->
  Z.of_nat (numprocs st) <= INT_MAX ->
  decrement_finalize_counter now key st =
    Done (rpc_schedule_key key (now + p - start_time st)
            (put_async key
               (set_distributed_count_down (Z.of_nat (numprocs st)) a) st),
          remote_call_others st
            (call_rpc_schedule_key key (now + p - start_time st))).
Proof.
  intros Ha Hd Hperiod Hnp. unfold decrement_finalize_counter.
  rewrite Ha, Hd. change (atomic_dec 1) with 0.
  change (0 =? 0) with true. cbv iota zeta.
  rewrite put_async_put_async.
  change (numprocs (put_async _ _ st)) with (numprocs st).
  rewrite to_int_small by (unfold INT_MAX in *; lia).
  unfold period_at.
  change (aggregate_period (put_async ?k ?x st)) with (aggregate_period st).
  by rewrite Hperiod.
Qed.

Lemma decrement_distributed_counter_last now key (st : machine) a :
  procid st = 0%nat ->
  async_state st !! key = Some a ->
  distributed_count_down a = 1 ->
  Z.of_nat (numprocs st) <= INT_MAX ->
  decrement_distributed_counter now key st =
    '(st', calls') ←
      decrement_finalize_counter now key
        (put_async key
           (set_root_reducer (clear_accumulator (root_reducer a))
              (set_distributed_count_down (Z.of_nat (numprocs st)) a))
           (set_context (finalize (context st) (root_reducer a)) st));
    Done (st', remote_call_others st
                 (call_rpc_perform_finalize key (acc (root_reducer a)))
               ++ calls').
Proof.
  intros Hp Ha Hd Hnp. unfold decrement_distributed_counter, assertion.
  rewrite Hp, Ha, Hd. change (atomic_dec 1) with 0.
  change (0 =? 0)%nat with true. change (0 =? 0) with true.
  change (0 <=? 0) with true. cbv iota zeta.
  change (numprocs (put_async _ _ st)) with (numprocs st).
  destruct (Z.leb_spec 0 (Z.of_nat (numprocs st))); [|lia].
  rewrite to_int_small by (unfold INT_MAX in *; lia).
  rewrite put_async_put_async, put_async_set_context. reflexivity.
Qed.

(** X16.  On a single machine a round of the threads, in whatever order
    they finish, completes the whole aggregation: the finalizer is called
    once, on the sums of the threads added in the order in which they
    finished; the key is pushed again for the clock reading of the last
    thread plus its period, as an offset from the start time; nothing is
    sent and nothing else changes.  For every reduction type.  When the
    [+=] of the reduction type is associative and commutative, what the
    finalizer is handed is the sum of the map function over all owned
    vertices, or over all in-edges, each counted once for any number of
    threads. *)
Theorem single_machine_round_finalizes now order c key (st : machine) mr p :
  procid st = 0%nat ->
  numprocs st = 1%nat ->
  async_state st !! key = Some (new_async_aggregator_state (ncpus st) 1 mr) ->
  aggregate_period st !! key = Some p ->
  Z.of_nat (ncpus st) <= INT_MAX ->
  order ≡ₚ seq 0 (ncpus st) ->
  last order = Some c ->
  compute_round now order key st =
    Done (rpc_schedule_key key (now c + p - start_time st)
            (set_context
               (finalize_function mr (context st)
                  (wrapper_value (round_sum mr st order)))
               st), []) /\
  (SummableLaws T ->
     round_sum mr st order = wrapper_sum (mapped_elements mr st)).
Proof.
  intros Hp Hnp Ha Hperiod Hn Hperm [init ->]%last_Some.
  split.
  2:{ intros Hlaws. apply round_sum_local_sum; [|done].
      apply Permutation_length in Hperm.
      rewrite length_app, length_seq in Hperm. simpl in Hperm. lia. }
  rewrite (compute_round_full now init c key st _ mr Ha); try done.
  2:{ simpl. apply to_int_small. unfold INT_MAX in *. lia. }
  rewrite Hp. change (0 =? 0)%nat with true. cbv iota.
  match goal with
  | |- decrement_distributed_counter _ _ (put_async key ?a2 st) = _ =>
      rewrite (decrement_distributed_counter_last _ key _ a2)
  end; try done.
  2:{ unfold put_async. simpl. apply lookup_insert_eq. }
  2:{ change (numprocs (put_async _ _ st)) with (numprocs st). rewrite Hnp.
      done. }
  change (numprocs (put_async _ _ st)) with (numprocs st).
  change (context (put_async _ _ st)) with (context st).
  unfold remote_call_others.
  change (numprocs (put_async _ _ st)) with (numprocs st).
  rewrite put_async_set_context, Hnp.
  set (st1 := set_context
                (finalize_function mr (context st)
                   (wrapper_value (round_sum mr st (init ++ [c])))) st).
  match goal with
  | |- decrement_finalize_counter _ _ ?s ≫= _ = _ =>
      replace s
        with (put_async key (new_async_aggregator_state (ncpus st) 1 mr) st1)
  end.
  2:{ reflexivity. }
  rewrite (decrement_finalize_counter_last _ key _
             (new_async_aggregator_state (ncpus st) 1 mr) p).
  - unfold remote_call_others.
    change (numprocs (put_async _ _ st1)) with (numprocs st).
    change (start_time (put_async _ _ st1)) with (start_time st).
    rewrite Hnp, put_async_put_async.
    rewrite (put_async_same key _ st1) by exact Ha.
    reflexivity.
  - unfold put_async. simpl. apply lookup_insert_eq.
  - reflexivity.
  - exact Hperiod.
  - change (numprocs (put_async _ _ st1)) with (numprocs st). by rewrite Hnp.
Qed.

End Rounds.

End Properties.

(** ** The theorems on the example cluster *)

Section Examples.

Import Example.

Lemma armed_schedule : schedule armed = [("sum"%string, 0)].
Proof. reflexivity. Qed.

(** With the clock still at the reading of [start], the tick runs
    nothing, whatever the fuel. *)
Lemma tick_still_clock fuel :
  tick_synchronous fuel still_clock armed = Done (armed, []).
Proof. destruct fuel; reflexivity. Qed.

Lemma registered_periods k p :
  aggregate_period registered !! k = Some p -> k = "sum"%string /\ p = 0.
Proof.
  change (aggregate_period registered) with (<["sum"%string := 0]> (∅ : gmap string Z)).
  intros [[<- <-]|[_ Hk]]%lookup_insert_Some; [done|].
  by rewrite lookup_empty in Hk.
Qed.

Lemma registered_sum_registered :
  is_Some (aggregators registered !! "sum"%string).
Proof. by eexists. Qed.

Lemma registered_registered_only : registered_only registered.
Proof.
  split; [done|]. split; [done|]. split.
  - intros k mr.
    change (aggregators registered)
      with (<["ec"%string := new_edge_map_reduce count_edge record_value]>
              (<["sum"%string := new_vertex_map_reduce vertex_value record_value]>
                 (∅ : gmap string (@map_reduce_type Z Z nat (list Z))))).
    intros [[_ <-]|[_ Hk]]%lookup_insert_Some; [done|].
    apply lookup_insert_Some in Hk as [[_ <-]|[_ Hk]]; [done|].
    by rewrite lookup_empty in Hk.
  - intros k p [-> ->]%registered_periods. split; [lia|].
    apply registered_sum_registered.
Qed.

Lemma armed_scheduled_registered k p :
  (k, p) ∈ schedule armed -> is_Some (aggregators armed !! k).
Proof.
  rewrite armed_schedule. intros [= -> ->]%list_elem_of_singleton. by eexists.
Qed.

Lemma armed_periods k p : aggregate_period armed !! k = Some p -> 0 <= p.
Proof.
  change (aggregate_period armed) with (aggregate_period registered).
  intros [_ ->]%registered_periods. lia.
Qed.

(** The vertex sum over 1 .. 5 with four threads is 15. *)
Example vertex_sum_four_threads :
  delivered_all (fun _ => four_threads) "sum" [five_vertices] = [Done 15].
Proof. reflexivity. Qed.

(** A vertex stored on three machines and owned by one of them counts
    once: every machine hands 7 to its finalizer. *)
Example owner_filter_counts_once :
  delivered_all (fun _ => two_threads) "sum" ghost_cluster
    = [Done 7; Done 7; Done 7] /\
  ((fun o => match o with Done st => context st | _ => [] end) <$>
     aggregate_now_all (fun _ => two_threads) "sum" ghost_cluster)
    = [[7]; [7]; [7]].
Proof. split; reflexivity. Qed.

(** C1 at a failing input: one machine that owns one vertex with one
    in-edge, the edge count "ec" that maps every edge to 1, and a team of
    two threads.  The cluster is a partitioning of the graph and the team
    is well formed, the single-threaded fold over the edges is 1, but both
    threads run the whole edge loop and the finalizer is handed 2. *)
Theorem aggregate_now_edges_two_threads :
  partitions [7] [0%nat] [registered] /\
  team_ok two_threads /\
  reference_fold (count_edge []) [0%nat] = 1 /\
  delivered_all (fun _ => two_threads) "ec" [registered] = [Done 2] /\
  (exists st',
     aggregate_now two_threads no_collective "ec" registered = Done st' /\
     context st' = [2]).
Proof.
  split; [|split; [|split; [done|split; [done|by eexists]]]].
  - split; [|by vm_compute].
    intros p st Hp. destruct p as [|p]; [|by destruct p].
    injection Hp as <-. done.
  - split; [|done]. intros i. simpl.
    pose proof (Nat.mod_upper_bound i 2). lia.
Qed.

(** C3 at a failing input.  "sum" is registered with period 0 and [start]
    ran at clock 0, so the schedule holds it with fire time 0.  A tick
    whose frozen [curtime] is 0 finds that fire time not later than
    [curtime], but the loop condition [-schedule.top().second < curtime]
    is strict: the tick runs no key, calls no finalizer and leaves the
    state as it is, whatever its fuel.  The same happens after a tick that
    did run the key: the key is pushed with the fire time of that clock
    reading, and the next tick at the same reading of
    [approx_time_seconds] runs nothing.  So a key of period zero is not
    run by every tick, and "fire time at or before now" is not what the
    tick runs. *)
Theorem tick_synchronous_skips_key_due_now :
  aggregate_period armed !! "sum"%string = Some 0 /\
  schedule armed = [("sum"%string, 0)] /\
  tick_curtime still_clock armed = 0 /\
  (forall fuel, tick_synchronous fuel still_clock armed = Done (armed, [])) /\
  tick_synchronous 1 later_clock armed = Done (after_tick, ["sum"%string]) /\
  context after_tick = [7] /\
  (forall fuel,
     tick_synchronous fuel later_clock after_tick = Done (after_tick, [])) /\
  ~ (forall fuel, (1 <= fuel)%nat ->
       exists st' keys,
         tick_synchronous fuel still_clock armed = Done (st', keys) /\
         forall k, k ∈ keys <->
           exists p, (k, p) ∈ schedule armed /\
                     - p <= tick_curtime still_clock armed).
Proof.
  split; [done|]. split; [done|]. split; [done|].
  split; [apply tick_still_clock|]. split; [done|]. split; [done|].
  split; [intros fuel; by destruct fuel|].
  intros Hevery.
  destruct (Hevery 1%nat (le_n 1)) as (st' & keys & Hrun & Hiff).
  rewrite tick_still_clock in Hrun. injection Hrun as <- <-.
  assert (Hin : "sum"%string ∈ @nil string).
  { apply Hiff. exists 0. split; [|done]. rewrite armed_schedule.
    apply list_elem_of_here. }
  by apply elem_of_nil in Hin.
Qed.

Lemma tick_synchronous_runs_due_keys_witness :
  exists st' keys,
    tick_synchronous 1 later_clock armed = Done (st', keys) /\
    keys ≡ₚ (due (tick_curtime later_clock armed) (schedule armed)).*1 /\
    (forall k, k ∈ keys <->
       exists p, (k, p) ∈ schedule armed /\ - p < tick_curtime later_clock armed) /\
    due (tick_curtime later_clock armed) (schedule st') = [].
Proof.
  apply (tick_synchronous_runs_due_keys 1 later_clock armed).
  - apply armed_scheduled_registered.
  - apply armed_periods.
  - intros _ j. unfold later_clock. simpl. lia.
  - intros _ j. unfold later_clock. simpl. lia.
  - rewrite armed_schedule. simpl. lia.
Defined.

Lemma tick_synchronous_at_most_once_witness :
  exists st' keys,
    tick_synchronous 1 later_clock armed = Done (st', keys) /\
    NoDup keys /\ NoDup (schedule st').*1.
Proof.
  apply (tick_synchronous_at_most_once 1 later_clock armed).
  - rewrite armed_schedule. simpl. apply NoDup_singleton.
  - apply armed_scheduled_registered.
  - apply armed_periods.
  - intros _ j. unfold later_clock. simpl. lia.
  - intros _ j. unfold later_clock. simpl. lia.
  - rewrite armed_schedule. simpl. lia.
Defined.

Lemma finalize_countdown_zero_reschedules_witness :
  exists st' calls a',
    decrement_finalize_counter 9 "sum" armed_two_cpus = Done (st', calls) /\
    async_state st' !! "sum"%string = Some a' /\
    distributed_count_down a' = 1 /\
    schedule st' = mq_push "sum" (- 9) (schedule armed_two_cpus) /\
    calls = [].
Proof.
  destruct (finalize_countdown_zero_reschedules 9 "sum" 0 armed_two_cpus
              (new_async_aggregator_state 2 1
                 (new_vertex_map_reduce vertex_value record_value)))
    as (st' & calls & a' & Hrun & Ha' & Hd & Hsched & Hcalls & _).
  - reflexivity.
  - reflexivity.
  - reflexivity.
  - vm_compute. by intros [=].
  - exists st', calls, a'. by repeat split.
Defined.

Lemma async_state_within_bounds_witness :
  ncpus after_compute = 2%nat /\ numprocs after_compute = 1%nat /\
  forall k, is_Some (aggregate_period registered !! k) ->
    exists a,
      async_state after_compute !! k = Some a /\
      0 <= local_count_down a <= Z.of_nat (ncpus after_compute) /\
      0 <= distributed_count_down a <= Z.of_nat (numprocs after_compute) /\
      length (per_thread_aggregation a) = ncpus after_compute.
Proof.
  apply (async_state_within_bounds 2 0 registered armed_two_cpus after_compute).
  - lia.
  - vm_compute. by intros [=].
  - vm_compute. lia.
  - vm_compute. by intros [=].
  - intros k [a Ha].
    change (async_state registered)
      with (∅ : gmap string (@async_aggregator_state Z Z nat (list Z))) in Ha.
    by rewrite lookup_empty in Ha.
  - reflexivity.
  - apply rtc_once.
    apply (step_tick_asynchronous_compute 5 0 "sum" armed_two_cpus after_compute []).
    reflexivity.
Defined.

Lemma unknown_key_is_fatal_witness :
  aggregate_now serial_team no_collective "nope" registered = Fatal /\
  tick_asynchronous_compute 0 0 "nope" registered = Fatal.
Proof.
  destruct (unknown_key_is_fatal serial_team no_collective 0 0 "nope" registered)
    as [Hnow Hcompute].
  split; [apply Hnow | apply Hcompute]; reflexivity.
Defined.

Lemma stop_then_start_rearms_witness :
  schedule (stop after_round) = [] /\
  async_state (stop after_round) = ∅ /\
  (forall k mr, aggregators (stop after_round) !! k = Some mr -> acc mr = None) /\
  exists st2,
    start 2 7 (stop after_round) = Done st2 /\
    start_time st2 = 7 /\
    NoDup (schedule st2).*1 /\
    (forall k p,
       (k, - p) ∈ schedule st2 <-> aggregate_period registered !! k = Some p) /\
    (forall k,
       async_state st2 !! k =
         if (0 <? 2)%nat then
           match aggregate_period registered !! k with
           | Some _ =>
               new_async_aggregator_state 2 (numprocs registered)
                 <$> aggregators registered !! k
           | None => None
           end
         else None) /\
    schedule st2 = schedule armed_two_cpus /\
    async_state st2 = async_state armed_two_cpus /\
    aggregators st2 = aggregators armed_two_cpus /\
    aggregate_period st2 = aggregate_period armed_two_cpus /\
    ncpus st2 = ncpus armed_two_cpus /\
    procid st2 = procid armed_two_cpus /\
    numprocs st2 = numprocs armed_two_cpus /\
    graph st2 = graph armed_two_cpus.
Proof.
  apply (stop_then_start_rearms 2 0 7 registered armed_two_cpus after_round).
  - apply registered_registered_only.
  - reflexivity.
  - eapply rtc_l.
    + apply (step_tick_asynchronous_compute 5 0 "sum" armed_two_cpus
               after_compute []).
      reflexivity.
    + apply rtc_once.
      apply (step_tick_asynchronous_compute 6 1 "sum" after_compute
               after_round []).
      vm_compute. reflexivity.
Defined.

Lemma stop_keeps_registrations_witness :
  aggregate_period (stop after_tick) = aggregate_period after_tick /\
  (forall k, aggregators (stop after_tick) !! k =
               clear_accumulator <$> aggregators after_tick !! k) /\
  exists st',
    start 2 7 (stop after_tick) = Done st' /\
    aggregate_period st' = aggregate_period after_tick /\
    aggregators st' = aggregators (stop after_tick) /\
    (forall k p, (k, - p) ∈ schedule st' <->
                 aggregate_period after_tick !! k = Some p) /\
    ((0 < 2)%nat ->
       forall k, is_Some (async_state st' !! k) <->
                 is_Some (aggregate_period after_tick !! k)).
Proof.
  apply (stop_keeps_registrations 2 7 after_tick).
  intros k [p Hk].
  change (aggregate_period after_tick) with (aggregate_period registered) in Hk.
  apply registered_periods in Hk as [-> _]. by eexists.
Defined.

Lemma aggregate_now_forgets_residue_witness :
  delivered_all (fun _ => serial_team) "sum" [registered] =
    delivered_all (fun _ => serial_team) "sum" [with_residue] /\
  aggregate_now_all (fun _ => serial_team) "sum" [registered] =
    aggregate_now_all (fun _ => serial_team) "sum" [with_residue] /\
  (forall p st',
     aggregate_now_all (fun _ => serial_team) "sum" [registered] !! p =
       Some (Done st') ->
     exists mr, aggregators st' !! "sum"%string = Some mr /\ acc mr = None).
Proof.
  apply (aggregate_now_forgets_residue (fun _ => serial_team) "sum"
           [registered] [with_residue]).
  apply Forall2_cons_2; [|apply Forall2_nil_2].
  exists (Some 5). reflexivity.
Defined.

(** *** The further properties on the example machines *)

Lemma Z_summable_laws : SummableLaws Z.
Proof. split; intros; simpl; lia. Qed.

Lemma registration_keeps_tables_consistent_witness :
  registered_only registered /\
  aggregators registered !! EmptyString = None /\
  forall cpus now, exists st', start cpus now registered = Done st'.
Proof.
  apply (registration_keeps_tables_consistent 0 1 shard [] 0 registered).
  eapply rtc_l;
    [apply (reg_add_vertex_aggregator "sum" vertex_value record_value fresh)|].
  eapply rtc_l;
    [apply (reg_add_edge_aggregator "ec" count_edge record_value)|].
  apply rtc_once. apply (reg_aggregate_periodic "sum" 0).
Defined.

Lemma start_without_threads_has_no_async_state_witness :
  async_state armed = ∅ /\
  forall now' cpuid key, tick_asynchronous_compute now' cpuid key armed = Fatal.
Proof.
  apply (start_without_threads_has_no_async_state 0 registered armed);
    reflexivity.
Defined.

Lemma aggregate_now_touches_only_key_witness :
  (exists mr v,
     aggregators registered !! "sum"%string = Some mr /\
     delivered_value serial_team no_collective "sum" registered = Done v /\
     context after_now = finalize_function mr (context registered) v /\
     aggregators after_now !! "sum"%string = Some (clear_accumulator mr)) /\
  (forall k, k <> "sum"%string ->
     aggregators after_now !! k = aggregators registered !! k) /\
  aggregate_period after_now = aggregate_period registered /\
  schedule after_now = schedule registered /\
  async_state after_now = async_state registered /\
  (procid after_now, numprocs after_now, graph after_now, ncpus after_now,
   start_time after_now)
    = (procid registered, numprocs registered, graph registered,
       ncpus registered, start_time registered).
Proof.
  apply (aggregate_now_touches_only_key serial_team no_collective "sum"
           registered after_now).
  reflexivity.
Defined.

Lemma tick_asynchronous_pops_earliest_witness :
  (true = false -> tick_asynchronous true 1 armed = (EmptyString, armed)) /\
  (due (1 - start_time armed) (schedule armed) = [] ->
     tick_asynchronous true 1 armed = (EmptyString, armed)) /\
  (true = true -> due (1 - start_time armed) (schedule armed) <> [] ->
     exists key p q,
       tick_asynchronous true 1 armed = (key, set_schedule q armed) /\
       - p < 1 - start_time armed /\
       (forall e, e ∈ schedule armed -> - p <= - e.2) /\
       schedule armed ≡ₚ (key, p) :: q /\
       key ∉ q.*1).
Proof.
  apply (tick_asynchronous_pops_earliest true 1 armed).
  rewrite armed_schedule. apply NoDup_singleton.
Defined.

Lemma async_calls_are_isolated_witness :
  aggregators after_compute = aggregators armed_two_cpus /\
  (forall k, k <> "sum"%string ->
     async_state after_compute !! k = async_state armed_two_cpus !! k /\
     aggregate_period after_compute !! k = aggregate_period armed_two_cpus !! k) /\
  (forall e, e ∈ schedule armed_two_cpus -> e ∈ schedule after_compute) /\
  (forall e, e ∈ schedule after_compute ->
     e ∈ schedule armed_two_cpus \/ e.1 = "sum"%string) /\
  (forall target (c : @rpc_call Z),
     (target, c) ∈ @nil (@remote_call Z) -> call_key c = "sum"%string).
Proof.
  apply (async_calls_are_isolated "sum" armed_two_cpus after_compute []).
  apply (via_tick_asynchronous_compute "sum" 5 0 armed_two_cpus after_compute []).
  reflexivity.
Defined.

Lemma descriptors_are_immutable_witness :
  exists mr',
    aggregators after_tick !! "sum"%string = Some mr' /\
    map_fn mr' = map_fn (new_vertex_map_reduce vertex_value record_value) /\
    finalize_function mr' = record_value.
Proof.
  apply (descriptors_are_immutable registered after_tick "sum"
           (new_vertex_map_reduce vertex_value record_value)).
  - eapply rtc_l; [apply (api_start 0 0 registered armed); reflexivity|].
    apply rtc_once.
    apply (api_tick_synchronous 1 later_clock armed after_tick ["sum"%string]).
    reflexivity.
  - reflexivity.
Defined.

Lemma coordinator_collects_then_finalizes_witness :
  (exists st1, collect 9 "ec" [Some (Some 2)] coordinator = Done (st1, []) /\
               context st1 = []) /\
  (exists st' a',
     collect 9 "ec" [Some (Some 2); None] coordinator =
       Done (st', [(1%nat, call_rpc_perform_finalize "ec" (Some 2))]) /\
     context st' = [2] /\
     async_state st' !! "ec"%string = Some a' /\
     acc (root_reducer a') = None).
Proof.
  destruct (coordinator_collects_then_finalizes 9 "ec" [Some (Some 2)] None
              coordinator
              (new_async_aggregator_state 2 2
                 (new_edge_map_reduce count_edge record_value)))
    as (Hfirst & Hlast & _).
  - reflexivity.
  - reflexivity.
  - reflexivity.
  - vm_compute. lia.
  - vm_compute. by intros [=].
  - split; [exact Hfirst | exact Hlast].
Defined.

Lemma tick_synchronous_rearms_witness :
  (forall e, e ∈ schedule armed -> tick_curtime later_clock armed <= - e.2 ->
     e ∈ schedule after_tick) /\
  (forall j k, ["sum"%string] !! j = Some k ->
     (k, - next_fire_time later_clock armed j k) ∈ schedule after_tick /\
     tick_curtime later_clock armed <= next_fire_time later_clock armed j k).
Proof.
  apply (tick_synchronous_rearms 1 later_clock armed after_tick ["sum"%string]).
  - apply armed_periods.
  - intros _ j. unfold later_clock. simpl. lia.
  - intros _ j. unfold later_clock. simpl. lia.
  - reflexivity.
Defined.

Lemma tick_synchronous_nothing_due_witness :
  tick_synchronous 3 still_clock armed = Done (armed, []).
Proof.
  apply (tick_synchronous_nothing_due 3 still_clock armed). reflexivity.
Defined.

Lemma worker_round_reports_local_sum_witness :
  compute_round (fun _ => 4) [1%nat; 0%nat] "ec" worker =
    Done (worker, [(0%nat, call_rpc_key_merge "ec" (Some 3))]) /\
  round_sum (new_edge_map_reduce count_edge record_value) worker
            [1%nat; 0%nat]
  = wrapper_sum
      (mapped_elements (new_edge_map_reduce count_edge record_value) worker).
Proof.
  destruct (worker_round_reports_local_sum
              (fun _ => 4) [1%nat; 0%nat] "ec" worker 2
              (new_edge_map_reduce count_edge record_value))
    as [Hrun Hsum].
  - vm_compute. by intros [=].
  - reflexivity.
  - vm_compute. lia.
  - vm_compute. by intros [=].
  - apply perm_swap.
  - split; [exact Hrun | exact (Hsum Z_summable_laws)].
Defined.

Lemma coordinator_round_is_a_merge_witness :
  compute_round (fun c => 4 + Z.of_nat c) [1%nat; 0%nat] "ec" coordinator =
    rpc_key_merge 4 "ec"
      (round_sum (new_edge_map_reduce count_edge record_value) coordinator
                 [1%nat; 0%nat])
      coordinator /\
  compute_round (fun c => 4 + Z.of_nat c) [1%nat; 0%nat] "ec" coordinator =
    rpc_key_merge 4 "ec" (Some 3) coordinator.
Proof.
  destruct (coordinator_round_is_a_merge
              (fun c => 4 + Z.of_nat c) [1%nat; 0%nat] 0%nat "ec" coordinator
              (new_async_aggregator_state 2 2
                 (new_edge_map_reduce count_edge record_value))
              (new_edge_map_reduce count_edge record_value))
    as [Hempty Hlaws].
  - reflexivity.
  - reflexivity.
  - reflexivity.
  - reflexivity.
  - vm_compute. by intros [=].
  - apply perm_swap.
  - reflexivity.
  - split; [apply Hempty; reflexivity | exact (Hlaws Z_summable_laws)].
Defined.

Lemma single_machine_round_finalizes_witness :
  compute_round (fun c => 4 + Z.of_nat c) [0%nat; 1%nat] "sum" armed_two_cpus =
    Done (rpc_schedule_key "sum" 5 (set_context [7] armed_two_cpus), []) /\
  round_sum (new_vertex_map_reduce vertex_value record_value) armed_two_cpus
            [0%nat; 1%nat]
  = wrapper_sum
      (mapped_elements (new_vertex_map_reduce vertex_value record_value)
                       armed_two_cpus).
Proof.
  destruct (single_machine_round_finalizes
              (fun c => 4 + Z.of_nat c) [0%nat; 1%nat] 1%nat "sum"
              armed_two_cpus
              (new_vertex_map_reduce vertex_value record_value) 0)
    as [Hrun Hsum].
  - reflexivity.
  - reflexivity.
  - reflexivity.
  - reflexivity.
  - vm_compute. by intros [=].
  - reflexivity.
  - reflexivity.
  - split; [exact Hrun | exact (Hsum Z_summable_laws)].
Defined.

End Examples.
